(** * Revive Engine: the durable step executor and its replay discipline

    A shallow embedding of [DurableContext] (engine/DurableEngine.ts, the
    class that follows [App] in src/App.tsx), of the persistent storage
    simulation [handleStepUpdate] and of the workflow driver [runWorkflow]
    (both in the [App] component), with the properties of the step
    execution and replay engine stated over it.

    Conventions
    - [sequenceCounter] is a JavaScript number that only ever holds small
      non-negative integers, on which [++] is exact; it is a [nat] here.
    - An [async] function runs synchronously up to its first [await]; each
      [await] is a point where the rest of the browser (timers, the
      "Simulate Crash" button, the clock) may act.  A call of [step] is
      therefore a small state machine ([StepPromise]): its synchronous
      prefix [step_begin], the continuation after the visualisation delay
      [step_wake], and the continuation after the work settled
      [step_settle].  What the rest of the browser does at an [await] is an
      explicit input ([EnvAct]).
    - The engine's observable actions are collected in a trace ([Event]):
      the polls of the interruption callback, the record updates, the
      invocations of the work, and the allocation made by each call.
    - The [db] state is modelled by its updates ([w_db]).  The table view
      of [App] also sorts the array in place at every render; for a store
      that holds one record per [stepKey] this changes the order of the
      records and nothing else, and the lookups of [step] do not depend on
      that order (see "The store between updates"). *)

From Stdlib Require Import Ascii.
From stdpp Require Import base decidable option numbers pretty strings list sorting.

(** ** Data model (types.ts) *)

Inductive StepStatus := PENDING | RUNNING | COMPLETED | FAILED.

Global Instance StepStatus_eq_dec : EqDecision StepStatus.
Proof. solve_decision. Defined.

(** The payload of a step ([result: any]): the JSON-like values the
    workflows of the repository return. *)
#[warnings="-register-all"]
Inductive JsValue :=
  | JNull
  | JString (s : string)
  | JArray (items : list JsValue)
  | JObject (fields : list (string * JsValue)).

(** [StepRecord]; the user-provided name [id] is [stepId] here. *)
Record StepRecord := mkStepRecord {
  workflowId : string;
  stepKey : string;
  stepId : string;
  sequence : nat;
  status : StepStatus;
  result : JsValue;
  error : option string;
  timestamp : N
}.

Inductive LogType := info | success | error_t | warning | system.

Record LogEntry := mkLog {
  log_message : string;
  log_type : LogType;
  log_timestamp : N
}.

(** A JavaScript [Error], as far as the engine looks at it. *)
Record JsError := mkError { message : string }.

(** What a promise may reject with.  The [catch] blocks take whatever was
    thrown ([any]) and read its [message]:
    - an [Error], or any object whose [message] is a string ([Err]);
    - a value other than [null] and [undefined] whose [message] reads as a
      falsy value that is not a string ([Odd]): a thrown string, number or
      array and an object without [message] read as [undefined], an object
      like [{message: 0}] reads as [0];
    - [null] and [undefined] themselves, on which the read throws a
      [TypeError].  Only the work rejects with these ([RejectsNullish]): a
      call of [step] rethrows what it could read, or throws an [Error].
    Values whose [message] is a truthy non-string are left out: the FAILED
    record would carry that value in [error], which [StepRecord] types as a
    string. *)
Inductive Falsy := FUndefined | FNull | FFalse | FZero | FNaN.

Inductive Thrown :=
  | Err (e : JsError)
  | Odd (m : Falsy).

Coercion Err : JsError >-> Thrown.

Definition WORKFLOW_INTERRUPTED : string := "WORKFLOW_INTERRUPTED".

(** [`${error.message}`] *)
Definition falsy_text (m : Falsy) : string :=
  match m with
  | FUndefined => "undefined"
  | FNull => "null"
  | FFalse => "false"
  | FZero => "0"
  | FNaN => "NaN"
  end.

Definition message_text (e : Thrown) : string :=
  match e with
  | Err e => message e
  | Odd m => falsy_text m
  end.

(** [error.message === "WORKFLOW_INTERRUPTED"] *)
Definition is_interruption (e : Thrown) : Prop :=
  match e with
  | Err e => message e = WORKFLOW_INTERRUPTED
  | Odd _ => False
  end.

Global Instance is_interruption_dec e : Decision (is_interruption e).
Proof. destruct e; apply _. Defined.

(** [error.message || 'Unknown error'] *)
Definition message_or_unknown (e : Thrown) : string :=
  match e with
  | Err e => if decide (message e = "") then "Unknown error" else message e
  | Odd _ => "Unknown error"
  end.

(** The [TypeError] thrown by reading [message] of [null] or of
    [undefined]; its text is the one Chrome and Node.js give.  The
    properties use of it only that it is not "WORKFLOW_INTERRUPTED". *)
Definition type_error (undef : bool) : JsError :=
  mkError ("Cannot read properties of "
           +:+ (if undef then "undefined" else "null")
           +:+ " (reading 'message')").

(** The unit of work [fn : () => Promise<T>]: it is invoked, and its promise
    later fulfils with a value or rejects with whatever it threw. *)
Inductive Work :=
  | Resolves (v : JsValue)
  | Rejects (e : Thrown)
  | RejectsNullish (undef : bool).

(** ** The world around the engine *)

(** Observable actions of the engine, in the order they happen. *)
Inductive Event :=
  | ECall (id : string) (seq : nat) (key : string)
      (* a call of step: its label, the sequence it allocated, its stepKey *)
  | EPoll (b : bool)           (* this.isInterrupted() returned b *)
  | EUpdate (r : StepRecord)   (* this.onStepUpdate(r) *)
  | EInvoke (key : string).    (* fn() of the step with this stepKey *)

(** The state of [App] the engine talks to through its callbacks: the
    [db] state (the Step Record Store), the [logs] state, the value of
    [isCrashedRef.current] (the Interruption Signal), [Date.now()], and the
    trace. *)
Record World := mkWorld {
  w_db : list StepRecord;
  w_logs : list LogEntry;
  w_isCrashed : bool;
  w_now : N;
  w_trace : list Event
}.

Definition emit (e : Event) (w : World) : World :=
  mkWorld (w_db w) (w_logs w) (w_isCrashed w) (w_now w) (w_trace w ++ [e]).

(** [addLog]: newest entry first, at most 50 entries kept. *)
Definition addLog (msg : string) (ty : LogType) (w : World) : World :=
  mkWorld (w_db w) (take 50 (mkLog msg ty (w_now w) :: w_logs w))
          (w_isCrashed w) (w_now w) (w_trace w).

(** [handleStepUpdate]: replace the first record with the same [stepKey],
    append when there is none. *)
Definition handleStepUpdate (record : StepRecord) (prev : list StepRecord)
  : list StepRecord :=
  match list_find (fun r => stepKey r = stepKey record) prev with
  | Some (idx, _) => <[idx := record]> prev
  | None => prev ++ [record]
  end.

Definition onStepUpdate (record : StepRecord) (w : World) : World :=
  emit (EUpdate record)
    (mkWorld (handleStepUpdate record (w_db w)) (w_logs w) (w_isCrashed w)
             (w_now w) (w_trace w)).

(** What the rest of the browser does while the engine is suspended at an
    [await]: time passes, and the crash flag may be set or cleared. *)
Record EnvAct := mkEnv {
  elapse : N;
  set_crashed : option bool
}.

Definition idle : EnvAct := mkEnv 0 None.
Definition crash : EnvAct := mkEnv 0 (Some true).
Definition recover : EnvAct := mkEnv 0 (Some false).

Definition env_apply (a : EnvAct) (w : World) : World :=
  mkWorld (w_db w) (w_logs w)
          (default (w_isCrashed w) (set_crashed a))
          (w_now w + elapse a)%N (w_trace w).

(** ** DurableContext *)

Record DurableContext := mkCtx {
  ctx_workflowId : string;
  sequenceCounter : nat;
  ctx_db : list StepRecord   (* the array handed to the constructor *)
}.

Definition newContext (wid : string) (db : list StepRecord) : DurableContext :=
  mkCtx wid 0 db.

(** The template literal [`${id}_seq_${sequence}`]. *)
Definition makeStepKey (id : string) (sequence : nat) : string :=
  id +:+ "_seq_" +:+ pretty sequence.

(** [this.db.find(r => r.workflowId === this.workflowId && r.stepKey === stepKey)] *)
Definition find_existing (ctx : DurableContext) (key : string)
  : option StepRecord :=
  snd <$> list_find
    (fun r => workflowId r = ctx_workflowId ctx /\ stepKey r = key) (ctx_db ctx).

(** The promise returned by a call of [step]. *)
Inductive StepPromise :=
  | Fulfilled (v : JsValue)
  | Rejected (e : Thrown)
  | Sleeping (runningRecord : StepRecord) (fn : Work)
      (* suspended at the visualisation delay *)
  | Working (runningRecord : StepRecord) (fn : Work).
      (* fn() was invoked; suspended until it settles *)

Definition interrupted_error : JsError := mkError WORKFLOW_INTERRUPTED.

(** [step], from its first line to its first [await]. *)
Definition step_begin (id : string) (fn : Work) (ctx : DurableContext) (w : World)
  : DurableContext * World * StepPromise :=
  let sequence := S (sequenceCounter ctx) in
  let ctx := mkCtx (ctx_workflowId ctx) sequence (ctx_db ctx) in
  let key := makeStepKey id sequence in
  let w := emit (ECall id sequence key) w in
  let fresh :=
    let w := emit (EPoll (w_isCrashed w)) w in
    if w_isCrashed w then (ctx, w, Rejected interrupted_error)
    else
      let w := addLog ("Executing Step [" +:+ id +:+ "] (Seq: "
                       +:+ pretty sequence +:+ ")...") info w in
      let runningRecord :=
        mkStepRecord (ctx_workflowId ctx) key id sequence RUNNING JNull None
                     (w_now w) in
      (ctx, onStepUpdate runningRecord w, Sleeping runningRecord fn) in
  match find_existing ctx key with
  | Some existing =>
      if decide (status existing = COMPLETED) then
        (ctx,
         addLog ("Skipping Step [" +:+ id +:+ "] (Seq: " +:+ pretty sequence
                 +:+ ") - Loaded from cache.") success w,
         Fulfilled (result existing))
      else fresh
  | None => fresh
  end.

(** The [catch] block of [step], for an error whose [message] can be
    read. *)
Definition step_catch (runningRecord : StepRecord) (e : Thrown) (w : World)
  : World * StepPromise :=
  let id := stepId runningRecord in
  if decide (is_interruption e) then
    (addLog ("Step [" +:+ id +:+ "] interrupted by system crash.") warning w,
     Rejected e)
  else
    let failedRecord :=
      mkStepRecord (workflowId runningRecord) (stepKey runningRecord)
        (stepId runningRecord) (sequence runningRecord) FAILED
        (result runningRecord) (Some (message_or_unknown e)) (w_now w) in
    let w := onStepUpdate failedRecord w in
    (addLog ("Step [" +:+ id +:+ "] failed: " +:+ message_text e) error_t w,
     Rejected e).

(** After the delay: the second crash check, then [fn()] is invoked. *)
Definition step_wake (runningRecord : StepRecord) (fn : Work) (w : World)
  : World * StepPromise :=
  let w := emit (EPoll (w_isCrashed w)) w in
  if w_isCrashed w then step_catch runningRecord interrupted_error w
  else (emit (EInvoke (stepKey runningRecord)) w, Working runningRecord fn).

(** After [fn()] settled: commit the result, or the [catch] block.  When
    [fn()] rejected with [null] or [undefined], the first line of the
    [catch] block throws: nothing is logged or written, and the call rejects
    with the [TypeError]. *)
Definition step_settle (runningRecord : StepRecord) (fn : Work) (w : World)
  : World * StepPromise :=
  match fn with
  | Resolves v =>
      let completedRecord :=
        mkStepRecord (workflowId runningRecord) (stepKey runningRecord)
          (stepId runningRecord) (sequence runningRecord) COMPLETED v
          (error runningRecord) (w_now w) in
      let w := onStepUpdate completedRecord w in
      (addLog ("Step [" +:+ stepId runningRecord +:+ "] finished successfully.")
              success w,
       Fulfilled v)
  | Rejects e => step_catch runningRecord e w
  | RejectsNullish undef => (w, Rejected (type_error undef))
  end.

(** One resumption of a suspended call; a settled promise stays as it is. *)
Definition advance (p : StepPromise) (w : World) : World * StepPromise :=
  match p with
  | Sleeping rr fn => step_wake rr fn w
  | Working rr fn => step_settle rr fn w
  | _ => (w, p)
  end.

(** ** Awaiting promises *)

(** A schedule lists, in the order they happen, the resumptions of suspended
    calls: which promise of the awaited list is resumed (for a single awaited
    step the index is not used), and what the rest of the browser did
    before. *)
Definition Schedule := list (nat * EnvAct).

(** [await ctx.step(...)]: the caller is suspended until the promise
    settles.  An [await] always yields: when the promise is settled already,
    the caller resumes after one turn of the rest of the browser; otherwise
    the call is resumed as scheduled until it settles.  When the schedule
    ends before that, the promise is returned still suspended. *)
Fixpoint await_step (p : StepPromise) (sched : Schedule) (w : World)
  : World * StepPromise :=
  match sched with
  | [] => (w, p)
  | (_, a) :: sched =>
      let w := env_apply a w in
      match p with
      | Fulfilled _ | Rejected _ => (w, p)
      | _ =>
          let '(w, p) := advance p w in
          match p with
          | Fulfilled _ | Rejected _ => (w, p)
          | _ => await_step p sched w
          end
      end
  end.

(** The state of [Promise.all(steps)]: rejected as soon as one promise is
    rejected, fulfilled with the values in the order of the input once all
    are fulfilled. *)
Inductive AllState :=
  | AllPending
  | AllFulfilled (vs : list JsValue)
  | AllRejected (e : Thrown).

Fixpoint promise_all (ps : list StepPromise) : AllState :=
  match ps with
  | [] => AllFulfilled []
  | Rejected e :: _ => AllRejected e
  | Fulfilled v :: ps =>
      match promise_all ps with
      | AllFulfilled vs => AllFulfilled (v :: vs)
      | st => st
      end
  | _ :: ps =>
      match promise_all ps with
      | AllRejected e => AllRejected e
      | _ => AllPending
      end
  end.

(** Resume the [i]-th promise of the list. *)
Definition resume (i : nat) (ps : list StepPromise) (w : World)
  : World * list StepPromise :=
  match ps !! i with
  | Some p => let '(w, p) := advance p w in (w, <[i := p]> ps)
  | None => (w, ps)
  end.

(** [await ctx.parallel(steps)]: [parallel] is [Promise.all(steps)] on the
    promises it is handed, whichever calls made them and in whatever order.
    Awaiting it is as for a single step, with the state of [Promise.all] in
    place of the promise; returns the events not consumed. *)
Fixpoint await_all (ps : list StepPromise) (sched : Schedule) (w : World)
  : World * list StepPromise * Schedule * AllState :=
  match sched with
  | [] => (w, ps, [], promise_all ps)
  | (i, a) :: sched =>
      let w := env_apply a w in
      match promise_all ps with
      | AllPending =>
          let '(w, ps) := resume i ps w in
          match promise_all ps with
          | AllPending => await_all ps sched w
          | st => (w, ps, sched, st)
          end
      | st => (w, ps, sched, st)
      end
  end.

(** Calls that are still suspended when [Promise.all] rejected are not
    cancelled: they go on as scheduled. *)
Fixpoint drain (ps : list StepPromise) (sched : Schedule) (w : World)
  : World * list StepPromise :=
  match sched with
  | [] => (w, ps)
  | (i, a) :: sched =>
      let '(w, ps) := resume i ps (env_apply a w) in drain ps sched w
  end.

(** Calls of [step] made one after the other without an [await] between
    them, as by the array literal in
    [ctx.parallel([ctx.step(..), .., ctx.step(..)])]: every call runs to its
    first [await] and returns its promise. *)
Fixpoint begin_all (calls : list (string * Work)) (ctx : DurableContext)
  (w : World) : DurableContext * World * list StepPromise :=
  match calls with
  | [] => (ctx, w, [])
  | (id, fn) :: calls =>
      let '(ctx, w, p) := step_begin id fn ctx w in
      let '(ctx, w, ps) := begin_all calls ctx w in
      (ctx, w, p :: ps)
  end.

(** ** Workflow code *)

(** The code between [try] and [catch] in [runWorkflow], in the two forms
    the workflow of the repository uses: [await ctx.step(id, fn)], and
    [await ctx.parallel([ctx.step(..), .., ctx.step(..)])] with the calls
    made in the array literal ([AwaitParallel]); besides, log lines.  What
    follows an [await] may depend on the value it produced.  A [parallel]
    over promises made elsewhere is [begin_all] followed by [await_all] on
    the promises as they are handed over. *)
Inductive Workflow :=
  | Finish
  | Say (msg : string) (ty : LogType) (k : Workflow)
  | AwaitStep (id : string) (fn : Work) (k : JsValue -> Workflow)
  | AwaitParallel (calls : list (string * Work)) (k : list JsValue -> Workflow).

Inductive PassResult :=
  | PassCompleted
  | PassInterrupted
  | PassFailed (e : Thrown)
  | PassSuspended.   (* the schedule ended while the pass was awaiting *)

(** The [catch] block of [runWorkflow]. *)
Definition pass_catch (e : Thrown) (w : World) : World * PassResult :=
  if decide (is_interruption e) then (w, PassInterrupted)
  else (addLog ("Workflow failed: " +:+ message_text e) error_t w, PassFailed e).

(** One schedule per [await], in the order the awaits are reached. *)
Fixpoint run (wf : Workflow) (scheds : list Schedule) (ctx : DurableContext)
  (w : World) : DurableContext * World * PassResult :=
  match wf with
  | Finish =>
      (ctx, addLog "Workflow completed successfully!" success w, PassCompleted)
  | Say msg ty k => run k scheds ctx (addLog msg ty w)
  | AwaitStep id fn k =>
      let '(ctx, w, p) := step_begin id fn ctx w in
      let '(w, p) := await_step p (hd [] scheds) w in
      match p with
      | Fulfilled v => run (k v) (tl scheds) ctx w
      | Rejected e => let '(w, r) := pass_catch e w in (ctx, w, r)
      | _ => (ctx, w, PassSuspended)
      end
  | AwaitParallel calls k =>
      let '(ctx, w, ps) := begin_all calls ctx w in
      let '(w, ps, rest, st) := await_all ps (hd [] scheds) w in
      match st with
      | AllFulfilled vs => run (k vs) (tl scheds) ctx w
      | AllRejected e =>
          let '(w, r) := pass_catch e w in
          let '(w, _) := drain ps rest w in
          (ctx, w, r)
      | AllPending => (ctx, w, PassSuspended)
      end
  end.

(** [runWorkflow], from the first [addLog] on: a fresh context over the
    current [db], then the workflow code.  The [isRunning] guard is state of
    the buttons; [setIsCrashed(false)] reaches [isCrashedRef] only when the
    effect runs after the next render, which is a turn of the rest of the
    browser. *)
Definition runWorkflow (wid : string) (wf : Workflow) (scheds : list Schedule)
  (w : World) : World * PassResult :=
  let w :=
    addLog (if decide (0 < length (w_db w)) then "Resuming workflow..."
            else "Starting new durable workflow session...") system w in
  let '(_, w, r) := run wf scheds (newContext wid (w_db w)) w in
  (w, r).

Definition WORKFLOW_ID : string := "onboarding-wf-001".

(** The employee onboarding workflow of [App]. *)
Definition onboarding : Workflow :=
  AwaitStep "Create Employee Record"
    (Resolves (JObject [("empId", JString "E101"); ("name", JString "Alice Smith")]))
    (fun _ =>
  Say "Starting parallel provisioning..." info (
  AwaitParallel
    [("Provision Laptop", Resolves (JString "MacBook Pro M3 Pro"));
     ("Configure Access",
      Resolves (JArray [JString "Slack"; JString "GitHub"; JString "Jira"]))]
    (fun _ =>
  AwaitStep "Send Welcome Email" (Resolves (JString "sent")) (fun _ => Finish)))).

Definition empty_world : World := mkWorld [] [] false 0 [].

Definition in_order (k : nat) : Schedule :=
  flat_map (fun i => [(i, idle); (i, idle)]) (seq 0 k).

(** ** The views of [App] *)

(** [db.sort((a, b) => a.sequence - b.sequence)] of the table view.  The
    sort of the language is stable, so its result is determined: each
    record, from the last to the first, is put before the first record whose
    sequence number is not below its own. *)
Fixpoint insert_by_sequence (x : StepRecord) (l : list StepRecord)
  : list StepRecord :=
  match l with
  | [] => [x]
  | y :: l' =>
      if decide (sequence x <= sequence y) then x :: y :: l'
      else y :: insert_by_sequence x l'
  end.

Definition sort_by_sequence (db : list StepRecord) : list StepRecord :=
  foldr insert_by_sequence [] db.

(** What happens to the array of the [db] state between two reads of it:
    an update through [handleStepUpdate], or a render, in which the table
    view sorts the array in place, so that the next update finds it
    sorted. *)
Inductive StoreOp :=
  | Upsert (record : StepRecord)
  | Render.

Definition store_op (db : list StepRecord) (op : StoreOp) : list StepRecord :=
  match op with
  | Upsert record => handleStepUpdate record db
  | Render => sort_by_sequence db
  end.

Definition store_ops (ops : list StoreOp) (db : list StepRecord)
  : list StepRecord :=
  foldl store_op db ops.

(** [getStep] of [WorkflowCanvas], and the status handed to a node:
    [getStep(id)?.status || StepStatus.PENDING]. *)
Definition getStep (db : list StepRecord) (id : string) : option StepRecord :=
  snd <$> list_find (fun r => stepId r = id) db.

Definition node_status (db : list StepRecord) (id : string) : StepStatus :=
  match getStep db id with
  | Some r => status r
  | None => PENDING
  end.

(** * Vocabulary of the properties *)

(** ** Step keys *)

(** Decimal digits, as [pretty] prints them. *)
Definition is_digit (c : ascii) : Prop := is_Some (Ascii.is_nat c).

Fixpoint all_digits (s : string) : Prop :=
  match s with
  | "" => True
  | String c s => is_digit c /\ all_digits s
  end.

(** ** The outcomes of a call of [step] *)

(** The context after one allocation, and the record a fresh call writes. *)
Definition bump (ctx : DurableContext) : DurableContext :=
  mkCtx (ctx_workflowId ctx) (S (sequenceCounter ctx)) (ctx_db ctx).

Definition fresh_record (id : string) (ctx : DurableContext) (now : N)
  : StepRecord :=
  mkStepRecord (ctx_workflowId ctx)
    (makeStepKey id (S (sequenceCounter ctx))) id (S (sequenceCounter ctx))
    RUNNING JNull None now.

(** The lookup of a call finds a COMPLETED record, or does not. *)
Definition memo_hit (ctx : DurableContext) (key : string) (r : StepRecord) : Prop :=
  find_existing ctx key = Some r /\ status r = COMPLETED.

Definition memo_miss (ctx : DurableContext) (key : string) : Prop :=
  forall r, find_existing ctx key = Some r -> status r <> COMPLETED.

(** The three ways the synchronous prefix of [step] can go. *)
Inductive begin_spec (id : string) (fn : Work) (ctx : DurableContext)
  (w : World) : DurableContext * World * StepPromise -> Prop :=
  | begin_cached r :
      memo_hit ctx (makeStepKey id (S (sequenceCounter ctx))) r ->
      begin_spec id fn ctx w
        (bump ctx,
         addLog ("Skipping Step [" +:+ id +:+ "] (Seq: "
                 +:+ pretty (S (sequenceCounter ctx))
                 +:+ ") - Loaded from cache.") success
           (emit (ECall id (S (sequenceCounter ctx))
                    (makeStepKey id (S (sequenceCounter ctx)))) w),
         Fulfilled (result r))
  | begin_interrupted :
      memo_miss ctx (makeStepKey id (S (sequenceCounter ctx))) ->
      w_isCrashed w = true ->
      begin_spec id fn ctx w
        (bump ctx,
         emit (EPoll true)
           (emit (ECall id (S (sequenceCounter ctx))
                    (makeStepKey id (S (sequenceCounter ctx)))) w),
         Rejected interrupted_error)
  | begin_started :
      memo_miss ctx (makeStepKey id (S (sequenceCounter ctx))) ->
      w_isCrashed w = false ->
      begin_spec id fn ctx w
        (bump ctx,
         onStepUpdate (fresh_record id ctx (w_now w))
           (addLog ("Executing Step [" +:+ id +:+ "] (Seq: "
                    +:+ pretty (S (sequenceCounter ctx)) +:+ ")...") info
              (emit (EPoll false)
                 (emit (ECall id (S (sequenceCounter ctx))
                          (makeStepKey id (S (sequenceCounter ctx)))) w))),
         Sleeping (fresh_record id ctx (w_now w)) fn).

(** The records written when the work settled. *)
Definition completed_record (rr : StepRecord) (v : JsValue) (now : N)
  : StepRecord :=
  mkStepRecord (workflowId rr) (stepKey rr) (stepId rr) (sequence rr)
    COMPLETED v (error rr) now.

Definition recorded_message (e : Thrown) : string := message_or_unknown e.

Definition failed_record (rr : StepRecord) (e : Thrown) (now : N)
  : StepRecord :=
  mkStepRecord (workflowId rr) (stepKey rr) (stepId rr) (sequence rr)
    FAILED (result rr) (Some (recorded_message e)) now.

(** ** Invariants of a pass *)

(** The statuses the engine writes; [t0] and [db0] are the trace and the
    store the pass started from. *)
Definition written_status_ok (r : StepRecord) : Prop :=
  status r = RUNNING \/ status r = COMPLETED \/ status r = FAILED.

Definition no_pending (t0 : list Event) (db0 : list StepRecord) (w : World)
  : Prop :=
  (forall r, EUpdate r ∈ w_trace w -> EUpdate r ∈ t0 \/ written_status_ok r)
  /\ (forall r, r ∈ w_db w -> r ∈ db0 \/ written_status_ok r).

(** The calls of [step] recorded in a trace, oldest first: label, sequence
    number, step key. *)
Definition calls_of (t : list Event) : list (string * nat * string) :=
  omap (fun e => match e with
                 | ECall id n key => Some (id, n, key)
                 | _ => None
                 end) t.

(** The step keys whose work was invoked, and the records written. *)
Definition invocations_of (t : list Event) : list string :=
  omap (fun e => match e with EInvoke key => Some key | _ => None end) t.

Definition updates_of (t : list Event) : list StepRecord :=
  omap (fun e => match e with EUpdate rec => Some rec | _ => None end) t.

(** What the polls of the interruption callback returned. *)
Definition polls_of (t : list Event) : list bool :=
  omap (fun e => match e with EPoll b => Some b | _ => None end) t.

(** What the calls of a pass look like when the labels are [ids]: the
    i-th call (counting from 1) has sequence number i. *)
Definition numbered (ids : list string) : list (string * nat * string) :=
  imap (fun i id => (id, S i, makeStepKey id (S i))) ids.

(** The events that concern the step with a given key: an invocation of its
    work, or a write of its record. *)
Definition touches (key : string) (e : Event) : Prop :=
  match e with
  | EInvoke k => k = key
  | EUpdate rec => stepKey rec = key
  | _ => False
  end.

(** Consecutive passes of one workflow id: each is [runWorkflow] on the
    world the previous one left. *)
Fixpoint replay (wid : string) (passes : list (Workflow * list Schedule))
  (w : World) : World :=
  match passes with
  | [] => w
  | (wf, scheds) :: passes => replay wid passes (runWorkflow wid wf scheds w).1
  end.

(** The record [r] is in the store, the store has one record per key, and
    nothing added to the trace since [t0] concerns the step of [r]. *)
Definition kept (r : StepRecord) (t0 : list Event) (w : World) : Prop :=
  NoDup (stepKey <$> w_db w) /\ r ∈ w_db w
  /\ forall e, e ∈ w_trace w -> e ∈ t0 \/ ~ touches (stepKey r) e.

Definition kept_inv (r : StepRecord) (t0 : list Event)
  (ctx : DurableContext) (w : World) : Prop :=
  (ctx_workflowId ctx = workflowId r
   /\ NoDup (stepKey <$> ctx_db ctx) /\ r ∈ ctx_db ctx)
  /\ kept r t0 w.

Definition other_step (r : StepRecord) (p : StepPromise) : Prop :=
  match p with
  | Sleeping rr _ | Working rr _ => stepKey rr <> stepKey r
  | _ => True
  end.

(** ** Sample stores and workflows *)

Definition employee_record : StepRecord :=
  mkStepRecord WORKFLOW_ID "Create Employee Record_seq_1"
    "Create Employee Record" 1 COMPLETED
    (JObject [("empId", JString "E101"); ("name", JString "Alice Smith")])
    None 0.

Definition resumed_world : World := mkWorld [employee_record] [] false 0 [].

(** Membership in an explicit list. *)
Ltac in_list :=
  repeat first [apply list_elem_of_here | apply list_elem_of_further].

(** [await ctx.step(id, fn)] when the rest of the browser does [a1] during
    the delay and [a2] while the work is pending. *)
Definition await_one (id : string) (fn : Work) (a1 a2 : EnvAct)
  (ctx : DurableContext) (w : World) : DurableContext * World * StepPromise :=
  let '(ctx, w, p) := step_begin id fn ctx w in
  let '(w, p) := await_step p [(0, a1); (0, a2)] w in
  (ctx, w, p).

Definition call_event (id : string) (ctx : DurableContext) : Event :=
  ECall id (S (sequenceCounter ctx)) (makeStepKey id (S (sequenceCounter ctx))).

(** The turn the rest of the browser gets at an [await] on a promise that
    is settled already. *)
Definition yield (sched : Schedule) (w : World) : World :=
  match sched with
  | [] => w
  | (_, a) :: _ => env_apply a w
  end.

Definition settled (p : StepPromise) : Prop :=
  match p with
  | Fulfilled _ | Rejected _ => True
  | _ => False
  end.

(** Events that neither invoke work nor write a terminal record. *)
Definition quiet (e : Event) : Prop :=
  match e with
  | EInvoke _ => False
  | EUpdate rec => status rec = RUNNING
  | _ => True
  end.

(** A workflow of one step, and stores an earlier pass of it may leave. *)
Definition charge : Workflow :=
  AwaitStep "Charge" (Resolves (JString "ok")) (fun _ => Finish).

Definition zombie_record : StepRecord :=
  mkStepRecord "wf-1" "Charge_seq_1" "Charge" 1 RUNNING JNull None 0.

Definition zombie_world : World := mkWorld [zombie_record] [] false 0 [].





(** The key of a record is the template literal of its label and
    sequence number. *)
Definition key_shape (rec : StepRecord) : Prop :=
  stepKey rec = stepId rec +:+ "_seq_" +:+ pretty (sequence rec).

Definition keys_shaped (t0 : list Event) (w : World) : Prop :=
  forall rec, EUpdate rec ∈ w_trace w -> EUpdate rec ∈ t0 \/ key_shape rec.

Definition shaped_promise (p : StepPromise) : Prop :=
  match p with
  | Sleeping rr _ | Working rr _ => key_shape rr
  | _ => True
  end.

(** What the promise of the [i]-th call of a group may be, when the group
    was begun with the counter at [c]: suspended on the work of that call,
    rejected, or fulfilled with the value of that work or with the result
    stored for the key of that call. *)
Definition branch_ok (ctx : DurableContext) (c i : nat) (call : string * Work)
  (p : StepPromise) : Prop :=
  match p with
  | Fulfilled v =>
      call.2 = Resolves v
      \/ exists r, memo_hit ctx (makeStepKey call.1 (S (c + i))) r /\ v = result r
  | Rejected _ => True
  | Sleeping _ fn | Working _ fn => fn = call.2
  end.

Definition branches_ok (ctx : DurableContext) (c : nat)
  (calls : list (string * Work)) (ps : list StepPromise) : Prop :=
  length ps = length calls
  /\ forall i call p, calls !! i = Some call -> ps !! i = Some p ->
       branch_ok ctx c i call p.

(** The number of resumptions a promise still needs before it settles. *)
Definition steps_left (p : StepPromise) : nat :=
  match p with
  | Sleeping _ _ => 2
  | Working _ _ => 1
  | _ => 0
  end.

(** How often a schedule resumes the [i]-th promise. *)
Definition visits (i : nat) (sched : Schedule) : nat :=
  length (filter (fun ev => ev.1 = i) sched).

(** The parallel group of the onboarding workflow. *)
Definition provisioning : list (string * Work) :=
  [("Provision Laptop", Resolves (JString "MacBook Pro M3 Pro"));
   ("Configure Access",
    Resolves (JArray [JString "Slack"; JString "GitHub"; JString "Jira"]))].

(** ** Records as the engine writes them *)

(** A record written by a context of workflow [wid]: it carries that
    workflow id; its step key is the template literal of its own label and
    sequence number, which is at least 1; RUNNING has neither result nor
    error, COMPLETED has no error, FAILED has no result and a non-empty
    error. *)
Definition record_wf (wid : string) (rec : StepRecord) : Prop :=
  workflowId rec = wid
  /\ stepKey rec = stepId rec +:+ "_seq_" +:+ pretty (sequence rec)
  /\ 0 < sequence rec
  /\ match status rec with
     | PENDING => False
     | RUNNING => result rec = JNull /\ error rec = None
     | COMPLETED => error rec = None
     | FAILED => result rec = JNull /\ exists m, error rec = Some m /\ m <> ""
     end.

Definition records_wf (wid : string) (t0 : list Event) (db0 : list StepRecord)
  (w : World) : Prop :=
  (forall rec, EUpdate rec ∈ w_trace w -> EUpdate rec ∈ t0 \/ record_wf wid rec)
  /\ (forall rec, rec ∈ w_db w -> rec ∈ db0 \/ record_wf wid rec).

Definition running_promise (wid : string) (p : StepPromise) : Prop :=
  match p with
  | Sleeping rr _ | Working rr _ =>
      workflowId rr = wid
      /\ stepKey rr = stepId rr +:+ "_seq_" +:+ pretty (sequence rr)
      /\ 0 < sequence rr
      /\ result rr = JNull /\ error rr = None
  | _ => True
  end.

Definition logs_bounded (w : World) : Prop :=
  1 <= length (w_logs w) <= 50.

(** ** Replaying a pass *)

(** The value [v] is stored in [db] for the workflow [wid] under [key]. *)
Definition served (wid : string) (db : list StepRecord) (key : string)
  (v : JsValue) : Prop :=
  exists rec, rec ∈ db /\ workflowId rec = wid /\ stepKey rec = key
              /\ status rec = COMPLETED /\ result rec = v.

(** The COMPLETED records of the workflow that the array of the context
    holds are in the store. *)
Definition snapshot_kept (ctx : DurableContext) (w : World) : Prop :=
  forall r, r ∈ ctx_db ctx -> workflowId r = ctx_workflowId ctx ->
            status r = COMPLETED -> r ∈ w_db w.

(** What the engine did besides allocating: its polls, writes and
    invocations. *)
Definition effects_of (t : list Event) : list Event :=
  omap (fun e => match e with ECall _ _ _ => None | _ => Some e end) t.

(** From [w] to [w'] the store did not change and the engine neither
    polled, wrote nor invoked. *)
Definition silent (w w' : World) : Prop :=
  w_db w' = w_db w /\ effects_of (w_trace w') = effects_of (w_trace w).

(** A record written by a call made before the counter reached its
    present value stays in the store. *)
Definition earlier_kept (rec : StepRecord) (n : nat) (ctx : DurableContext)
  (w : World) : Prop :=
  n <= sequenceCounter ctx /\ NoDup (stepKey <$> w_db w) /\ rec ∈ w_db w.

(** The state of the [i]-th branch of a group begun with the counter at
    [c]: fulfilled with a value that is stored under its key, or suspended
    on a record of its key that the array of the context did not serve. *)
Definition branch_served (ctx : DurableContext) (c i : nat)
  (call : string * Work) (db : list StepRecord) (p : StepPromise) : Prop :=
  match p with
  | Fulfilled v =>
      served (ctx_workflowId ctx) db (makeStepKey call.1 (S (c + i))) v
  | Rejected _ => True
  | Sleeping rr _ | Working rr _ =>
      stepKey rr = makeStepKey call.1 (S (c + i))
      /\ workflowId rr = ctx_workflowId ctx
      /\ memo_miss ctx (stepKey rr)
  end.

Definition group_served (ctx : DurableContext) (c : nat)
  (calls : list (string * Work)) (ps : list StepPromise) (w : World) : Prop :=
  NoDup (stepKey <$> w_db w)
  /\ snapshot_kept ctx w
  /\ length ps = length calls
  /\ forall i call p, calls !! i = Some call -> ps !! i = Some p ->
       branch_served ctx c i call (w_db w) p.

(** From [w] to [w'] the store did not change, no work was invoked and no
    record was written. *)
Definition nothing_done (w w' : World) : Prop :=
  w_db w' = w_db w
  /\ invocations_of (w_trace w') = invocations_of (w_trace w)
  /\ updates_of (w_trace w') = updates_of (w_trace w).

(** A promise that is fulfilled, or rejected with the interruption. *)
Definition served_or_interrupted (p : StepPromise) : Prop :=
  p = Rejected interrupted_error \/ exists v, p = Fulfilled v.

(** The schedules under which the onboarding workflow runs to its end. *)
Definition onboarding_run : list Schedule := [in_order 1; in_order 2; in_order 1].

(** ** Progress and invocations of a pass *)

(** Every [await] of the workflow finds a schedule that resumes what it
    awaits twice: once for the timer of the delay, once for the work. *)
Fixpoint fairly_scheduled (wf : Workflow) (scheds : list Schedule) : Prop :=
  match wf with
  | Finish => True
  | Say _ _ k => fairly_scheduled k scheds
  | AwaitStep _ _ k =>
      2 <= length (hd [] scheds)
      /\ forall v, fairly_scheduled (k v) (tl scheds)
  | AwaitParallel calls k =>
      (forall i, i < length calls -> 2 <= visits i (hd [] scheds))
      /\ forall vs, fairly_scheduled (k vs) (tl scheds)
  end.

(** The invocations of a pass that began with the counter at [c0]: no key
    twice, and every key carries a sequence number the pass allocated. *)
Definition invoked_in (c0 : nat) (ctx : DurableContext) (w : World) : Prop :=
  c0 <= sequenceCounter ctx
  /\ NoDup (invocations_of (w_trace w))
  /\ forall key, key ∈ invocations_of (w_trace w) ->
       exists id n, key = makeStepKey id n /\ c0 < n <= sequenceCounter ctx.

(** A branch of a group that is still at its delay has the key of its
    call, and its work has not been invoked. *)
Definition branch_fresh (c i : nat) (call : string * Work) (w : World)
  (p : StepPromise) : Prop :=
  match p with
  | Sleeping rr _ =>
      stepKey rr = makeStepKey call.1 (S (c + i))
      /\ stepKey rr ∉ invocations_of (w_trace w)
  | _ => True
  end.

Definition group_fresh (c : nat) (calls : list (string * Work))
  (ps : list StepPromise) (w : World) : Prop :=
  length ps = length calls
  /\ forall i call p, calls !! i = Some call -> ps !! i = Some p ->
       branch_fresh c i call w p.

(** ** Groups that fulfil *)

(** The value the [i]-th call of a group begun with the counter at [c]
    gives when nothing interrupts it: the stored result when the store
    serves its key, the value its work resolves with otherwise. *)
Definition branch_value (ctx : DurableContext) (c i : nat)
  (call : string * Work) (v : JsValue) : Prop :=
  (exists r, memo_hit ctx (makeStepKey call.1 (S (c + i))) r /\ v = result r)
  \/ (memo_miss ctx (makeStepKey call.1 (S (c + i))) /\ call.2 = Resolves v).

(** A promise that is fulfilled with [v], or suspended on work that
    resolves with [v]. *)
Definition going (v : JsValue) (p : StepPromise) : Prop :=
  match p with
  | Fulfilled v' => v' = v
  | Rejected _ => False
  | Sleeping _ fn | Working _ fn => fn = Resolves v
  end.

(** The rest of the browser never asserts the signal. *)
Definition calm (sched : Schedule) : Prop :=
  Forall (fun ev => set_crashed ev.2 <> Some true) sched.

(** ** The calls a pass makes *)

(** The calls of a pass that goes on from a counter at [c] when their
    labels are [ids]. *)
Definition numbered_from (c : nat) (ids : list string)
  : list (string * nat * string) :=
  imap (fun i id => (id, S (c + i), makeStepKey id (S (c + i)))) ids.

(** The labels of the calls of [step] that the workflow code makes in a
    pass, in the order it makes them, read off the code: where it reaches
    [await ctx.step(id, ..)] it calls with [id]; where it reaches a group it
    makes the calls of the array, in the order of the array; and it goes on
    after an [await] only when what it awaited fulfilled. *)
Fixpoint labels_reached (wf : Workflow) (scheds : list Schedule)
  (ctx : DurableContext) (w : World) : list string :=
  match wf with
  | Finish => []
  | Say msg ty k => labels_reached k scheds ctx (addLog msg ty w)
  | AwaitStep id fn k =>
      let '(ctx, w, p) := step_begin id fn ctx w in
      let '(w, p) := await_step p (hd [] scheds) w in
      id :: match p with
            | Fulfilled v => labels_reached (k v) (tl scheds) ctx w
            | _ => []
            end
  | AwaitParallel calls k =>
      let '(ctx, w, ps) := begin_all calls ctx w in
      let '(w, ps, rest, st) := await_all ps (hd [] scheds) w in
      (fst <$> calls) ++ match st with
                         | AllFulfilled vs =>
                             labels_reached (k vs) (tl scheds) ctx w
                         | _ => []
                         end
  end.

Definition pass_labels (wid : string) (wf : Workflow) (scheds : list Schedule)
  (w : World) : list string :=
  let w :=
    addLog (if decide (0 < length (w_db w)) then "Resuming workflow..."
            else "Starting new durable workflow session...") system w in
  labels_reached wf scheds (newContext wid (w_db w)) w.

(** [for (..) await ctx.step(label, fn)], with [n] turns of the loop. *)
Fixpoint repeat_step (label : string) (fn : Work) (n : nat) : Workflow :=
  match n with
  | 0 => Finish
  | S n => AwaitStep label fn (fun _ => repeat_step label fn n)
  end.

(** The label, the sequence number and the step key a record carries. *)
Definition call_of_record (rec : StepRecord) : string * nat * string :=
  (stepId rec, sequence rec, stepKey rec).

(** Since the trace [t0], the calls made are [l], and every record
    written carries the label, the number and the key of one of them. *)
Definition written_by (t0 : list Event) (l : list (string * nat * string))
  (w : World) : Prop :=
  calls_of (w_trace w) = calls_of t0 ++ l
  /\ forall rec, EUpdate rec ∈ w_trace w ->
       EUpdate rec ∈ t0 \/ call_of_record rec ∈ l.

Definition written_by_calls (t0 : list Event) (w : World) : Prop :=
  exists l, written_by t0 l w.

(** The record of a suspended call carries the label, the number and the
    key of a call made since [t0]. *)
Definition pending_call (t0 : list Event) (w : World) (p : StepPromise)
  : Prop :=
  match p with
  | Sleeping rr _ | Working rr _ =>
      exists l, calls_of (w_trace w) = calls_of t0 ++ l
                /\ call_of_record rr ∈ l
  | _ => True
  end.

(** ** The store between updates *)

(** The updates among the operations, and the store they alone give. *)
Definition upserts (ops : list StoreOp) : list StepRecord :=
  omap (fun op => match op with Upsert r => Some r | Render => None end) ops.

Definition update_all (recs : list StepRecord) (db : list StepRecord)
  : list StepRecord :=
  foldl (fun db r => handleStepUpdate r db) db recs.

(** The records handed to [onStepUpdate] between [w] and [w']. *)
Definition new_updates (w w' : World) : list StepRecord :=
  drop (length (updates_of (w_trace w))) (updates_of (w_trace w')).

(** A render after every update. *)
Definition render_after_each (recs : list StepRecord) : list StoreOp :=
  flat_map (fun r => [Upsert r; Render]) recs.

(** The store is what the updates made since [t0] give on [db0]. *)
Definition folded (t0 : list Event) (db0 : list StepRecord) (w : World)
  : Prop :=
  exists l, updates_of (w_trace w) = updates_of t0 ++ l
            /\ w_db w = update_all l db0.

(** A store that is not in the order of the sequence numbers. *)
Definition shipping_world : World :=
  mkWorld [mkStepRecord "wf-1" "Ship_seq_2" "Ship" 2 RUNNING JNull None 0]
          [] false 0 [].

(** * Properties *)

(** ** The store *)

Lemma handleStepUpdate_nil record : handleStepUpdate record [] = [record].
Proof. reflexivity. Qed.

Lemma handleStepUpdate_cons record r db :
  handleStepUpdate record (r :: db) =
  if decide (stepKey r = stepKey record) then record :: db
  else r :: handleStepUpdate record db.
Proof.
  unfold handleStepUpdate. cbn [list_find].
  destruct (decide (stepKey r = stepKey record)) as [|]; [reflexivity|].
  destruct (list_find _ db) as [[idx x]|]; reflexivity.
Qed.

Lemma handleStepUpdate_keys record db :
  stepKey record ∈ (stepKey <$> db) ->
  stepKey <$> handleStepUpdate record db = stepKey <$> db.
Proof.
  induction db as [|r db IH]; intros Hin.
  - inversion Hin.
  - rewrite handleStepUpdate_cons. destruct (decide _) as [He|Hne]; cbn.
    + by rewrite He.
    + f_equal. apply IH. cbn in Hin. apply elem_of_cons in Hin as [Heq|]; [|done].
      by destruct Hne.
Qed.

Lemma handleStepUpdate_keys_new record db :
  stepKey record ∉ (stepKey <$> db) ->
  handleStepUpdate record db = db ++ [record].
Proof.
  induction db as [|r db IH]; intros Hin; [reflexivity|].
  rewrite handleStepUpdate_cons. cbn in Hin. rewrite not_elem_of_cons in Hin.
  destruct Hin as [Hne Hin]. destruct (decide _) as [He|_]; [by destruct Hne|].
  cbn. f_equal. by apply IH.
Qed.

Lemma handleStepUpdate_NoDup record db :
  NoDup (stepKey <$> db) -> NoDup (stepKey <$> handleStepUpdate record db).
Proof.
  intros Hnd. destruct (decide (stepKey record ∈ (stepKey <$> db))) as [Hin|Hin].
  - by rewrite handleStepUpdate_keys.
  - rewrite handleStepUpdate_keys_new by done. rewrite fmap_app. cbn.
    apply NoDup_app. split_and!; [done| |apply NoDup_singleton].
    intros k Hk Hk'. apply list_elem_of_singleton in Hk'. by subst.
Qed.

Lemma handleStepUpdate_elem record db : record ∈ handleStepUpdate record db.
Proof.
  induction db as [|r db IH]; [apply list_elem_of_here|].
  rewrite handleStepUpdate_cons. destruct (decide _).
  - apply list_elem_of_here.
  - by apply list_elem_of_further.
Qed.

Lemma handleStepUpdate_other record r db :
  stepKey r <> stepKey record -> r ∈ db -> r ∈ handleStepUpdate record db.
Proof.
  intros Hne. induction db as [|x db IH]; intros Hin; [inversion Hin|].
  rewrite handleStepUpdate_cons. apply elem_of_cons in Hin as [->|Hin].
  - destruct (decide _); [done|apply list_elem_of_here].
  - destruct (decide _); apply list_elem_of_further; auto.
Qed.

Lemma handleStepUpdate_inv record r db :
  r ∈ handleStepUpdate record db -> r = record \/ r ∈ db.
Proof.
  induction db as [|x db IH]; cbn.
  - intros ->%list_elem_of_singleton. by left.
  - rewrite handleStepUpdate_cons. destruct (decide _).
    + intros [->|?]%elem_of_cons; [by left|right; by apply list_elem_of_further].
    + intros [->|?]%elem_of_cons; [right; apply list_elem_of_here|].
      destruct IH as [|]; [done|by left|right; by apply list_elem_of_further].
Qed.

(** With one record per [stepKey], [find] returns the record of the key
    whatever the order of the array. *)
Lemma find_existing_elem wid c db r :
  NoDup (stepKey <$> db) -> r ∈ db -> workflowId r = wid ->
  find_existing (mkCtx wid c db) (stepKey r) = Some r.
Proof.
  unfold find_existing. cbn. intros Hnd Hin Hwid.
  induction db as [|x db IH]; [inversion Hin|].
  cbn [list_find]. cbn in Hnd. apply NoDup_cons in Hnd as [Hx Hnd].
  apply elem_of_cons in Hin as [->|Hin].
  - by rewrite decide_True.
  - rewrite decide_False.
    + specialize (IH Hnd Hin). destruct (list_find _ db) as [[i y]|]; by simplify_eq/=.
    + intros [_ Hk]. apply Hx. rewrite Hk. by apply list_elem_of_fmap_2.
Qed.

Lemma find_existing_Some ctx key r :
  find_existing ctx key = Some r ->
  r ∈ ctx_db ctx /\ workflowId r = ctx_workflowId ctx /\ stepKey r = key.
Proof.
  unfold find_existing. destruct (list_find _ _) as [[i x]|] eqn:Hf; [|done].
  intros [= ->]. apply list_find_Some in Hf as (Hl & [? ?] & _).
  split_and!; [|done..]. by eapply list_elem_of_lookup_2.
Qed.

(** ** The step key *)

Lemma pretty_N_go_digits (x : N) (s : string) :
  all_digits s -> all_digits (pretty_N_go x s).
Proof.
  revert s. induction (N.lt_wf_0 x) as [x _ IH]; intros s Hs.
  destruct (decide (x = 0)%N) as [->|Hx].
  - by rewrite pretty_N_go_0.
  - rewrite pretty_N_go_step by lia. apply IH.
    + apply N.div_lt; lia.
    + split; [|done]. unfold pretty_N_char.
      assert (x `mod` 10 < 10)%N as Hlt by (apply N.mod_lt; lia).
      repeat case_match; try (by eexists); lia.
Qed.

Lemma pretty_nat_digits (n : nat) : all_digits (pretty n).
Proof.
  unfold pretty, pretty_nat, pretty, pretty_N. case_decide.
  - split; [by eexists|done].
  - by apply pretty_N_go_digits.
Qed.

Lemma string_app_nil (t : string) : "" +:+ t = t.
Proof. reflexivity. Qed.

Lemma string_app_cons (c : ascii) (s t : string) :
  String c s +:+ t = String c (s +:+ t).
Proof. reflexivity. Qed.

Lemma string_app_assoc (a b c : string) : (a +:+ b) +:+ c = a +:+ b +:+ c.
Proof.
  induction a as [|x a IH]; [done|]. rewrite !string_app_cons. by rewrite IH.
Qed.

Lemma string_length_app (a b : string) :
  String.length (a +:+ b) = String.length a + String.length b.
Proof.
  induction a as [|x a IH]; [done|]. rewrite string_app_cons. cbn. by rewrite IH.
Qed.

Lemma string_app_inv_tail (a b c : string) : a +:+ c = b +:+ c -> a = b.
Proof.
  intros H. assert (String.length a = String.length b) as Hlen.
  { apply (f_equal String.length) in H. rewrite !string_length_app in H. lia. }
  revert b H Hlen. induction a as [|x a IH]; intros [|y b]; try done.
  rewrite !string_app_cons. intros [= -> H] [= Hlen]. f_equal. by apply IH.
Qed.

(** A digit string after the last underscore determines where the
    underscore is. *)
Lemma split_at_last_underscore (s1 s2 d1 d2 : string) :
  all_digits d1 -> all_digits d2 ->
  s1 +:+ String "_"%char d1 = s2 +:+ String "_"%char d2 -> s1 = s2 /\ d1 = d2.
Proof.
  assert (Hno : forall s d, all_digits (s +:+ String "_"%char d) -> False).
  { intros s d. induction s as [|c s IH].
    - rewrite string_app_nil. intros [[n Hn] _]. discriminate Hn.
    - rewrite string_app_cons. intros [_ H]. auto. }
  intros Hd1 Hd2. revert s2.
  induction s1 as [|c s1 IH]; intros [|c2 s2];
    rewrite ?string_app_nil, ?string_app_cons.
  - by intros [= ->].
  - intros [= <- ->]. by destruct (Hno s2 d2).
  - intros [= -> <-]. by destruct (Hno s1 d1).
  - intros [= -> Heq]. destruct (IH _ Heq) as [-> ->]. done.
Qed.

(** [`${id}_seq_${sequence}`] determines both the label and the sequence
    number. *)
Lemma makeStepKey_inj id1 n1 id2 n2 :
  makeStepKey id1 n1 = makeStepKey id2 n2 -> id1 = id2 /\ n1 = n2.
Proof.
  unfold makeStepKey. intros H.
  change ("_seq_" +:+ pretty n1) with ("_seq" +:+ String "_"%char (pretty n1)) in H.
  change ("_seq_" +:+ pretty n2) with ("_seq" +:+ String "_"%char (pretty n2)) in H.
  rewrite <-!string_app_assoc in H.
  apply split_at_last_underscore in H as [Hid Hn]; [|apply pretty_nat_digits..].
  split; [by eapply string_app_inv_tail|by apply (inj pretty)].
Qed.

(** ** The three outcomes of the synchronous prefix of [step] *)

Lemma step_begin_spec id fn ctx w : begin_spec id fn ctx w (step_begin id fn ctx w).
Proof.
  unfold step_begin.
  change (find_existing _ ?k) with (find_existing ctx k).
  destruct (find_existing ctx _) as [r|] eqn:Hf.
  - destruct (decide (status r = COMPLETED)) as [Hc|Hc].
    + by apply begin_cached.
    + assert (memo_miss ctx (makeStepKey id (S (sequenceCounter ctx)))) as Hm.
      { intros r' Hr'. rewrite Hf in Hr'. by simplify_eq. }
      cbn. destruct (w_isCrashed w) eqn:Hcr.
      * by apply begin_interrupted.
      * by apply begin_started.
  - assert (memo_miss ctx (makeStepKey id (S (sequenceCounter ctx)))) as Hm.
    { intros r' Hr'. by rewrite Hf in Hr'. }
    cbn. destruct (w_isCrashed w) eqn:Hcr.
    + by apply begin_interrupted.
    + by apply begin_started.
Qed.

(** ** The continuations of [step], case by case *)

Lemma step_catch_interrupted rr e w :
  is_interruption e ->
  step_catch rr e w =
  (addLog ("Step [" +:+ stepId rr +:+ "] interrupted by system crash.")
     warning w, Rejected e).
Proof. intros H. unfold step_catch. by rewrite decide_True. Qed.

Lemma step_catch_failed rr e w :
  ~ is_interruption e ->
  step_catch rr e w =
  (addLog ("Step [" +:+ stepId rr +:+ "] failed: " +:+ message_text e) error_t
     (onStepUpdate (failed_record rr e (w_now w)) w), Rejected e).
Proof. intros H. unfold step_catch. by rewrite decide_False. Qed.

Lemma step_wake_crashed rr fn w :
  w_isCrashed w = true ->
  step_wake rr fn w =
  (addLog ("Step [" +:+ stepId rr +:+ "] interrupted by system crash.")
     warning (emit (EPoll true) w), Rejected interrupted_error).
Proof.
  intros H. unfold step_wake. cbn [emit w_isCrashed]. rewrite H.
  by rewrite step_catch_interrupted.
Qed.

Lemma step_wake_invokes rr fn w :
  w_isCrashed w = false ->
  step_wake rr fn w =
  (emit (EInvoke (stepKey rr)) (emit (EPoll false) w), Working rr fn).
Proof. intros H. unfold step_wake. cbn [emit w_isCrashed]. by rewrite H. Qed.

Lemma step_settle_resolved rr v w :
  step_settle rr (Resolves v) w =
  (addLog ("Step [" +:+ stepId rr +:+ "] finished successfully.") success
     (onStepUpdate (completed_record rr v (w_now w)) w), Fulfilled v).
Proof. reflexivity. Qed.

Lemma step_settle_rejected rr e w :
  step_settle rr (Rejects e) w = step_catch rr e w.
Proof. reflexivity. Qed.

Lemma step_settle_nullish rr undef w :
  step_settle rr (RejectsNullish undef) w = (w, Rejected (type_error undef)).
Proof. reflexivity. Qed.

(** ** Invariants of a pass *)

(** A property of the context and the world, together with a property of
    the promises in flight, that the primitive transitions of the engine
    preserve, is preserved by every workflow under every schedule. *)
Section PassInvariant.
Variable Inv : DurableContext -> World -> Prop.
Variable Live : StepPromise -> Prop.

Hypothesis Inv_log : forall msg ty ctx w, Inv ctx w -> Inv ctx (addLog msg ty w).
Hypothesis Inv_env : forall a ctx w, Inv ctx w -> Inv ctx (env_apply a w).
Hypothesis Inv_begin : forall id fn ctx w, Inv ctx w ->
  Inv (step_begin id fn ctx w).1.1 (step_begin id fn ctx w).1.2
  /\ Live (step_begin id fn ctx w).2.
Hypothesis Inv_advance : forall p ctx w, Inv ctx w -> Live p ->
  Inv ctx (advance p w).1 /\ Live (advance p w).2.

Lemma await_step_inv sched : forall p ctx w,
  Inv ctx w -> Live p ->
  Inv ctx (await_step p sched w).1 /\ Live (await_step p sched w).2.
Proof.
  induction sched as [|[i a] sched IH]; intros p ctx w Hw Hp; [done|].
  cbn [await_step]. pose proof (Inv_env a _ _ Hw) as Hw1.
  destruct (Inv_advance p ctx (env_apply a w) Hw1 Hp) as [Hw' Hp'].
  destruct p as [v|e|rr fn|rr fn]; try done.
  all: cbn [advance] in *;
       match goal with
       | |- context [let '(_, _) := ?x in _] =>
           destruct x as [w' p'] eqn:Hadv
       end;
       cbn [fst snd] in *; destruct p'; try done; by apply IH.
Qed.

Lemma resume_inv i ps ctx w :
  Inv ctx w -> Forall Live ps ->
  Inv ctx (resume i ps w).1 /\ Forall Live (resume i ps w).2.
Proof.
  intros Hw Hps. unfold resume. destruct (ps !! i) as [p|] eqn:Hi; [|done].
  assert (Live p) as Hp by (eapply Forall_lookup_1; eauto).
  destruct (Inv_advance p ctx w Hw Hp) as [Hw' Hp'].
  destruct (advance p w) as [w' p']. cbn in *. split; [done|].
  by apply Forall_insert.
Qed.

Lemma drain_inv sched : forall ps ctx w,
  Inv ctx w -> Forall Live ps ->
  Inv ctx (drain ps sched w).1 /\ Forall Live (drain ps sched w).2.
Proof.
  induction sched as [|[i a] sched IH]; intros ps ctx w Hw Hps; [done|].
  cbn [drain].
  destruct (resume_inv i ps ctx (env_apply a w) (Inv_env a _ _ Hw) Hps)
    as [Hw' Hps'].
  destruct (resume i ps (env_apply a w)) as [w' ps']. by apply IH.
Qed.

Lemma await_all_inv sched : forall ps ctx w,
  Inv ctx w -> Forall Live ps ->
  Inv ctx (await_all ps sched w).1.1.1
  /\ Forall Live (await_all ps sched w).1.1.2.
Proof.
  induction sched as [|[i a] sched IH]; intros ps ctx w Hw Hps; [done|].
  cbn [await_all]. pose proof (Inv_env a _ _ Hw) as Hw1.
  destruct (promise_all ps); [|done..].
  destruct (resume_inv i ps ctx (env_apply a w) Hw1 Hps) as [Hw' Hps'].
  destruct (resume i ps (env_apply a w)) as [w' ps']. cbn [fst snd] in *.
  destruct (promise_all ps'); [by apply IH|done..].
Qed.

Lemma begin_all_inv calls : forall ctx w,
  Inv ctx w ->
  Inv (begin_all calls ctx w).1.1 (begin_all calls ctx w).1.2
  /\ Forall Live (begin_all calls ctx w).2.
Proof.
  induction calls as [|[id fn] calls IH]; intros ctx w Hw; [by split|].
  cbn [begin_all]. destruct (Inv_begin id fn ctx w Hw) as [Hw1 Hp].
  destruct (step_begin id fn ctx w) as [[ctx1 w1] p]. cbn in Hw1, Hp.
  destruct (IH ctx1 w1 Hw1) as [Hw2 Hps].
  destruct (begin_all calls ctx1 w1) as [[ctx2 w2] ps]. cbn in *.
  split; [done|by constructor].
Qed.

Lemma run_inv wf : forall scheds ctx w,
  Inv ctx w -> Inv (run wf scheds ctx w).1.1 (run wf scheds ctx w).1.2.
Proof.
  induction wf as [|msg ty k IH|id fn k IH|calls k IH]; intros scheds ctx w Hw;
    cbn [run].
  - by apply Inv_log.
  - by apply IH, Inv_log.
  - destruct (Inv_begin id fn ctx w Hw) as [Hw1 Hp].
    destruct (step_begin id fn ctx w) as [[ctx1 w1] p]. cbn in Hw1, Hp.
    destruct (await_step_inv (hd [] scheds) p ctx1 w1 Hw1 Hp) as [Hw2 Hp2].
    destruct (await_step p (hd [] scheds) w1) as [w2 p2]. cbn in Hw2, Hp2.
    destruct p2 as [v|e| |]; [by apply IH| |done..].
    unfold pass_catch. destruct (decide _); cbn; [done|by apply Inv_log].
  - destruct (begin_all_inv calls ctx w Hw) as [Hw1 Hps].
    destruct (begin_all calls ctx w) as [[ctx1 w1] ps]. cbn in Hw1, Hps.
    destruct (await_all_inv (hd [] scheds) ps ctx1 w1 Hw1 Hps) as [Hw2 Hps2].
    destruct (await_all ps (hd [] scheds) w1) as [[[w2 ps2] rest] st].
    cbn in Hw2, Hps2. destruct st as [|vs|e]; [done|by apply IH|].
    assert (Inv ctx1 (pass_catch e w2).1) as Hw3.
    { unfold pass_catch. destruct (decide _); cbn; [done|by apply Inv_log]. }
    destruct (pass_catch e w2) as [w3 r]. cbn in Hw3.
    destruct (drain_inv rest ps2 ctx1 w3 Hw3 Hps2) as [Hw4 _].
    by destruct (drain ps2 rest w3) as [w4 ps4].
Qed.

Lemma runWorkflow_inv wid wf scheds w :
  Inv (newContext wid (w_db w)) w ->
  exists ctx, Inv ctx (runWorkflow wid wf scheds w).1.
Proof.
  intros Hw. unfold runWorkflow.
  set (w0 := addLog _ system w).
  assert (Inv (newContext wid (w_db w0)) w0) as Hw0 by by apply Inv_log.
  pose proof (run_inv wf scheds _ _ Hw0) as H.
  destruct (run wf scheds _ w0) as [[ctx1 w1] r]. by exists ctx1.
Qed.
End PassInvariant.

(** ** Every record the engine writes is RUNNING, COMPLETED or FAILED *)

Section NoPendingWrite.
Variable t0 : list Event.
Variable db0 : list StepRecord.

Lemma no_pending_log msg ty w : no_pending t0 db0 w -> no_pending t0 db0 (addLog msg ty w).
Proof. intros H. exact H. Qed.

Lemma no_pending_env a w : no_pending t0 db0 w -> no_pending t0 db0 (env_apply a w).
Proof. intros H. exact H. Qed.

Lemma no_pending_emit e w :
  match e with EUpdate _ => False | _ => True end ->
  no_pending t0 db0 w -> no_pending t0 db0 (emit e w).
Proof.
  intros He [Ht Hd]. split; [|done]. cbn. intros r [Hr|Hr]%elem_of_app; [auto|].
  apply list_elem_of_singleton in Hr. by subst.
Qed.

Lemma no_pending_update rec w :
  written_status_ok rec -> no_pending t0 db0 w -> no_pending t0 db0 (onStepUpdate rec w).
Proof.
  intros Hrec [Ht Hd]. split; cbn.
  - intros r [Hr|Hr]%elem_of_app; [auto|].
    apply list_elem_of_singleton in Hr. simplify_eq. by right.
  - intros r [->|Hr]%handleStepUpdate_inv; [by right|auto].
Qed.

Lemma no_pending_begin id fn ctx w :
  no_pending t0 db0 w -> no_pending t0 db0 (step_begin id fn ctx w).1.2.
Proof.
  intros Hw.
  destruct (step_begin_spec id fn ctx w) as [r Hr|Hm Hc|Hm Hc]; cbn [fst snd].
  - by apply no_pending_log, no_pending_emit.
  - by do 2 (apply no_pending_emit; [done|]).
  - apply no_pending_update; [by left|].
    apply no_pending_log. by do 2 (apply no_pending_emit; [done|]).
Qed.

Lemma no_pending_advance p w : no_pending t0 db0 w -> no_pending t0 db0 (advance p w).1.
Proof.
  intros Hw.
  destruct p as [v|e|rr fn|rr fn]; cbn [advance]; try done.
  - destruct (w_isCrashed w) eqn:Hc.
    + rewrite step_wake_crashed by done.
      by apply no_pending_log, no_pending_emit.
    + rewrite step_wake_invokes by done.
      by do 2 (apply no_pending_emit; [done|]).
  - destruct fn as [v|e|u].
    + rewrite step_settle_resolved.
      apply no_pending_log, no_pending_update; [|done]. right; by left.
    + rewrite step_settle_rejected.
      destruct (decide (is_interruption e)).
      * rewrite step_catch_interrupted by done. by apply no_pending_log.
      * rewrite step_catch_failed by done.
        apply no_pending_log, no_pending_update; [|done]. right; by right.
    + by rewrite step_settle_nullish.
Qed.
End NoPendingWrite.

(** C10. In a pass of any workflow under any schedule, every record the
    engine hands to [onStepUpdate] has status RUNNING, COMPLETED or FAILED
    (never PENDING), and so has every record the pass leaves in the store
    that was not there before: a step that has not begun is represented by
    the absence of a record. *)
Theorem engine_never_writes_pending :
  forall (wid : string) (wf : Workflow) (scheds : list Schedule) (w : World),
    let w' := (runWorkflow wid wf scheds w).1 in
    (forall r, EUpdate r ∈ w_trace w' ->
               EUpdate r ∈ w_trace w \/ written_status_ok r)
    /\ (forall r, r ∈ w_db w' -> r ∈ w_db w \/ written_status_ok r).
Proof.
  intros wid wf scheds w.
  destruct (runWorkflow_inv (fun _ => no_pending (w_trace w) (w_db w))
              (fun _ => True)) with (wid := wid) (wf := wf) (scheds := scheds)
              (w := w) as [ctx H].
  - intros. by apply no_pending_log.
  - intros. by apply no_pending_env.
  - intros. split; [|done]. by apply no_pending_begin.
  - intros. split; [|done]. by apply no_pending_advance.
  - split; auto.
  - exact H.
Qed.

(** ** Sequence numbers and step keys of a pass *)

Lemma numbered_snoc ids id :
  numbered (ids ++ [id]) =
  numbered ids ++ [(id, S (length ids), makeStepKey id (S (length ids)))].
Proof.
  unfold numbered. rewrite imap_app. cbn. by rewrite Nat.add_0_r.
Qed.

Lemma numbered_sequences ids :
  (fun c => c.1.2) <$> numbered ids = seq 1 (length ids).
Proof.
  induction ids as [|id ids IH] using rev_ind; [done|].
  rewrite numbered_snoc, fmap_app, IH, length_app, seq_app. cbn. done.
Qed.

Lemma numbered_keys_NoDup ids : NoDup ((fun c => c.2) <$> numbered ids).
Proof.
  apply NoDup_alt. intros i j key. unfold numbered.
  rewrite !list_lookup_fmap, !list_lookup_imap.
  destruct (ids !! i) as [a|]; [|done]. destruct (ids !! j) as [b|]; [|done].
  cbn. intros [= <-] [= H]. apply makeStepKey_inj in H. lia.
Qed.

Lemma calls_of_emit e w :
  calls_of (w_trace (emit e w)) =
  calls_of (w_trace w) ++
  match e with ECall id n key => [(id, n, key)] | _ => [] end.
Proof. unfold calls_of. cbn. rewrite omap_app. by destruct e. Qed.

Lemma step_begin_ctx id fn ctx w : (step_begin id fn ctx w).1.1 = bump ctx.
Proof. by destruct (step_begin_spec id fn ctx w). Qed.

(** A call of [step] allocates the successor of the counter; resuming a
    call allocates nothing. *)
Lemma step_begin_calls id fn ctx w :
  calls_of (w_trace (step_begin id fn ctx w).1.2) =
  calls_of (w_trace w) ++
  [(id, S (sequenceCounter ctx), makeStepKey id (S (sequenceCounter ctx)))].
Proof.
  destruct (step_begin_spec id fn ctx w); cbn [fst snd].
  - change (w_trace (addLog ?m ?t ?x)) with (w_trace x).
    by rewrite calls_of_emit.
  - rewrite !calls_of_emit. by rewrite app_nil_r.
  - change (w_trace (onStepUpdate ?r (addLog ?m ?t ?x)))
      with (w_trace (emit (EUpdate r) x)).
    rewrite !calls_of_emit. by rewrite !app_nil_r.
Qed.

Lemma advance_calls p w :
  calls_of (w_trace (advance p w).1) = calls_of (w_trace w).
Proof.
  destruct p as [v|e|rr fn|rr fn]; cbn [advance]; try done.
  - destruct (w_isCrashed w) eqn:Hcr.
    + rewrite step_wake_crashed by done. cbn [fst].
      change (w_trace (addLog ?m ?t ?x)) with (w_trace x).
      rewrite calls_of_emit. by rewrite app_nil_r.
    + rewrite step_wake_invokes by done. cbn [fst].
      rewrite !calls_of_emit. by rewrite !app_nil_r.
  - destruct fn as [v|e|u].
    + rewrite step_settle_resolved. cbn [fst].
      change (w_trace (addLog ?m ?t (onStepUpdate ?r ?x)))
        with (w_trace (emit (EUpdate r) x)).
      rewrite calls_of_emit. by rewrite app_nil_r.
    + rewrite step_settle_rejected.
      destruct (decide (is_interruption e)).
      * by rewrite step_catch_interrupted.
      * rewrite step_catch_failed by done. cbn [fst].
        change (w_trace (addLog ?m ?t (onStepUpdate ?r ?x)))
          with (w_trace (emit (EUpdate r) x)).
        rewrite calls_of_emit. by rewrite app_nil_r.
    + by rewrite step_settle_nullish.
Qed.

(** ** A COMPLETED record survives every later pass of its workflow *)

Section CompletedRecord.
Variable r : StepRecord.
Variable t0 : list Event.
Hypothesis r_completed : status r = COMPLETED.

Lemma kept_log msg ty w : kept r t0 w -> kept r t0 (addLog msg ty w).
Proof. intros H. exact H. Qed.

Lemma kept_env a w : kept r t0 w -> kept r t0 (env_apply a w).
Proof. intros H. exact H. Qed.

Lemma kept_emit e w : ~ touches (stepKey r) e -> kept r t0 w -> kept r t0 (emit e w).
Proof.
  intros He (Hnd & Hin & Ht). split_and!; [done..|]. cbn.
  intros e' [?|Hs%list_elem_of_singleton]%elem_of_app; [auto|subst; auto].
Qed.

Lemma kept_update rec w :
  stepKey rec <> stepKey r -> kept r t0 w -> kept r t0 (onStepUpdate rec w).
Proof.
  intros Hrec (Hnd & Hin & Ht). split_and!; cbn.
  - by apply handleStepUpdate_NoDup.
  - by apply handleStepUpdate_other.
  - intros e' [?|Hs%list_elem_of_singleton]%elem_of_app; [auto|subst; auto].
Qed.

(** The call whose key is the key of [r] finds [r]. *)
Lemma kept_lookup ctx :
  ctx_workflowId ctx = workflowId r ->
  NoDup (stepKey <$> ctx_db ctx) -> r ∈ ctx_db ctx ->
  find_existing ctx (stepKey r) = Some r.
Proof.
  destruct ctx as [wid c db]. cbn [ctx_workflowId ctx_db]. intros -> Hnd Hin.
  by apply find_existing_elem.
Qed.

Lemma kept_begin id fn ctx w :
  kept_inv r t0 ctx w ->
  kept_inv r t0 (step_begin id fn ctx w).1.1 (step_begin id fn ctx w).1.2
  /\ other_step r (step_begin id fn ctx w).2.
Proof.
  intros [(Hwid & Hnd & Hin) Hw].
  destruct (step_begin_spec id fn ctx w) as [r' Hr'|Hm Hc|Hm Hc]; cbn [fst snd].
  - split; [|done]. split; [done|]. by apply kept_log, kept_emit; [intros []|].
  - split; [|done]. split; [done|].
    by do 2 (apply kept_emit; [intros []|]).
  - assert (makeStepKey id (S (sequenceCounter ctx)) <> stepKey r) as Hne.
    { intros Hk. apply (Hm r); [|done]. rewrite Hk. by apply kept_lookup. }
    split; [|done]. split; [done|]. apply kept_update; [done|].
    apply kept_log. by do 2 (apply kept_emit; [intros []|]).
Qed.

Lemma kept_advance p ctx w :
  kept_inv r t0 ctx w -> other_step r p ->
  kept_inv r t0 ctx (advance p w).1 /\ other_step r (advance p w).2.
Proof.
  intros [Hctx Hw] Hp.
  destruct p as [v|e|rr fn|rr fn]; cbn [advance]; try done; cbn in Hp.
  - destruct (w_isCrashed w) eqn:Hc.
    + rewrite step_wake_crashed by done. split; [|done]. split; [done|].
      by apply kept_log, kept_emit; [intros []|].
    + rewrite step_wake_invokes by done. split; [|done]. split; [done|].
      apply kept_emit; [done|]. by apply kept_emit; [intros []|].
  - destruct fn as [v|e|u].
    + rewrite step_settle_resolved. split; [|done]. split; [done|].
      by apply kept_log, kept_update.
    + rewrite step_settle_rejected.
      destruct (decide (is_interruption e)).
      * rewrite step_catch_interrupted by done. by split.
      * rewrite step_catch_failed by done. split; [|done]. split; [done|].
        by apply kept_log, kept_update.
    + rewrite step_settle_nullish. by split.
Qed.

Lemma kept_runWorkflow wf scheds w :
  kept r t0 w -> kept r t0 (runWorkflow (workflowId r) wf scheds w).1.
Proof.
  intros Hw.
  destruct (runWorkflow_inv (kept_inv r t0) (other_step r))
    with (wid := workflowId r) (wf := wf) (scheds := scheds) (w := w)
    as [ctx [_ H]]; [| | | | |done].
  - intros msg ty ctx w0 [? ?]. by split.
  - intros a ctx w0 [? ?]. by split.
  - intros. by apply kept_begin.
  - intros. by apply kept_advance.
  - split; [|done]. split; [done|]. by destruct Hw as (? & ? & _).
Qed.

Lemma kept_replay passes : forall w,
  kept r t0 w -> kept r t0 (replay (workflowId r) passes w).
Proof.
  induction passes as [|[wf scheds] passes IH]; intros w Hw; [done|].
  cbn [replay]. by apply IH, kept_runWorkflow.
Qed.
End CompletedRecord.

(** C1. Let the store hold one record per step key, and let it contain a
    COMPLETED record [r] of the workflow whose key is the key computed by a
    call of [step].  Then the call returns the stored result of [r] at
    once: it allocates its sequence number and logs, but polls nothing,
    writes nothing and does not invoke its work.  Consequently, over any
    number of later passes of that workflow on this store, [r] stays in the
    store and every event added to the trace is something else than an
    invocation of the work of that step: the invocation that produced [r]
    remains the only one. *)
Theorem completed_step_is_replayed_from_store :
  forall (w : World) (r : StepRecord) (id : string) (fn : Work) (c : nat)
         (passes : list (Workflow * list Schedule)),
    NoDup (stepKey <$> w_db w) ->
    r ∈ w_db w ->
    status r = COMPLETED ->
    stepKey r = makeStepKey id (S c) ->
    (forall w1,
       step_begin id fn (mkCtx (workflowId r) c (w_db w)) w1 =
         (mkCtx (workflowId r) (S c) (w_db w),
          addLog ("Skipping Step [" +:+ id +:+ "] (Seq: " +:+ pretty (S c)
                  +:+ ") - Loaded from cache.") success
            (emit (ECall id (S c) (stepKey r)) w1),
          Fulfilled (result r)))
    /\ (let w' := replay (workflowId r) passes w in
        r ∈ w_db w'
        /\ forall e, e ∈ w_trace w' ->
                     e ∈ w_trace w \/ e <> EInvoke (stepKey r)).
Proof.
  intros w r id fn c passes Hnd Hin Hc Hkey. split.
  - intros w1.
    destruct (step_begin_spec id fn (mkCtx (workflowId r) c (w_db w)) w1)
      as [r' [Hf Hr']|Hm _|Hm _]; cbn [sequenceCounter] in *.
    + rewrite <-Hkey in *.
      rewrite (find_existing_elem _ _ _ r) in Hf by done. by simplify_eq.
    + destruct (Hm r); [|done]. rewrite <-Hkey. by apply find_existing_elem.
    + destruct (Hm r); [|done]. rewrite <-Hkey. by apply find_existing_elem.
  - destruct (kept_replay r (w_trace w) Hc passes w) as (_ & Hin' & Ht).
    { split_and!; auto. }
    split; [done|]. intros e He. destruct (Ht e He) as [|Hn]; [by left|right].
    intros ->. by apply Hn.
Qed.

Lemma completed_step_is_replayed_from_store_witness :
  (forall w1,
     step_begin "Create Employee Record" (Resolves JNull)
       (mkCtx WORKFLOW_ID 0 [employee_record]) w1 =
       (mkCtx WORKFLOW_ID 1 [employee_record],
        addLog "Skipping Step [Create Employee Record] (Seq: 1) - Loaded from cache."
          success
          (emit (ECall "Create Employee Record" 1 "Create Employee Record_seq_1")
             w1),
        Fulfilled (result employee_record)))
  /\ (let w' := replay WORKFLOW_ID
                  [(onboarding, [in_order 1; in_order 2; in_order 1]);
                   (onboarding, [])] resumed_world in
      employee_record ∈ w_db w'
      /\ forall e, e ∈ w_trace w' ->
           e ∈ w_trace resumed_world \/ e <> EInvoke (stepKey employee_record)).
Proof.
  apply (completed_step_is_replayed_from_store resumed_world employee_record
           "Create Employee Record" (Resolves JNull) 0).
  - apply NoDup_singleton.
  - apply list_elem_of_here.
  - reflexivity.
  - reflexivity.
Defined.

(** ** One awaited step, case by case *)

Lemma handleStepUpdate_twice r1 r2 db :
  stepKey r1 = stepKey r2 ->
  handleStepUpdate r2 (handleStepUpdate r1 db) = handleStepUpdate r2 db.
Proof.
  intros Hk. induction db as [|x db IH].
  - rewrite handleStepUpdate_nil, handleStepUpdate_cons. by rewrite decide_True.
  - rewrite !(handleStepUpdate_cons _ x). rewrite Hk.
    destruct (decide (stepKey x = stepKey r2)) as [Hx|Hx].
    + rewrite handleStepUpdate_cons. by rewrite decide_True.
    + rewrite handleStepUpdate_cons. rewrite decide_False by done. by rewrite IH.
Qed.



(** The outcome of an awaited step that is not served from the store. *)
Section AwaitOne.
Variables (id : string) (fn : Work) (a1 a2 : EnvAct).
Variables (ctx : DurableContext) (w : World).
Hypothesis miss : memo_miss ctx (makeStepKey id (S (sequenceCounter ctx))).

Let key := makeStepKey id (S (sequenceCounter ctx)).
Let rr := fresh_record id ctx (w_now w).
Let now2 := (w_now w + elapse a1 + elapse a2)%N.

Lemma step_begin_interrupted :
  w_isCrashed w = true ->
  step_begin id fn ctx w =
  (bump ctx, emit (EPoll true) (emit (call_event id ctx) w),
   Rejected interrupted_error).
Proof.
  intros Hc. destruct (step_begin_spec id fn ctx w) as [r [Hf Hr]| |]; try done.
  - by destruct (miss r).
  - congruence.
Qed.

Lemma step_begin_started :
  w_isCrashed w = false ->
  step_begin id fn ctx w =
  (bump ctx,
   onStepUpdate rr
     (addLog ("Executing Step [" +:+ id +:+ "] (Seq: "
              +:+ pretty (S (sequenceCounter ctx)) +:+ ")...") info
        (emit (EPoll false) (emit (call_event id ctx) w))),
   Sleeping rr fn).
Proof.
  intros Hc. destruct (step_begin_spec id fn ctx w) as [r [Hf Hr]| |]; try done.
  - by destruct (miss r).
  - congruence.
Qed.

Lemma await_one_interrupted_at_entry :
  w_isCrashed w = true ->
  exists w',
    await_one id fn a1 a2 ctx w = (bump ctx, w', Rejected interrupted_error)
    /\ w_db w' = w_db w
    /\ w_trace w' = w_trace w ++ [call_event id ctx; EPoll true].
Proof.
  intros Hc. unfold await_one. rewrite step_begin_interrupted by done.
  eexists. split; [reflexivity|]. split; [done|]. cbn.
  by rewrite <-(assoc_L (++)).
Qed.

Lemma await_one_interrupted_after_delay :
  w_isCrashed w = false -> w_isCrashed (env_apply a1 w) = true ->
  exists w',
    await_one id fn a1 a2 ctx w = (bump ctx, w', Rejected interrupted_error)
    /\ w_db w' = handleStepUpdate rr (w_db w)
    /\ w_trace w' =
       w_trace w ++ [call_event id ctx; EPoll false; EUpdate rr; EPoll true].
Proof.
  intros Hc Hc1. unfold await_one. rewrite step_begin_started by done.
  cbn [await_step advance]. rewrite step_wake_crashed by exact Hc1.
  eexists. split; [reflexivity|]. split; [done|]. cbn.
  by rewrite <-!(assoc_L (++)).
Qed.

Lemma await_one_resolved v :
  fn = Resolves v ->
  w_isCrashed w = false -> w_isCrashed (env_apply a1 w) = false ->
  exists w',
    await_one id fn a1 a2 ctx w = (bump ctx, w', Fulfilled v)
    /\ w_db w' = handleStepUpdate (completed_record rr v now2) (w_db w)
    /\ w_trace w' =
       w_trace w ++ [call_event id ctx; EPoll false; EUpdate rr; EPoll false;
                     EInvoke key; EUpdate (completed_record rr v now2)].
Proof.
  intros Hfn Hc Hc1. unfold await_one. rewrite step_begin_started by done.
  cbn [await_step advance]. rewrite step_wake_invokes by exact Hc1.
  cbn [await_step advance]. rewrite Hfn, step_settle_resolved.
  eexists. split; [reflexivity|]. split.
  - cbn. by rewrite handleStepUpdate_twice.
  - cbn. by rewrite <-!(assoc_L (++)).
Qed.

Lemma await_one_failed e :
  fn = Rejects e -> ~ is_interruption e ->
  w_isCrashed w = false -> w_isCrashed (env_apply a1 w) = false ->
  exists w',
    await_one id fn a1 a2 ctx w = (bump ctx, w', Rejected e)
    /\ w_db w' = handleStepUpdate (failed_record rr e now2) (w_db w)
    /\ w_trace w' =
       w_trace w ++ [call_event id ctx; EPoll false; EUpdate rr; EPoll false;
                     EInvoke key; EUpdate (failed_record rr e now2)].
Proof.
  intros Hfn He Hc Hc1. unfold await_one. rewrite step_begin_started by done.
  cbn [await_step advance]. rewrite step_wake_invokes by exact Hc1.
  cbn [await_step advance]. rewrite Hfn, step_settle_rejected.
  rewrite step_catch_failed by done.
  eexists. split; [reflexivity|]. split.
  - cbn. by rewrite handleStepUpdate_twice.
  - cbn. by rewrite <-!(assoc_L (++)).
Qed.

Lemma await_one_work_interrupted e :
  fn = Rejects e -> is_interruption e ->
  w_isCrashed w = false -> w_isCrashed (env_apply a1 w) = false ->
  exists w',
    await_one id fn a1 a2 ctx w = (bump ctx, w', Rejected e)
    /\ w_db w' = handleStepUpdate rr (w_db w)
    /\ w_trace w' =
       w_trace w ++ [call_event id ctx; EPoll false; EUpdate rr; EPoll false;
                     EInvoke key].
Proof.
  intros Hfn He Hc Hc1. unfold await_one. rewrite step_begin_started by done.
  cbn [await_step advance]. rewrite step_wake_invokes by exact Hc1.
  cbn [await_step advance]. rewrite Hfn, step_settle_rejected.
  rewrite step_catch_interrupted by done.
  eexists. split; [reflexivity|]. split; [done|]. cbn.
  by rewrite <-!(assoc_L (++)).
Qed.

Lemma await_one_nullish u :
  fn = RejectsNullish u ->
  w_isCrashed w = false -> w_isCrashed (env_apply a1 w) = false ->
  exists w',
    await_one id fn a1 a2 ctx w = (bump ctx, w', Rejected (type_error u))
    /\ w_db w' = handleStepUpdate rr (w_db w)
    /\ w_trace w' =
       w_trace w ++ [call_event id ctx; EPoll false; EUpdate rr; EPoll false;
                     EInvoke key].
Proof.
  intros Hfn Hc Hc1. unfold await_one. rewrite step_begin_started by done.
  cbn [await_step advance]. rewrite step_wake_invokes by exact Hc1.
  cbn [await_step advance]. rewrite Hfn, step_settle_nullish.
  eexists. split; [reflexivity|]. split; [done|]. cbn.
  by rewrite <-!(assoc_L (++)).
Qed.
End AwaitOne.

Lemma await_step_settled p sched w :
  settled p -> await_step p sched w = (yield sched w, p).
Proof. by destruct p, sched as [|[]]. Qed.

Lemma step_settle_settled rr fn w : settled (step_settle rr fn w).2.
Proof.
  destruct fn as [v|e|u]; [done| |done]. rewrite step_settle_rejected.
  unfold step_catch. by destruct (decide _).
Qed.

Lemma step_wake_progress rr fn w :
  (step_wake rr fn w).2 = Rejected interrupted_error
  \/ (step_wake rr fn w).2 = Working rr fn.
Proof.
  destruct (w_isCrashed w) eqn:Hc.
  - rewrite step_wake_crashed by done. by left.
  - rewrite step_wake_invokes by done. by right.
Qed.

(** Two resumptions settle a call; what the schedule holds beyond them,
    and the indices it names, do not matter to a single awaited step. *)
Lemma await_step_two p i a1 j a2 rest w :
  await_step p ((i, a1) :: (j, a2) :: rest) w = await_step p [(0, a1); (0, a2)] w.
Proof.
  destruct p as [v|e|rr fn|rr fn]; cbn [await_step advance]; try done.
  - destruct (step_wake_progress rr fn (env_apply a1 w)) as [Hs|Hw];
      destruct (step_wake rr fn (env_apply a1 w)) as [w1 p1]; cbn [snd] in *.
    + by subst p1.
    + subst p1. cbn [await_step advance].
      pose proof (step_settle_settled rr fn (env_apply a2 w1)) as Hs.
      destruct (step_settle rr fn (env_apply a2 w1)) as [w2 p2]. cbn [snd] in Hs.
      by destruct p2.
  - pose proof (step_settle_settled rr fn (env_apply a1 w)) as Hs.
    destruct (step_settle rr fn (env_apply a1 w)) as [w1 p1]. cbn [snd] in Hs.
    by destruct p1.
Qed.

(** [run] on an awaited step, in terms of [await_one]. *)
Lemma run_await_step id fn k i a1 j a2 rest scheds ctx w :
  run (AwaitStep id fn k) (((i, a1) :: (j, a2) :: rest) :: scheds) ctx w =
  let '(ctx', w', p) := await_one id fn a1 a2 ctx w in
  match p with
  | Fulfilled v => run (k v) scheds ctx' w'
  | Rejected e => let '(w'', r) := pass_catch e w' in (ctx', w'', r)
  | _ => (ctx', w', PassSuspended)
  end.
Proof.
  cbn [run hd tl]. unfold await_one.
  destruct (step_begin id fn ctx w) as [[ctx1 w1] p].
  rewrite await_step_two. by destruct (await_step p _ w1) as [w2 p2].
Qed.

Lemma pass_catch_interrupted w :
  pass_catch interrupted_error w = (w, PassInterrupted).
Proof. reflexivity. Qed.


(** C4 (as amended). A step that is not served from the store and finds
    the Interruption Signal asserted at a poll before its work starts (on
    entry, or after the delay) makes the pass end with the Interrupted
    outcome, not with a failure; nothing after the [await] runs, the work is
    not invoked and no COMPLETED or FAILED record is written.  On entry the
    store is left as it was; after the delay the record of the step is the
    RUNNING record written on entry. *)
Theorem interruption_before_work_aborts_the_pass :
  forall (id : string) (fn : Work) (k : JsValue -> Workflow)
         (ctx : DurableContext) (w : World)
         (i : nat) (a1 : EnvAct) (rest : Schedule) (scheds : list Schedule),
    memo_miss ctx (makeStepKey id (S (sequenceCounter ctx))) ->
    w_isCrashed w = true \/ w_isCrashed (env_apply a1 w) = true ->
    let rr := fresh_record id ctx (w_now w) in
    exists w',
      run (AwaitStep id fn k) (((i, a1) :: rest) :: scheds) ctx w =
        (bump ctx, w', PassInterrupted)
      /\ (w_isCrashed w = true ->
          w_db w' = w_db w
          /\ w_trace w' = w_trace w ++ [call_event id ctx; EPoll true])
      /\ (w_isCrashed w = false ->
          w_db w' = handleStepUpdate rr (w_db w)
          /\ w_trace w' =
             w_trace w ++ [call_event id ctx; EPoll false; EUpdate rr; EPoll true])
      /\ (forall e, e ∈ w_trace w' -> e ∈ w_trace w \/ quiet e).
Proof.
  intros id fn k ctx w i a1 rest scheds Hm Hsig rr.
  destruct (w_isCrashed w) eqn:Hc.
  - cbn [run hd tl]. rewrite step_begin_interrupted by done.
    rewrite await_step_settled by done. eexists.
    split; [reflexivity|]. cbn. rewrite <-(assoc_L (++)).
    split_and!; [done|done|].
    intros e [?|He]%elem_of_app; [by left|right].
    by repeat (apply elem_of_cons in He as [->|He]; [done|]); inversion He.
  - destruct Hsig as [?|Hc1]; [done|].
    cbn [run hd tl]. rewrite step_begin_started by done.
    cbn [await_step advance]. rewrite step_wake_crashed by exact Hc1.
    eexists.
    split; [reflexivity|]. cbn. rewrite <-!(assoc_L (++)).
    split_and!; [done|done|].
    intros e [?|He]%elem_of_app; [by left|right].
    by repeat (apply elem_of_cons in He as [->|He]; [done|]); inversion He.
Qed.

Lemma interruption_before_work_aborts_the_pass_witness :
  exists w',
    run charge [[(0, crash)]] (newContext "wf-1" []) empty_world =
      (mkCtx "wf-1" 1 [], w', PassInterrupted)
    /\ (status <$> w_db w') = [RUNNING].
Proof.
  destruct (interruption_before_work_aborts_the_pass "Charge"
              (Resolves (JString "ok")) (fun _ => Finish)
              (newContext "wf-1" []) empty_world 0 crash [] [])
    as (w' & Hrun & _ & Hdb & _).
  - intros r Hr. discriminate Hr.
  - right. reflexivity.
  - exists w'. split; [exact Hrun|].
    destruct (Hdb eq_refl) as [-> _]. reflexivity.
Defined.

(** C4, as stated, fails: the crash button is pressed during the delay of
    the first step, before its work starts.  The pass is interrupted, the
    work was not invoked, and the record of the step is in the store with
    status RUNNING: neither absent nor PENDING. *)
Lemma interrupted_step_record_is_running :
  let '(w', outcome) := runWorkflow "wf-1" charge [[(0, crash)]] empty_world in
  outcome = PassInterrupted
  /\ w_trace w' =
     [ECall "Charge" 1 "Charge_seq_1"; EPoll false;
      EUpdate (mkStepRecord "wf-1" "Charge_seq_1" "Charge" 1 RUNNING JNull None 0);
      EPoll true]
  /\ w_db w' = [mkStepRecord "wf-1" "Charge_seq_1" "Charge" 1 RUNNING JNull None 0].
Proof. vm_compute. done. Qed.

(** C5 (as amended). A step that is not served from the store polls the
    Interruption Signal on entry, before it writes the RUNNING record, and,
    when that poll found the signal clear, once more after the delay,
    immediately before it invokes the work: at most two polls.  There is no
    poll between the work and the commit: once the work was invoked the
    signal is not read again, and what the step then writes depends on how
    the work settled only, whatever the rest of the browser did meanwhile
    ([a2]): the COMPLETED record when it resolved; the FAILED record when it
    rejected with a value whose message reads as a string other than
    "WORKFLOW_INTERRUPTED" or as a falsy value that is not a string;
    nothing, the record staying RUNNING, when it rejected with the message
    "WORKFLOW_INTERRUPTED", or with [null] or [undefined], whose message
    cannot be read. *)
Theorem polls_of_a_step :
  forall (id : string) (fn : Work) (a1 a2 : EnvAct)
         (ctx : DurableContext) (w : World),
    memo_miss ctx (makeStepKey id (S (sequenceCounter ctx))) ->
    let key := makeStepKey id (S (sequenceCounter ctx)) in
    let rr := fresh_record id ctx (w_now w) in
    let now2 := (w_now w + elapse a1 + elapse a2)%N in
    let w' := (await_one id fn a1 a2 ctx w).1.2 in
    exists t,
      w_trace w' = w_trace w ++ call_event id ctx :: t
      /\ length (polls_of t) <= 2
      /\ (w_isCrashed w = true -> t = [EPoll true])
      /\ (w_isCrashed w = false -> w_isCrashed (env_apply a1 w) = true ->
          t = [EPoll false; EUpdate rr; EPoll true])
      /\ (w_isCrashed w = false -> w_isCrashed (env_apply a1 w) = false ->
          t = [EPoll false; EUpdate rr; EPoll false; EInvoke key]
              ++ match fn with
                 | Resolves v => [EUpdate (completed_record rr v now2)]
                 | Rejects e =>
                     if decide (is_interruption e) then []
                     else [EUpdate (failed_record rr e now2)]
                 | RejectsNullish _ => []
                 end).
Proof.
  intros id fn a1 a2 ctx w Hm key rr now2 w'. subst w'.
  destruct (w_isCrashed w) eqn:Hc.
  { destruct (await_one_interrupted_at_entry id fn a1 a2 ctx w Hm Hc)
      as (w' & Heq & _ & Ht). rewrite Heq. cbn [fst snd]. rewrite Ht.
    eexists. split; [done|]. split_and!; [cbn; lia|done..]. }
  destruct (w_isCrashed (env_apply a1 w)) eqn:Hc1.
  { destruct (await_one_interrupted_after_delay id fn a1 a2 ctx w Hm Hc Hc1)
      as (w' & Heq & _ & Ht). rewrite Heq. cbn [fst snd]. rewrite Ht.
    eexists. split; [done|]. split_and!; [cbn; lia|done..]. }
  destruct fn as [v|e|u].
  - destruct (await_one_resolved id (Resolves v) a1 a2 ctx w Hm v eq_refl Hc Hc1)
      as (w' & Heq & _ & Ht). rewrite Heq. cbn [fst snd]. rewrite Ht.
    eexists. split; [done|]. split_and!; [cbn; lia|done..].
  - destruct (decide (is_interruption e)) as [He|He].
    + destruct (await_one_work_interrupted id (Rejects e) a1 a2 ctx w Hm e eq_refl
                  He Hc Hc1) as (w' & Heq & _ & Ht).
      rewrite Heq. cbn [fst snd]. rewrite Ht.
      eexists. split; [done|]. split_and!; [cbn; lia|done..].
    + destruct (await_one_failed id (Rejects e) a1 a2 ctx w Hm e eq_refl
                  He Hc Hc1) as (w' & Heq & _ & Ht).
      rewrite Heq. cbn [fst snd]. rewrite Ht.
      eexists. split; [done|]. split_and!; [cbn; lia|done..].
  - destruct (await_one_nullish id (RejectsNullish u) a1 a2 ctx w Hm u eq_refl
                Hc Hc1) as (w' & Heq & _ & Ht).
    rewrite Heq. cbn [fst snd]. rewrite Ht.
    eexists. split; [done|]. split_and!; [cbn; lia|done..].
Qed.

Lemma polls_of_a_step_witness :
  exists t,
    w_trace (await_one "Charge" (Resolves (JString "ok")) idle crash
               (newContext "wf-1" []) empty_world).1.2
    = ECall "Charge" 1 "Charge_seq_1" :: t.
Proof.
  destruct (polls_of_a_step "Charge" (Resolves (JString "ok")) idle crash
              (newContext "wf-1" []) empty_world) as (t & Ht & _).
  - intros r Hr. discriminate Hr.
  - exists t. exact Ht.
Defined.

(** C5, as stated, fails: the signal is asserted while the work is
    pending, the step does not poll it before the commit, and the
    COMPLETED record is written with the signal asserted. *)
Lemma commit_is_not_guarded_by_a_poll :
  let '(_, w', p) :=
    await_one "Charge" (Resolves (JString "ok")) idle crash
      (newContext "wf-1" []) empty_world in
  w_isCrashed w' = true
  /\ p = Fulfilled (JString "ok")
  /\ w_trace w' =
     [ECall "Charge" 1 "Charge_seq_1"; EPoll false;
      EUpdate (mkStepRecord "wf-1" "Charge_seq_1" "Charge" 1 RUNNING JNull None 0);
      EPoll false; EInvoke "Charge_seq_1";
      EUpdate (mkStepRecord "wf-1" "Charge_seq_1" "Charge" 1 COMPLETED
                 (JString "ok") None 0)].
Proof. vm_compute. done. Qed.

(** C6 (as amended). Take a step whose record is absent or found RUNNING,
    entered with the signal clear.  If the signal becomes asserted during
    the delay, after the RUNNING record was written and before the work is
    invoked, the step is interrupted and its record is left RUNNING.
    Otherwise the work is invoked -- also when the record was found RUNNING
    from an earlier pass: the stored state is not trusted -- and a value it
    resolves with is committed as COMPLETED whatever happens to the signal
    while the work is pending ([a2]). *)
Theorem running_record_is_left_and_rerun :
  forall (id : string) (fn : Work) (a1 a2 : EnvAct)
         (ctx : DurableContext) (w : World),
    (find_existing ctx (makeStepKey id (S (sequenceCounter ctx))) = None
     \/ exists r,
          find_existing ctx (makeStepKey id (S (sequenceCounter ctx))) = Some r
          /\ status r = RUNNING) ->
    w_isCrashed w = false ->
    let key := makeStepKey id (S (sequenceCounter ctx)) in
    let rr := fresh_record id ctx (w_now w) in
    let now2 := (w_now w + elapse a1 + elapse a2)%N in
    let w' := (await_one id fn a1 a2 ctx w).1.2 in
    let p := (await_one id fn a1 a2 ctx w).2 in
    (w_isCrashed (env_apply a1 w) = true ->
       p = Rejected interrupted_error
       /\ rr ∈ w_db w' /\ status rr = RUNNING
       /\ w_trace w' =
          w_trace w ++ [call_event id ctx; EPoll false; EUpdate rr; EPoll true])
    /\ (w_isCrashed (env_apply a1 w) = false ->
        EInvoke key ∈ w_trace w'
        /\ forall v, fn = Resolves v ->
             p = Fulfilled v /\ completed_record rr v now2 ∈ w_db w').
Proof.
  intros id fn a1 a2 ctx w Hfind Hc key rr now2 w' p. subst w' p.
  assert (memo_miss ctx (makeStepKey id (S (sequenceCounter ctx)))) as Hm.
  { intros r Hr. destruct Hfind as [Hn|(r' & Hr' & Hs)]; [congruence|].
    rewrite Hr in Hr'. simplify_eq. by rewrite Hs. }
  split; intros Hc1.
  - destruct (await_one_interrupted_after_delay id fn a1 a2 ctx w Hm Hc Hc1)
      as (w' & Heq & Hdb & Ht). rewrite Heq. cbn [fst snd].
    split_and!; [done| |done|done]. rewrite Hdb. apply handleStepUpdate_elem.
  - destruct fn as [v|e|u].
    + destruct (await_one_resolved id (Resolves v) a1 a2 ctx w Hm v eq_refl
                  Hc Hc1) as (w' & Heq & Hdb & Ht). rewrite Heq. cbn [fst snd].
      split.
      * rewrite Ht. apply elem_of_app. right. in_list.
      * intros v' [= <-]. split; [done|]. rewrite Hdb.
        apply handleStepUpdate_elem.
    + destruct (decide (is_interruption e)) as [He|He].
      * destruct (await_one_work_interrupted id (Rejects e) a1 a2 ctx w Hm e
                    eq_refl He Hc Hc1) as (w' & Heq & _ & Ht).
        rewrite Heq. cbn [fst snd]. split; [|done].
        rewrite Ht. apply elem_of_app. right. in_list.
      * destruct (await_one_failed id (Rejects e) a1 a2 ctx w Hm e
                    eq_refl He Hc Hc1) as (w' & Heq & _ & Ht).
        rewrite Heq. cbn [fst snd]. split; [|done].
        rewrite Ht. apply elem_of_app. right. in_list.
    + destruct (await_one_nullish id (RejectsNullish u) a1 a2 ctx w Hm u
                  eq_refl Hc Hc1) as (w' & Heq & _ & Ht).
      rewrite Heq. cbn [fst snd]. split; [|done].
      rewrite Ht. apply elem_of_app. right. in_list.
Qed.

Lemma running_record_is_left_and_rerun_witness :
  EInvoke "Charge_seq_1" ∈
    w_trace (await_one "Charge" (Resolves (JString "ok")) idle crash
               (newContext "wf-1" [zombie_record]) zombie_world).1.2
  /\ (await_one "Charge" (Resolves (JString "ok")) idle crash
        (newContext "wf-1" [zombie_record]) zombie_world).2
     = Fulfilled (JString "ok").
Proof.
  destruct (running_record_is_left_and_rerun "Charge" (Resolves (JString "ok"))
              idle crash (newContext "wf-1" [zombie_record]) zombie_world)
    as [_ H].
  - right. exists zombie_record. split; reflexivity.
  - reflexivity.
  - destruct (H eq_refl) as [Hinv Hres].
    split; [exact Hinv|]. exact (proj1 (Hres _ eq_refl)).
Defined.

(** C6, as stated, fails in its first half: the signal is asserted after
    the work of the step finished and before the commit; the record is
    committed COMPLETED, not left RUNNING, and the pass completes. *)
Lemma crash_after_work_still_commits :
  let '(w', outcome) :=
    runWorkflow "wf-1" charge [[(0, idle); (0, crash)]] empty_world in
  outcome = PassCompleted
  /\ w_isCrashed w' = true
  /\ w_db w' = [mkStepRecord "wf-1" "Charge_seq_1" "Charge" 1 COMPLETED
                  (JString "ok") None 0].
Proof. vm_compute. done. Qed.

Lemma promise_all_fulfilled ps vs :
  promise_all ps = AllFulfilled vs -> ps = Fulfilled <$> vs.
Proof.
  revert vs. induction ps as [|p ps IH]; intros vs; cbn.
  - by intros [= <-].
  - destruct p as [v|e|rr fn|rr fn]; try done.
    + destruct (promise_all ps) as [|vs'|]; try done.
      intros [= <-]. cbn. f_equal. by apply IH.
    + by destruct (promise_all ps).
    + by destruct (promise_all ps).
Qed.






(** ** Terminal records *)




(** ** The step key and the workflow id *)

Section KeyShape.
Variable t0 : list Event.

Lemma keys_shaped_emit e w :
  match e with EUpdate rec => key_shape rec | _ => True end ->
  keys_shaped t0 w -> keys_shaped t0 (emit e w).
Proof.
  intros He Hw rec [?|Hs%list_elem_of_singleton]%elem_of_app; [by apply Hw|].
  subst. by right.
Qed.

Lemma keys_shaped_log msg ty w :
  keys_shaped t0 w -> keys_shaped t0 (addLog msg ty w).
Proof. intros H. exact H. Qed.

Lemma keys_shaped_update rec w :
  key_shape rec -> keys_shaped t0 w -> keys_shaped t0 (onStepUpdate rec w).
Proof.
  intros Hrec Hw rec' [?|Hs%list_elem_of_singleton]%elem_of_app; [by apply Hw|].
  simplify_eq. by right.
Qed.

Lemma keys_shaped_begin id fn ctx w :
  keys_shaped t0 w ->
  keys_shaped t0 (step_begin id fn ctx w).1.2
  /\ shaped_promise (step_begin id fn ctx w).2.
Proof.
  intros Hw.
  destruct (step_begin_spec id fn ctx w) as [r Hr|Hm Hc|Hm Hc]; cbn [fst snd].
  - split; [|done]. by apply keys_shaped_log, keys_shaped_emit.
  - split; [|done]. by do 2 (apply keys_shaped_emit; [done|]).
  - split; [|done]. apply keys_shaped_update; [done|].
    apply keys_shaped_log. by do 2 (apply keys_shaped_emit; [done|]).
Qed.

Lemma keys_shaped_advance p w :
  keys_shaped t0 w -> shaped_promise p ->
  keys_shaped t0 (advance p w).1 /\ shaped_promise (advance p w).2.
Proof.
  intros Hw Hp. destruct p as [v|e|rr fn|rr fn]; cbn [advance]; try done.
  - destruct (w_isCrashed w) eqn:Hc.
    + rewrite step_wake_crashed by done. split; [|done].
      by apply keys_shaped_log, keys_shaped_emit.
    + rewrite step_wake_invokes by done. split; [|done].
      by do 2 (apply keys_shaped_emit; [done|]).
  - destruct fn as [v|e|u].
    + rewrite step_settle_resolved. split; [|done].
      by apply keys_shaped_log, keys_shaped_update.
    + rewrite step_settle_rejected.
      destruct (decide (is_interruption e)).
      * by rewrite step_catch_interrupted.
      * rewrite step_catch_failed by done. split; [|done].
        by apply keys_shaped_log, keys_shaped_update.
    + by rewrite step_settle_nullish.
Qed.
End KeyShape.

(** C3: what the code does.  The step key of every record a pass writes
    is built from the label and the sequence number only,
    [`${id}_seq_${sequence}`]; the workflow id is not part of it.  The
    lookup of [step] compares the workflow id besides the key, the upsert of
    [handleStepUpdate] compares the key alone.  So in a store shared by two
    workflow ids, the "Charge" step of "wf-B" does not find the COMPLETED
    record of "wf-A", runs, and overwrites that record; "wf-A", run again,
    invokes the work of its completed step a second time. *)
Lemma step_key_omits_workflow_id :
  (forall wid wf scheds w rec,
     EUpdate rec ∈ w_trace (runWorkflow wid wf scheds w).1 ->
     EUpdate rec ∈ w_trace w
     \/ stepKey rec = stepId rec +:+ "_seq_" +:+ pretty (sequence rec))
  /\ (let '(wA, _) := runWorkflow "wf-A" charge [in_order 1] empty_world in
      let '(wB, _) := runWorkflow "wf-B" charge [in_order 1] wA in
      let '(wA', _) := runWorkflow "wf-A" charge [in_order 1] wB in
      w_db wA = [mkStepRecord "wf-A" "Charge_seq_1" "Charge" 1 COMPLETED
                   (JString "ok") None 0]
      /\ w_db wB = [mkStepRecord "wf-B" "Charge_seq_1" "Charge" 1 COMPLETED
                      (JString "ok") None 0]
      /\ invocations_of (w_trace wA') =
         ["Charge_seq_1"; "Charge_seq_1"; "Charge_seq_1"]).
Proof.
  split.
  - intros wid wf scheds w.
    destruct (runWorkflow_inv (fun _ => keys_shaped (w_trace w)) shaped_promise)
      with (wid := wid) (wf := wf) (scheds := scheds) (w := w) as [ctx H].
    + intros msg ty ctx w0 H. exact H.
    + intros a ctx w0 H. exact H.
    + intros. by apply keys_shaped_begin.
    + intros. by apply keys_shaped_advance.
    + intros rec Hrec. by left.
    + exact H.
  - vm_compute. done.
Qed.

(** ** Parallel groups *)

Lemma invocations_of_emit e w :
  invocations_of (w_trace (emit e w)) =
  invocations_of (w_trace w) ++
  match e with EInvoke key => [key] | _ => [] end.
Proof. unfold invocations_of. cbn. rewrite omap_app. by destruct e. Qed.

(** The synchronous prefix of [step] invokes no work. *)
Lemma step_begin_invocations id fn ctx w :
  invocations_of (w_trace (step_begin id fn ctx w).1.2) =
  invocations_of (w_trace w).
Proof.
  destruct (step_begin_spec id fn ctx w); cbn [fst snd].
  - change (w_trace (addLog ?m ?t ?x)) with (w_trace x).
    rewrite invocations_of_emit. by rewrite app_nil_r.
  - rewrite !invocations_of_emit. by rewrite !app_nil_r.
  - change (w_trace (onStepUpdate ?r (addLog ?m ?t ?x)))
      with (w_trace (emit (EUpdate r) x)).
    rewrite !invocations_of_emit. by rewrite !app_nil_r.
Qed.

Lemma advance_branch_ok ctx c i call p w :
  branch_ok ctx c i call p -> branch_ok ctx c i call (advance p w).2.
Proof.
  destruct p as [v|e|rr fn|rr fn]; cbn [advance]; try done; cbn; intros ->.
  - destruct (step_wake_progress rr call.2 w) as [Hs|Hw].
    + by rewrite Hs.
    + by rewrite Hw.
  - destruct call.2 as [v|e|u] eqn:Hfn; [by left| |done].
    rewrite step_settle_rejected. unfold step_catch. by destruct (decide _).
Qed.

Lemma resume_branches_ok ctx c calls i ps w :
  branches_ok ctx c calls ps -> branches_ok ctx c calls (resume i ps w).2.
Proof.
  intros [Hlen Hok]. unfold resume. destruct (ps !! i) as [p|] eqn:Hi; [|done].
  pose proof (advance_branch_ok ctx c i) as Hadv.
  destruct (advance p w) as [w' p'] eqn:Hp. cbn [snd]. split.
  - by rewrite length_insert.
  - intros j call q Hcall Hq. destruct (decide (i = j)) as [->|Hne].
    + rewrite list_lookup_insert_eq in Hq by (by eapply lookup_lt_Some).
      simplify_eq. specialize (Hadv call p w). rewrite Hp in Hadv. eauto.
    + rewrite list_lookup_insert_ne in Hq by done. eauto.
Qed.

Lemma await_all_branches_ok ctx c calls sched : forall ps w,
  branches_ok ctx c calls ps ->
  branches_ok ctx c calls (await_all ps sched w).1.1.2.
Proof.
  induction sched as [|[i a] sched IH]; intros ps w Hok; cbn [await_all]; [done|].
  destruct (promise_all ps); [|done..].
  pose proof (resume_branches_ok ctx c calls i ps (env_apply a w) Hok) as Hok'.
  destruct (resume i ps (env_apply a w)) as [w' ps']. cbn [snd] in Hok'.
  destruct (promise_all ps'); [by apply IH|done..].
Qed.

Lemma memo_hit_bump ctx key r : memo_hit (bump ctx) key r <-> memo_hit ctx key r.
Proof. done. Qed.

Lemma begin_all_ctx calls : forall ctx w,
  sequenceCounter (begin_all calls ctx w).1.1 = sequenceCounter ctx + length calls.
Proof.
  induction calls as [|[id fn] calls IH]; intros ctx w; cbn [begin_all].
  - cbn. lia.
  - pose proof (step_begin_ctx id fn ctx w) as Hctx.
    destruct (step_begin id fn ctx w) as [[ctx1 w1] p]. cbn in Hctx. subst ctx1.
    specialize (IH (bump ctx) w1).
    destruct (begin_all calls (bump ctx) w1) as [[ctx2 w2] ps]. cbn in *. lia.
Qed.

Lemma begin_all_branches_ok calls : forall ctx w,
  branches_ok ctx (sequenceCounter ctx) calls (begin_all calls ctx w).2.
Proof.
  induction calls as [|[id fn] calls IH]; intros ctx w; cbn [begin_all].
  - split; [done|]. intros i call p Hi. by rewrite lookup_nil in Hi.
  - pose proof (step_begin_ctx id fn ctx w) as Hctx.
    assert (branch_ok ctx (sequenceCounter ctx) 0 (id, fn)
              (step_begin id fn ctx w).2) as Hp.
    { destruct (step_begin_spec id fn ctx w) as [r Hr| |]; cbn; try done.
      right. exists r. by rewrite Nat.add_0_r. }
    destruct (step_begin id fn ctx w) as [[ctx1 w1] p]. cbn in Hctx, Hp.
    subst ctx1. destruct (IH (bump ctx) w1) as [Hlen Hok].
    destruct (begin_all calls (bump ctx) w1) as [[ctx2 w2] ps]. cbn in *.
    split; [by rewrite !length_cons, Hlen|].
    intros [|i] call q Hcall Hq; simplify_eq/=.
    + done.
    + specialize (Hok i call q Hcall Hq). destruct q; try done.
      cbn in *. by rewrite Nat.add_succ_r.
Qed.

Lemma begin_all_calls calls : forall ctx w,
  calls_of (w_trace (begin_all calls ctx w).1.2) =
  calls_of (w_trace w) ++
  imap (fun i call => (call.1, S (sequenceCounter ctx + i),
                       makeStepKey call.1 (S (sequenceCounter ctx + i)))) calls.
Proof.
  induction calls as [|[id fn] calls IH]; intros ctx w; cbn [begin_all].
  - cbn. by rewrite app_nil_r.
  - pose proof (step_begin_ctx id fn ctx w) as Hctx.
    pose proof (step_begin_calls id fn ctx w) as Hc.
    destruct (step_begin id fn ctx w) as [[ctx1 w1] p]. cbn in Hctx, Hc.
    subst ctx1. specialize (IH (bump ctx) w1).
    destruct (begin_all calls (bump ctx) w1) as [[ctx2 w2] ps]. cbn in *.
    rewrite IH, Hc, <-(assoc_L (++)). cbn. rewrite Nat.add_0_r.
    do 2 f_equal. apply imap_ext. intros i call _. cbn.
    by rewrite Nat.add_succ_r.
Qed.

Lemma begin_all_invocations calls : forall ctx w,
  invocations_of (w_trace (begin_all calls ctx w).1.2) =
  invocations_of (w_trace w).
Proof.
  induction calls as [|[id fn] calls IH]; intros ctx w; cbn [begin_all]; [done|].
  pose proof (step_begin_invocations id fn ctx w) as Hi.
  destruct (step_begin id fn ctx w) as [[ctx1 w1] p]. cbn in Hi.
  specialize (IH ctx1 w1).
  destruct (begin_all calls ctx1 w1) as [[ctx2 w2] ps]. cbn in *. congruence.
Qed.

Lemma resume_calls i ps w :
  calls_of (w_trace (resume i ps w).1) = calls_of (w_trace w).
Proof.
  unfold resume. destruct (ps !! i) as [p|]; [|done].
  pose proof (advance_calls p w) as H. by destruct (advance p w).
Qed.

Lemma await_all_calls sched : forall ps w,
  calls_of (w_trace (await_all ps sched w).1.1.1) = calls_of (w_trace w).
Proof.
  induction sched as [|[i a] sched IH]; intros ps w; cbn [await_all]; [done|].
  destruct (promise_all ps); [|done..].
  pose proof (resume_calls i ps (env_apply a w)) as H.
  destruct (resume i ps (env_apply a w)) as [w' ps']. cbn [fst] in H.
  destruct (promise_all ps'); [|done..]. by rewrite IH, H.
Qed.

Lemma await_all_state sched : forall ps w,
  (await_all ps sched w).2 = promise_all (await_all ps sched w).1.1.2.
Proof.
  induction sched as [|[i a] sched IH]; intros ps w; cbn [await_all]; [done|].
  destruct (promise_all ps) eqn:H; [|done..].
  destruct (resume i ps (env_apply a w)) as [w' ps'].
  destruct (promise_all ps') eqn:H'; [apply IH|done..].
Qed.

(** *** Every branch that is resumed twice settles *)

Lemma visits_cons j a sched i :
  visits i ((j, a) :: sched) = (if decide (j = i) then 1 else 0) + visits i sched.
Proof.
  unfold visits. rewrite (filter_cons (fun ev : nat * EnvAct => ev.1 = i)).
  cbn [fst]. by destruct (decide (j = i)).
Qed.

Lemma advance_steps_left p w : steps_left (advance p w).2 <= pred (steps_left p).
Proof.
  destruct p as [v|e|rr fn|rr fn]; cbn [advance]; try (cbn; lia).
  - destruct (step_wake_progress rr fn w) as [->| ->]; cbn; lia.
  - pose proof (step_settle_settled rr fn w) as Hs.
    destruct (step_settle rr fn w).2; cbn in *; try done; lia.
Qed.

Lemma resume_length i ps w : length (resume i ps w).2 = length ps.
Proof.
  unfold resume. destruct (ps !! i) as [p|]; [|done].
  destruct (advance p w). cbn. by rewrite length_insert.
Qed.

Lemma drain_length sched : forall ps w, length (drain ps sched w).2 = length ps.
Proof.
  induction sched as [|[i a] sched IH]; intros ps w; cbn [drain]; [done|].
  pose proof (resume_length i ps (env_apply a w)) as H.
  destruct (resume i ps (env_apply a w)) as [w' ps']. cbn in H.
  by rewrite IH.
Qed.

Lemma drain_steps_left sched : forall ps w i p,
  ps !! i = Some p ->
  exists p', (drain ps sched w).2 !! i = Some p'
             /\ steps_left p' <= steps_left p - visits i sched.
Proof.
  induction sched as [|[j a] sched IH]; intros ps w i p Hi; cbn [drain].
  - exists p. split; [done|]. unfold visits. cbn. lia.
  - assert (exists q, (resume j ps (env_apply a w)).2 !! i = Some q
                      /\ steps_left q
                         <= steps_left p - (if decide (j = i) then 1 else 0))
      as (q & Hq & Hle).
    { unfold resume. destruct (ps !! j) as [pj|] eqn:Hj.
      - pose proof (advance_steps_left pj (env_apply a w)) as Hadv.
        destruct (advance pj (env_apply a w)) as [w' pj']. cbn [snd] in *.
        destruct (decide (j = i)) as [->|Hne].
        + exists pj'. rewrite list_lookup_insert_eq by (by eapply lookup_lt_Some).
          split; [done|]. simplify_eq. lia.
        + exists p. rewrite list_lookup_insert_ne by done. split; [done|]. lia.
      - exists p. split; [done|].
        destruct (decide (j = i)) as [->|Hne]; [congruence|lia]. }
    destruct (resume j ps (env_apply a w)) as [w' ps']. cbn [snd] in Hq.
    destruct (IH ps' w' i q Hq) as (p' & Hp' & Hle').
    exists p'. split; [done|]. rewrite visits_cons.
    destruct (decide (j = i)); lia.
Qed.

Lemma await_all_pending_drain sched : forall ps w,
  (await_all ps sched w).2 = AllPending ->
  (await_all ps sched w).1.1 = drain ps sched w.
Proof.
  induction sched as [|[i a] sched IH]; intros ps w; cbn [await_all drain];
    [done|].
  destruct (promise_all ps); [|done..].
  destruct (resume i ps (env_apply a w)) as [w' ps'].
  destruct (promise_all ps'); [apply IH|done..].
Qed.

Lemma promise_all_pending ps :
  promise_all ps = AllPending ->
  exists i p, ps !! i = Some p /\ 0 < steps_left p.
Proof.
  induction ps as [|p ps IH]; [done|]. cbn.
  destruct p as [v|e|rr fn|rr fn]; try done.
  - destruct (promise_all ps); try done. intros _.
    destruct IH as (i & p & Hi & Hp); [done|]. by exists (S i), p.
  - intros _. exists 0, (Sleeping rr fn). split; [done|]. cbn. lia.
  - intros _. exists 0, (Working rr fn). split; [done|]. cbn. lia.
Qed.

Lemma await_all_settles ps sched w :
  (forall i, i < length ps -> 2 <= visits i sched) ->
  (await_all ps sched w).2 <> AllPending.
Proof.
  intros Hfair Hpend.
  pose proof (await_all_pending_drain sched ps w Hpend) as Hd.
  rewrite await_all_state, Hd in Hpend.
  apply promise_all_pending in Hpend as (i & p' & Hi & Hp').
  assert (i < length ps) as Hlt.
  { rewrite <-(drain_length sched ps w). by eapply lookup_lt_Some. }
  destruct (lookup_lt_is_Some_2 ps i Hlt) as [p Hp].
  destruct (drain_steps_left sched ps w i p Hp) as (q & Hq & Hle).
  specialize (Hfair i Hlt). simplify_eq.
  assert (steps_left p <= 2) by (by destruct p; cbn; lia). lia.
Qed.

(** *** A group whose calls resolve fulfils with their values *)

Lemma step_begin_going id fn ctx w v :
  w_isCrashed w = false ->
  branch_value ctx (sequenceCounter ctx) 0 (id, fn) v ->
  going v (step_begin id fn ctx w).2
  /\ w_isCrashed (step_begin id fn ctx w).1.2 = false.
Proof.
  intros Hc Hv. unfold branch_value in Hv. rewrite Nat.add_0_r in Hv.
  cbn [fst snd] in Hv.
  destruct (step_begin_spec id fn ctx w) as [r [Hf Hr]|Hm Hc'|Hm _];
    cbn [fst snd].
  - split; [|done]. cbn. destruct Hv as [(r' & [Hf' _] & ->)|[Hm _]].
    + congruence.
    + by destruct (Hm r).
  - congruence.
  - split; [|done]. cbn. destruct Hv as [(r' & [Hf' Hr'] & _)|[_ Hfn]]; [|done].
    by destruct (Hm r').
Qed.

Lemma begin_all_going calls : forall ctx w vs,
  w_isCrashed w = false ->
  length vs = length calls ->
  (forall i call v, calls !! i = Some call -> vs !! i = Some v ->
     branch_value ctx (sequenceCounter ctx) i call v) ->
  Forall2 going vs (begin_all calls ctx w).2
  /\ w_isCrashed (begin_all calls ctx w).1.2 = false.
Proof.
  induction calls as [|[id fn] calls IH]; intros ctx w vs Hc Hlen Hv;
    cbn [begin_all].
  - destruct vs; [|done]. by split; [constructor|].
  - destruct vs as [|v vs]; [done|]. cbn in Hlen.
    destruct (step_begin_going id fn ctx w v Hc (Hv 0 _ _ eq_refl eq_refl))
      as [Hp Hc1].
    pose proof (step_begin_ctx id fn ctx w) as Hctx.
    destruct (step_begin id fn ctx w) as [[ctx1 w1] p]. cbn [fst snd] in *.
    subst ctx1. destruct (IH (bump ctx) w1 vs Hc1) as [Hps Hc2]; [lia| |].
    { intros i call v' Hcall Hv'. specialize (Hv (S i) call v' Hcall Hv').
      unfold branch_value in *. rewrite Nat.add_succ_r in Hv. exact Hv. }
    destruct (begin_all calls (bump ctx) w1) as [[ctx2 w2] ps].
    cbn [fst snd] in *. by split; [constructor|].
Qed.

Lemma advance_going v p w :
  w_isCrashed w = false -> going v p ->
  going v (advance p w).2 /\ w_isCrashed (advance p w).1 = false.
Proof.
  intros Hc Hp. destruct p as [v'|e|rr fn|rr fn]; cbn [advance]; try done.
  - by rewrite step_wake_invokes.
  - cbn in Hp. subst fn. by rewrite step_settle_resolved.
Qed.

Lemma resume_going vs i ps w :
  w_isCrashed w = false -> Forall2 going vs ps ->
  Forall2 going vs (resume i ps w).2 /\ w_isCrashed (resume i ps w).1 = false.
Proof.
  intros Hc Hps. unfold resume. destruct (ps !! i) as [p|] eqn:Hi; [|done].
  destruct (Forall2_lookup_r _ _ _ _ _ Hps Hi) as (v & Hv & Hp).
  destruct (advance_going v p w Hc Hp) as [Hp' Hc'].
  destruct (advance p w) as [w' p']. cbn [fst snd] in *. split; [|done].
  rewrite <-(list_insert_id vs i v) by done. by apply Forall2_insert.
Qed.

Lemma await_all_going vs sched : forall ps w,
  calm sched -> w_isCrashed w = false -> Forall2 going vs ps ->
  Forall2 going vs (await_all ps sched w).1.1.2.
Proof.
  induction sched as [|[i a] sched IH]; intros ps w Hcalm Hc Hps;
    cbn [await_all]; [done|].
  apply Forall_cons in Hcalm as [Ha Hcalm]. cbn in Ha.
  assert (w_isCrashed (env_apply a w) = false) as Hc1.
  { cbn. rewrite Hc. by destruct (set_crashed a) as [[|]|]. }
  destruct (promise_all ps); [|done..].
  destruct (resume_going vs i ps (env_apply a w) Hc1 Hps) as [Hps' Hc'].
  destruct (resume i ps (env_apply a w)) as [w' ps']. cbn [fst snd] in *.
  destruct (promise_all ps'); [by apply IH|done..].
Qed.

Lemma going_fulfilled vs : forall vs',
  Forall2 going vs (Fulfilled <$> vs') -> vs' = vs.
Proof.
  induction vs as [|v vs IH]; intros [|v' vs']; cbn; intros H; inversion H;
    subst; [done|]. f_equal; [done|]. by apply IH.
Qed.

Lemma going_not_rejected vs ps e :
  Forall2 going vs ps -> promise_all ps <> AllRejected e.
Proof.
  induction 1 as [|v p vs ps Hp _ IH]; [done|]. cbn.
  destruct p as [v'|e'|rr fn|rr fn]; [|done|..];
    by destruct (promise_all ps).
Qed.

(** C9 (as amended).  [parallel] is [Promise.all] over promises that are
    started already: it allocates nothing.  For the group written
    [ctx.parallel([ctx.step(..), .., ctx.step(..)])], begun with the counter
    at [c]: the calls of [step] in the array allocate the sequence numbers
    c+1, c+2, ... in the order of the input, and no work is invoked while
    they do; awaiting a list of promises, whichever way they were started
    and whatever the order in which they are resumed, allocates no sequence
    number; when the group fulfils, the i-th value of the result is the
    value of the work of the i-th call, or the stored result of the key of
    the i-th call; a schedule that resumes every branch twice settles the
    group; and when, besides, the signal is clear and stays clear, the group
    fulfils with the list, in the order of the input, of the values of its
    calls: the stored result of a call the store serves, the value the work
    resolves with otherwise. *)
Theorem parallel_allocates_in_input_order :
  forall (calls : list (string * Work)) (ctx : DurableContext) (w : World)
         (sched : Schedule),
    let c := sequenceCounter ctx in
    let started := begin_all calls ctx w in
    let awaited := await_all started.2 sched started.1.2 in
    calls_of (w_trace started.1.2) =
      calls_of (w_trace w) ++
      imap (fun i call => (call.1, S (c + i), makeStepKey call.1 (S (c + i))))
           calls
    /\ invocations_of (w_trace started.1.2) = invocations_of (w_trace w)
    /\ (forall (ps : list StepPromise) (w1 : World),
          calls_of (w_trace (await_all ps sched w1).1.1.1) = calls_of (w_trace w1))
    /\ (forall vs, awaited.2 = AllFulfilled vs ->
          length vs = length calls
          /\ forall i id fn v,
               calls !! i = Some (id, fn) -> vs !! i = Some v ->
               fn = Resolves v
               \/ exists r, memo_hit ctx (makeStepKey id (S (c + i))) r
                            /\ v = result r)
    /\ ((forall i, i < length calls -> 2 <= visits i sched) ->
        awaited.2 <> AllPending)
    /\ (forall vs,
          w_isCrashed w = false -> calm sched ->
          (forall i, i < length calls -> 2 <= visits i sched) ->
          length vs = length calls ->
          (forall i call v, calls !! i = Some call -> vs !! i = Some v ->
             branch_value ctx c i call v) ->
          awaited.2 = AllFulfilled vs).
Proof.
  intros calls ctx w sched. cbv zeta.
  pose proof (begin_all_branches_ok calls ctx w) as Hok0.
  pose proof (await_all_branches_ok ctx (sequenceCounter ctx) calls sched _
                (begin_all calls ctx w).1.2 Hok0) as [Hlen Hok].
  assert ((forall i, i < length calls -> 2 <= visits i sched) ->
          (await_all (begin_all calls ctx w).2 sched (begin_all calls ctx w).1.2).2
          <> AllPending) as Hsettle.
  { intros Hfair. apply await_all_settles. intros i Hi. apply Hfair.
    by rewrite <-(proj1 Hok0). }
  split_and!.
  - apply begin_all_calls.
  - apply begin_all_invocations.
  - intros ps w1. apply await_all_calls.
  - intros vs Hvs. rewrite await_all_state in Hvs.
    apply promise_all_fulfilled in Hvs. rewrite Hvs in Hlen, Hok.
    rewrite length_fmap in Hlen. split; [done|].
    intros i id fn v Hcall Hv.
    apply (Hok i (id, fn) (Fulfilled v)); [done|].
    by rewrite list_lookup_fmap, Hv.
  - exact Hsettle.
  - intros vs Hc Hcalm Hfair Hlenv Hvs.
    destruct (begin_all_going calls ctx w vs Hc Hlenv Hvs) as [Hps Hc1].
    pose proof (await_all_going vs sched _ _ Hcalm Hc1 Hps) as Hps'.
    specialize (Hsettle Hfair). rewrite await_all_state in Hsettle |- *.
    destruct (promise_all _) as [|vs'|e] eqn:Hst; [done| |].
    + apply promise_all_fulfilled in Hst. rewrite Hst in Hps'.
      by rewrite (going_fulfilled vs vs' Hps').
    + by destruct (going_not_rejected _ _ e Hps').
Qed.

Lemma parallel_allocates_in_input_order_witness :
  (await_all (begin_all provisioning (mkCtx WORKFLOW_ID 1 []) empty_world).2
     (in_order 2)
     (begin_all provisioning (mkCtx WORKFLOW_ID 1 []) empty_world).1.2).2
  = AllFulfilled [JString "MacBook Pro M3 Pro";
                  JArray [JString "Slack"; JString "GitHub"; JString "Jira"]].
Proof.
  apply (parallel_allocates_in_input_order provisioning
           (mkCtx WORKFLOW_ID 1 []) empty_world (in_order 2)).
  - reflexivity.
  - repeat constructor; discriminate.
  - intros i Hi. destruct i as [|[|i]]; [vm_compute; lia..|].
    cbn in Hi. lia.
  - reflexivity.
  - intros [|[|i]] call v Hcall Hv; cbn in Hcall, Hv; [..|done];
      injection Hcall as <-; injection Hv as <-;
      (right; split; [intros r Hr; discriminate Hr|reflexivity]).
Defined.

(** C9, as stated, fails: [parallel] takes promises, and these may have
    been started in another order than the one they are handed over in.
    For [const a = ctx.step("A", ..); const b = ctx.step("B", ..);
    await ctx.parallel([b, a])] the first branch of the group has sequence
    number 2 and the second has sequence number 1: the numbers follow the
    calls of [step], not the input of [parallel]. *)
Lemma parallel_over_earlier_promises :
  let '(_, w, ps) :=
    begin_all [("A", Resolves (JString "a")); ("B", Resolves (JString "b"))]
      (newContext "wf-1" []) empty_world in
  let '(w', _, _, st) := await_all (reverse ps) (in_order 2) w in
  st = AllFulfilled [JString "b"; JString "a"]
  /\ calls_of (w_trace w') = [("A", 1, "A_seq_1"); ("B", 2, "B_seq_2")]
  /\ ((fun r => (stepId r, sequence r)) <$> w_db w') = [("A", 1); ("B", 2)].
Proof. vm_compute. done. Qed.

(** The parallel group of the onboarding workflow, with the second branch
    finishing before the first. *)
Example parallel_group_out_of_order :
  let calls := [("Provision Laptop", Resolves (JString "MacBook Pro M3 Pro"));
                ("Configure Access", Resolves (JArray [JString "Slack"]))] in
  let '(ctx, w, ps) := begin_all calls (mkCtx WORKFLOW_ID 1 []) empty_world in
  let '(w', _, _, st) := await_all ps [(0, idle); (1, idle); (1, idle); (0, idle)] w in
  st = AllFulfilled [JString "MacBook Pro M3 Pro"; JArray [JString "Slack"]]
  /\ calls_of (w_trace w) =
     [("Provision Laptop", 2, "Provision Laptop_seq_2");
      ("Configure Access", 3, "Configure Access_seq_3")]
  /\ invocations_of (w_trace w') =
     ["Provision Laptop_seq_2"; "Configure Access_seq_3"]
  /\ (stepKey <$> updates_of (w_trace w')) =
     ["Provision Laptop_seq_2"; "Configure Access_seq_3";
      "Configure Access_seq_3"; "Provision Laptop_seq_2"].
Proof. vm_compute. done. Qed.

(** ** The calls of a pass and the records it writes *)

(** An invariant of the world that may refer to the promises in flight
    through a property which later transitions of the engine preserve. *)
Section TracedInvariant.
Variable Inv : DurableContext -> World -> Prop.
Variable Live : World -> StepPromise -> Prop.

Hypothesis Inv_log : forall msg ty ctx w, Inv ctx w -> Inv ctx (addLog msg ty w).
Hypothesis Live_log : forall msg ty w p, Live w p -> Live (addLog msg ty w) p.
Hypothesis Inv_env : forall a ctx w, Inv ctx w -> Inv ctx (env_apply a w).
Hypothesis Live_env : forall a w p, Live w p -> Live (env_apply a w) p.
Hypothesis Inv_begin : forall id fn ctx w, Inv ctx w ->
  Inv (step_begin id fn ctx w).1.1 (step_begin id fn ctx w).1.2
  /\ Live (step_begin id fn ctx w).1.2 (step_begin id fn ctx w).2.
Hypothesis Live_begin : forall id fn ctx w q,
  Live w q -> Live (step_begin id fn ctx w).1.2 q.
Hypothesis Inv_advance : forall p ctx w, Inv ctx w -> Live w p ->
  Inv ctx (advance p w).1 /\ Live (advance p w).1 (advance p w).2.
Hypothesis Live_advance : forall p w q, Live w q -> Live (advance p w).1 q.

Lemma traced_await_step sched : forall p ctx w,
  Inv ctx w -> Live w p -> Inv ctx (await_step p sched w).1.
Proof.
  induction sched as [|[i a] sched IH]; intros p ctx w Hw Hp; [done|].
  cbn [await_step]. pose proof (Inv_env a _ _ Hw) as Hw1.
  pose proof (Live_env a _ _ Hp) as Hp1.
  destruct (Inv_advance p ctx (env_apply a w) Hw1 Hp1) as [Hw' Hp'].
  destruct p as [v|e|rr fn|rr fn]; try done.
  all: cbn [advance] in *;
       match goal with
       | |- context [let '(_, _) := ?x in _] =>
           destruct x as [w' p'] eqn:Hadv
       end;
       cbn [fst snd] in *; destruct p'; try done; by apply IH.
Qed.

Lemma traced_resume i ps ctx w :
  Inv ctx w -> Forall (Live w) ps ->
  Inv ctx (resume i ps w).1 /\ Forall (Live (resume i ps w).1) (resume i ps w).2.
Proof.
  intros Hw Hps. unfold resume. destruct (ps !! i) as [p|] eqn:Hi; [|done].
  assert (Live w p) as Hp by (eapply Forall_lookup_1; eauto).
  destruct (Inv_advance p ctx w Hw Hp) as [Hw' Hp'].
  pose proof (Live_advance p w) as Hmono.
  destruct (advance p w) as [w' p']. cbn [fst snd] in *. split; [done|].
  apply Forall_insert; [|done]. eapply Forall_impl; [exact Hps|done].
Qed.

Lemma traced_drain sched : forall ps ctx w,
  Inv ctx w -> Forall (Live w) ps -> Inv ctx (drain ps sched w).1.
Proof.
  induction sched as [|[i a] sched IH]; intros ps ctx w Hw Hps; [done|].
  cbn [drain].
  assert (Forall (Live (env_apply a w)) ps) as Hps1.
  { eapply Forall_impl; [exact Hps|]. intros p. apply Live_env. }
  destruct (traced_resume i ps ctx (env_apply a w) (Inv_env a _ _ Hw) Hps1)
    as [Hw' Hps'].
  destruct (resume i ps (env_apply a w)) as [w' ps']. by apply IH.
Qed.

Lemma traced_await_all sched : forall ps ctx w,
  Inv ctx w -> Forall (Live w) ps ->
  Inv ctx (await_all ps sched w).1.1.1
  /\ Forall (Live (await_all ps sched w).1.1.1) (await_all ps sched w).1.1.2.
Proof.
  induction sched as [|[i a] sched IH]; intros ps ctx w Hw Hps; [done|].
  cbn [await_all]. pose proof (Inv_env a _ _ Hw) as Hw1.
  assert (Forall (Live (env_apply a w)) ps) as Hps1.
  { eapply Forall_impl; [exact Hps|]. intros p. apply Live_env. }
  destruct (promise_all ps); [|done..].
  destruct (traced_resume i ps ctx (env_apply a w) Hw1 Hps1) as [Hw' Hps'].
  destruct (resume i ps (env_apply a w)) as [w' ps']. cbn [fst snd] in *.
  destruct (promise_all ps'); [by apply IH|done..].
Qed.

Lemma traced_begin_all_live calls : forall ctx w q,
  Live w q -> Live (begin_all calls ctx w).1.2 q.
Proof.
  induction calls as [|[id fn] calls IH]; intros ctx w q Hq; [done|].
  cbn [begin_all]. pose proof (Live_begin id fn ctx w q Hq) as Hq1.
  destruct (step_begin id fn ctx w) as [[ctx1 w1] p]. cbn [fst snd] in Hq1.
  specialize (IH ctx1 w1 q Hq1).
  by destruct (begin_all calls ctx1 w1) as [[ctx2 w2] ps].
Qed.

Lemma traced_begin_all calls : forall ctx w,
  Inv ctx w ->
  Inv (begin_all calls ctx w).1.1 (begin_all calls ctx w).1.2
  /\ Forall (Live (begin_all calls ctx w).1.2) (begin_all calls ctx w).2.
Proof.
  induction calls as [|[id fn] calls IH]; intros ctx w Hw; [by split|].
  cbn [begin_all]. destruct (Inv_begin id fn ctx w Hw) as [Hw1 Hp].
  destruct (step_begin id fn ctx w) as [[ctx1 w1] p]. cbn [fst snd] in Hw1, Hp.
  destruct (IH ctx1 w1 Hw1) as [Hw2 Hps].
  pose proof (traced_begin_all_live calls ctx1 w1 p Hp) as Hp2.
  destruct (begin_all calls ctx1 w1) as [[ctx2 w2] ps]. cbn [fst snd] in *.
  split; [done|by constructor].
Qed.

Lemma traced_run wf : forall scheds ctx w,
  Inv ctx w -> Inv (run wf scheds ctx w).1.1 (run wf scheds ctx w).1.2.
Proof.
  induction wf as [|msg ty k IH|id fn k IH|calls k IH]; intros scheds ctx w Hw;
    cbn [run].
  - by apply Inv_log.
  - by apply IH, Inv_log.
  - destruct (Inv_begin id fn ctx w Hw) as [Hw1 Hp].
    destruct (step_begin id fn ctx w) as [[ctx1 w1] p]. cbn [fst snd] in Hw1, Hp.
    pose proof (traced_await_step (hd [] scheds) p ctx1 w1 Hw1 Hp) as Hw2.
    destruct (await_step p (hd [] scheds) w1) as [w2 p2]. cbn [fst] in Hw2.
    destruct p2 as [v|e| |]; [by apply IH| |done..].
    unfold pass_catch. destruct (decide _); cbn; [done|by apply Inv_log].
  - destruct (traced_begin_all calls ctx w Hw) as [Hw1 Hps].
    destruct (begin_all calls ctx w) as [[ctx1 w1] ps]. cbn [fst snd] in Hw1, Hps.
    destruct (traced_await_all (hd [] scheds) ps ctx1 w1 Hw1 Hps) as [Hw2 Hps2].
    destruct (await_all ps (hd [] scheds) w1) as [[[w2 ps2] rest] st].
    cbn [fst snd] in Hw2, Hps2. destruct st as [|vs|e]; [done|by apply IH|].
    assert (Inv ctx1 (pass_catch e w2).1
            /\ Forall (Live (pass_catch e w2).1) ps2) as [Hw3 Hps3].
    { unfold pass_catch. destruct (decide _); cbn [fst]; [done|].
      split; [by apply Inv_log|]. eapply Forall_impl; [exact Hps2|].
      intros p. apply Live_log. }
    destruct (pass_catch e w2) as [w3 r]. cbn [fst] in Hw3, Hps3.
    pose proof (traced_drain rest ps2 ctx1 w3 Hw3 Hps3) as Hw4.
    by destruct (drain ps2 rest w3) as [w4 ps4].
Qed.
End TracedInvariant.

(** *** The calls are those the workflow code makes *)

Lemma numbered_from_cons c id ids :
  numbered_from c (id :: ids) =
  (id, S c, makeStepKey id (S c)) :: numbered_from (S c) ids.
Proof.
  unfold numbered_from. rewrite imap_cons, Nat.add_0_r. f_equal.
  apply imap_ext. intros i x _. cbn. by rewrite Nat.add_succ_r.
Qed.

Lemma numbered_from_app c ids1 ids2 :
  numbered_from c (ids1 ++ ids2) =
  numbered_from c ids1 ++ numbered_from (c + length ids1) ids2.
Proof.
  revert c. induction ids1 as [|id ids1 IH]; intros c; cbn [app length].
  - by rewrite Nat.add_0_r.
  - rewrite !numbered_from_cons, IH. cbn. by rewrite Nat.add_succ_r.
Qed.

Lemma await_step_calls sched : forall p w,
  calls_of (w_trace (await_step p sched w).1) = calls_of (w_trace w).
Proof.
  induction sched as [|[i a] sched IH]; intros p w; cbn [await_step]; [done|].
  pose proof (advance_calls p (env_apply a w)) as H.
  destruct p as [v|e|rr fn|rr fn]; try done.
  all: cbn [advance] in *;
       match goal with
       | |- context [let '(_, _) := ?x in _] => destruct x as [w' p']
       end;
       cbn [fst] in H; destruct p'; try done; by rewrite IH.
Qed.

Lemma run_calls wf : forall scheds ctx w,
  calls_of (w_trace (run wf scheds ctx w).1.2) =
  calls_of (w_trace w)
  ++ numbered_from (sequenceCounter ctx) (labels_reached wf scheds ctx w).
Proof.
  induction wf as [|msg ty k IH|id fn k IH|calls k IH]; intros scheds ctx w;
    cbn [run labels_reached].
  - cbn. by rewrite app_nil_r.
  - by rewrite IH.
  - pose proof (step_begin_ctx id fn ctx w) as Hctx.
    pose proof (step_begin_calls id fn ctx w) as Hc.
    destruct (step_begin id fn ctx w) as [[ctx1 w1] p]. cbn [fst snd] in *.
    subst ctx1.
    pose proof (await_step_calls (hd [] scheds) p w1) as Ha.
    destruct (await_step p (hd [] scheds) w1) as [w2 p2]. cbn [fst] in Ha.
    rewrite numbered_from_cons.
    destruct p2 as [v|e|rr fn'|rr fn']; cbn [fst snd].
    + rewrite IH, Ha, Hc. by rewrite <-(assoc_L (++)).
    + assert (w_trace (pass_catch e w2).1 = w_trace w2) as Hp
        by (unfold pass_catch; by destruct (decide _)).
      destruct (pass_catch e w2) as [w3 r]. cbn [fst snd] in *.
      by rewrite Hp, Ha, Hc.
    + by rewrite Ha, Hc.
    + by rewrite Ha, Hc.
  - pose proof (begin_all_ctx calls ctx w) as Hctx.
    pose proof (begin_all_calls calls ctx w) as Hc.
    destruct (begin_all calls ctx w) as [[ctx1 w1] ps]. cbn [fst snd] in *.
    pose proof (await_all_calls (hd [] scheds) ps w1) as Ha.
    destruct (await_all ps (hd [] scheds) w1) as [[[w2 ps2] rest] st].
    cbn [fst] in Ha.
    assert (numbered_from (sequenceCounter ctx) (fst <$> calls) =
            imap (fun i call => (call.1, S (sequenceCounter ctx + i),
                                 makeStepKey call.1 (S (sequenceCounter ctx + i))))
              calls) as Hn.
    { unfold numbered_from. by rewrite imap_fmap. }
    rewrite numbered_from_app, Hn, length_fmap, <-Hctx.
    destruct st as [|vs|e]; cbn [fst snd].
    + rewrite Ha, Hc. cbn. by rewrite app_nil_r.
    + rewrite IH, Ha, Hc. by rewrite <-(assoc_L (++)).
    + assert (w_trace (pass_catch e w2).1 = w_trace w2) as Hp
        by (unfold pass_catch; by destruct (decide _)).
      destruct (pass_catch e w2) as [w3 r]. cbn [fst] in Hp.
      assert (forall sched qs x,
                calls_of (w_trace (drain qs sched x).1) = calls_of (w_trace x))
        as Hd.
      { clear. induction sched as [|[i a] sched IHs]; intros qs x; [done|].
        cbn [drain]. pose proof (resume_calls i qs (env_apply a x)) as H.
        destruct (resume i qs (env_apply a x)) as [x' qs']. cbn [fst] in H.
        by rewrite IHs. }
      specialize (Hd rest ps2 w3). destruct (drain ps2 rest w3) as [w4 ps4].
      cbn [fst snd] in *. rewrite Hd, Hp, Ha, Hc. cbn. by rewrite app_nil_r.
Qed.

Lemma labels_of_repeat_step label fn n : forall scheds ctx w,
  (run (repeat_step label fn n) scheds ctx w).2 = PassCompleted ->
  labels_reached (repeat_step label fn n) scheds ctx w = replicate n label.
Proof.
  induction n as [|n IH]; intros scheds ctx w; [done|].
  cbn [repeat_step run labels_reached replicate].
  destruct (step_begin label fn ctx w) as [[ctx1 w1] p].
  destruct (await_step p (hd [] scheds) w1) as [w2 p2].
  destruct p2 as [v|e|rr fn'|rr fn']; [| |done..].
  - intros H. f_equal. by apply IH.
  - unfold pass_catch. by destruct (decide _).
Qed.

(** *** The records are those of the calls *)

Section WrittenByCalls.
Variable t0 : list Event.

Lemma written_by_quiet l evs w w' :
  w_trace w' = w_trace w ++ evs ->
  (forall e, e ∈ evs ->
     match e with ECall _ _ _ | EUpdate _ => False | _ => True end) ->
  written_by t0 l w -> written_by t0 l w'.
Proof.
  intros Ht Hq [Hc Hu]. split.
  - rewrite <-Hc, Ht. unfold calls_of. rewrite omap_app.
    assert (calls_of evs = []) as Hnil.
    { clear Ht. induction evs as [|e evs IH]; [done|].
      pose proof (Hq e (list_elem_of_here _ _)) as He.
      assert (calls_of evs = []) as Hevs.
      { apply IH. intros e' He'. apply Hq. by apply list_elem_of_further. }
      destruct e; try done; exact Hevs. }
    unfold calls_of in Hnil. by rewrite Hnil, app_nil_r.
  - intros rec. rewrite Ht. intros [?|Hin]%elem_of_app; [auto|].
    by destruct (Hq _ Hin).
Qed.

Lemma written_by_call l id n key w :
  written_by t0 l w -> written_by t0 (l ++ [(id, n, key)]) (emit (ECall id n key) w).
Proof.
  intros [Hc Hu]. split.
  - rewrite calls_of_emit, Hc. by rewrite <-(assoc_L (++)).
  - intros rec. cbn. intros [Hin|Hin%list_elem_of_singleton]%elem_of_app; [|done].
    destruct (Hu rec Hin) as [?|?]; [by left|right]. apply elem_of_app. by left.
Qed.

Lemma written_by_update l rec w :
  call_of_record rec ∈ l ->
  written_by t0 l w -> written_by t0 l (onStepUpdate rec w).
Proof.
  intros Hrec [Hc Hu]. split.
  - unfold onStepUpdate. rewrite calls_of_emit. cbn. by rewrite app_nil_r.
  - intros rec'. cbn.
    intros [Hin|Hin%list_elem_of_singleton]%elem_of_app; [auto|].
    simplify_eq. by right.
Qed.

Lemma pending_call_grows w w' l' p :
  calls_of (w_trace w') = calls_of (w_trace w) ++ l' ->
  pending_call t0 w p -> pending_call t0 w' p.
Proof.
  intros Hc. destruct p as [v|e|rr fn|rr fn]; try done.
  all: intros (l & Hl & Hin); exists (l ++ l');
       (split; [rewrite Hc, Hl; by rewrite <-(assoc_L (++))|]);
       apply elem_of_app; by left.
Qed.

Lemma written_begin id fn ctx w :
  written_by_calls t0 w ->
  written_by_calls t0 (step_begin id fn ctx w).1.2
  /\ pending_call t0 (step_begin id fn ctx w).1.2 (step_begin id fn ctx w).2.
Proof.
  intros [l Hw].
  pose proof (written_by_call l id (S (sequenceCounter ctx))
                (makeStepKey id (S (sequenceCounter ctx))) w Hw) as Hw1.
  destruct (step_begin_spec id fn ctx w) as [r Hr|Hm Hc|Hm Hc]; cbn [fst snd].
  - split; [|done]. eexists. exact Hw1.
  - split; [|done]. eexists.
    eapply (written_by_quiet _ [EPoll true]); [done| |exact Hw1].
    by intros e ->%list_elem_of_singleton.
  - assert (call_of_record (fresh_record id ctx (w_now w))
            ∈ l ++ [(id, S (sequenceCounter ctx),
                     makeStepKey id (S (sequenceCounter ctx)))]) as Hin.
    { apply elem_of_app. right. by apply list_elem_of_singleton. }
    assert (written_by t0
              (l ++ [(id, S (sequenceCounter ctx),
                      makeStepKey id (S (sequenceCounter ctx)))])
              (onStepUpdate (fresh_record id ctx (w_now w))
                 (addLog ("Executing Step [" +:+ id +:+ "] (Seq: "
                          +:+ pretty (S (sequenceCounter ctx)) +:+ ")...") info
                    (emit (EPoll false)
                       (emit (ECall id (S (sequenceCounter ctx))
                                (makeStepKey id (S (sequenceCounter ctx)))) w)))))
      as Hw2.
    { apply written_by_update; [exact Hin|].
      eapply (written_by_quiet _ [EPoll false]); [done| |exact Hw1].
      by intros e ->%list_elem_of_singleton. }
    split; [by eexists|]. eexists. split; [exact (proj1 Hw2)|exact Hin].
Qed.

Lemma written_advance p w :
  written_by_calls t0 w -> pending_call t0 w p ->
  written_by_calls t0 (advance p w).1
  /\ pending_call t0 (advance p w).1 (advance p w).2.
Proof.
  intros [l Hw] Hp.
  destruct p as [v|e|rr fn|rr fn]; cbn [advance]; try (split; [by exists l|done]).
  - destruct Hp as (l' & Hl' & Hin).
    assert (l' = l) as ->.
    { destruct Hw as [Hc _]. rewrite Hc in Hl'. by simplify_list_eq. }
    destruct (w_isCrashed w) eqn:Hc.
    + rewrite step_wake_crashed by done. split; [|done]. exists l.
      eapply (written_by_quiet _ [EPoll true]); [done| |exact Hw].
      by intros e ->%list_elem_of_singleton.
    + rewrite step_wake_invokes by done.
      assert (written_by t0 l
                (emit (EInvoke (stepKey rr)) (emit (EPoll false) w))) as Hw'.
      { eapply (written_by_quiet _ [EPoll false; EInvoke (stepKey rr)]);
          [cbn; by rewrite <-(assoc_L (++))| |exact Hw].
        intros e He. by repeat (apply elem_of_cons in He as [->|He]; [done|]);
          inversion He. }
      split; [by exists l|]. exists l. split; [exact (proj1 Hw')|done].
  - destruct Hp as (l' & Hl' & Hin).
    assert (l' = l) as ->.
    { destruct Hw as [Hc _]. rewrite Hc in Hl'. by simplify_list_eq. }
    destruct fn as [v|e|u].
    + rewrite step_settle_resolved. split; [|done]. exists l.
      by apply written_by_update.
    + rewrite step_settle_rejected. destruct (decide (is_interruption e)).
      * rewrite step_catch_interrupted by done. split; [|done]. by exists l.
      * rewrite step_catch_failed by done. split; [|done]. exists l.
        by apply written_by_update.
    + rewrite step_settle_nullish. split; [|done]. by exists l.
Qed.
End WrittenByCalls.

(** C2. In a pass of any workflow under any schedule, the calls of [step]
    are those the workflow code makes, numbered 1, 2, 3, ... in the order
    it makes them: the i-th call gets sequence number i, without gap or
    reuse, and its step key is [makeStepKey] of its label and i; the step
    keys of the pass are pairwise distinct; every record the pass writes
    carries the label, the sequence number and the step key of one of these
    calls; and a loop that calls [step] with one label n times and
    completes has made n calls, with the numbers 1 to n and n distinct
    keys. *)
Theorem sequence_numbers_of_a_pass :
  forall (wid : string) (wf : Workflow) (scheds : list Schedule) (w : World),
    let w' := (runWorkflow wid wf scheds w).1 in
    let ids := pass_labels wid wf scheds w in
    calls_of (w_trace w') = calls_of (w_trace w) ++ numbered ids
    /\ (fun c => c.1.2) <$> numbered ids = seq 1 (length ids)
    /\ NoDup ((fun c => c.1.2) <$> numbered ids)
    /\ NoDup ((fun c => c.2) <$> numbered ids)
    /\ (forall rec, EUpdate rec ∈ w_trace w' ->
          EUpdate rec ∈ w_trace w
          \/ (stepId rec, sequence rec, stepKey rec) ∈ numbered ids)
    /\ (forall label fn n,
          wf = repeat_step label fn n ->
          (runWorkflow wid wf scheds w).2 = PassCompleted ->
          ids = replicate n label).
Proof.
  intros wid wf scheds w. cbv zeta. unfold runWorkflow, pass_labels.
  set (w0 := addLog _ system w).
  pose proof (run_calls wf scheds (newContext wid (w_db w0)) w0) as Hcalls.
  pose proof (traced_run (fun _ => written_by_calls (w_trace w))
                (pending_call (w_trace w))) as Hrun.
  specialize (Hrun (fun msg ty _ w1 H => H) (fun msg ty w1 p H => H)
                (fun a _ w1 H => H) (fun a w1 p H => H)).
  specialize (Hrun (fun id fn ctx w1 H => written_begin _ id fn ctx w1 H)).
  specialize (Hrun (fun id fn ctx w1 q H =>
    pending_call_grows _ w1 _ _ q (step_begin_calls id fn ctx w1) H)).
  specialize (Hrun (fun p _ w1 H Hp => written_advance _ p w1 H Hp)).
  specialize (Hrun (fun p w1 q H =>
    pending_call_grows _ w1 _ [] q
      (eq_trans (advance_calls p w1) (eq_sym (app_nil_r _))) H)).
  specialize (Hrun wf scheds (newContext wid (w_db w0)) w0).
  destruct (run wf scheds (newContext wid (w_db w0)) w0) as [[ctx1 w1] r]
    eqn:Hr.
  cbn [fst snd] in *.
  change (numbered_from 0 ?l) with (numbered l) in Hcalls.
  split_and!.
  - exact Hcalls.
  - apply numbered_sequences.
  - rewrite numbered_sequences. apply NoDup_seq.
  - apply numbered_keys_NoDup.
  - intros rec Hrec. destruct Hrun as (l & Hl & Hu).
    { exists []. split; [by rewrite app_nil_r|]. intros rec' ?. by left. }
    assert (l = numbered (labels_reached wf scheds (newContext wid (w_db w0)) w0))
      as -> by (rewrite Hcalls in Hl; by simplify_list_eq).
    by apply Hu.
  - intros label fn n -> Hdone. apply labels_of_repeat_step.
    by rewrite Hr.
Qed.

Lemma sequence_numbers_of_a_pass_witness :
  calls_of (w_trace (runWorkflow "wf-1"
                       (repeat_step "Charge" (Resolves (JString "ok")) 3)
                       [in_order 1; in_order 1; in_order 1] empty_world).1)
  = [("Charge", 1, "Charge_seq_1"); ("Charge", 2, "Charge_seq_2");
     ("Charge", 3, "Charge_seq_3")].
Proof.
  destruct (sequence_numbers_of_a_pass "wf-1"
              (repeat_step "Charge" (Resolves (JString "ok")) 3)
              [in_order 1; in_order 1; in_order 1] empty_world)
    as (Hcalls & _ & _ & _ & _ & Hloop).
  rewrite Hcalls, (Hloop "Charge" (Resolves (JString "ok")) 3 eq_refl).
  - reflexivity.
  - vm_compute. reflexivity.
Defined.

(** ** The onboarding workflow, crashed and resumed *)

(** First pass: the three first steps complete; the crash button is
    pressed while the second branch is at work, so its result is still
    committed and the last step is interrupted on entry, leaving no record.
    Second pass: the three COMPLETED steps are served from the store
    without invoking their work, the last step runs with sequence number 4,
    and the pass completes. *)
Example onboarding_crash_and_resume :
  let '(w1, first) :=
    runWorkflow WORKFLOW_ID onboarding
      [in_order 1; [(0, idle); (0, idle); (1, idle); (1, crash)]] empty_world in
  let '(w2, second) :=
    runWorkflow WORKFLOW_ID onboarding [[(0, recover)]; []; in_order 1]
      (mkWorld (w_db w1) (w_logs w1) (w_isCrashed w1) (w_now w1) []) in
  first = PassInterrupted
  /\ ((fun r => (stepKey r, status r)) <$> w_db w1) =
     [("Create Employee Record_seq_1", COMPLETED);
      ("Provision Laptop_seq_2", COMPLETED);
      ("Configure Access_seq_3", COMPLETED)]
  /\ second = PassCompleted
  /\ invocations_of (w_trace w2) = ["Send Welcome Email_seq_4"]
  /\ ((fun r => (stepKey r, status r)) <$> w_db w2) =
     [("Create Employee Record_seq_1", COMPLETED);
      ("Provision Laptop_seq_2", COMPLETED);
      ("Configure Access_seq_3", COMPLETED);
      ("Send Welcome Email_seq_4", COMPLETED)].
Proof. vm_compute. done. Qed.

(** * Further properties of the code *)

(** ** The store as a table keyed by workflow id and step key *)

Lemma find_existing_cons wid c x db key :
  find_existing (mkCtx wid c (x :: db)) key =
  if decide (workflowId x = wid /\ stepKey x = key) then Some x
  else find_existing (mkCtx wid c db) key.
Proof.
  unfold find_existing. cbn [ctx_db ctx_workflowId list_find].
  destruct (decide (workflowId x = wid /\ stepKey x = key)) as [H|H]; [done|].
  by destruct (list_find _ db) as [[i y]|].
Qed.

Lemma find_after_update record c db :
  find_existing (mkCtx (workflowId record) c (handleStepUpdate record db))
    (stepKey record) = Some record.
Proof.
  induction db as [|x db IH].
  - rewrite handleStepUpdate_nil, find_existing_cons. by rewrite decide_True.
  - rewrite handleStepUpdate_cons. destruct (decide (stepKey x = stepKey record)).
    + rewrite find_existing_cons. by rewrite decide_True.
    + rewrite find_existing_cons. rewrite decide_False by (intros [_ ?]; done).
      exact IH.
Qed.

Lemma find_other_after_update record wid c db key :
  key <> stepKey record ->
  find_existing (mkCtx wid c (handleStepUpdate record db)) key =
  find_existing (mkCtx wid c db) key.
Proof.
  intros Hne. induction db as [|x db IH].
  - rewrite handleStepUpdate_nil, find_existing_cons.
    by rewrite decide_False by (intros [_ ?]; done).
  - rewrite handleStepUpdate_cons. destruct (decide (stepKey x = stepKey record)) as [He|He].
    + rewrite !find_existing_cons.
      rewrite !decide_False by (intros [_ ?]; congruence). done.
    + rewrite !find_existing_cons. destruct (decide _); [done|exact IH].
Qed.

(** X1. [handleStepUpdate] followed by the lookup of [step] is a round
    trip: whatever the array held, a context of the workflow of the record
    finds the record just written under its key, and the lookup of every
    other key, for every workflow id, gives what it gave before. *)
Theorem update_then_lookup :
  forall (record : StepRecord) (db : list StepRecord) (wid : string)
         (c : nat) (key : string),
    find_existing (mkCtx (workflowId record) c (handleStepUpdate record db))
      (stepKey record) = Some record
    /\ (key <> stepKey record ->
        find_existing (mkCtx wid c (handleStepUpdate record db)) key =
        find_existing (mkCtx wid c db) key).
Proof.
  intros record db wid c key. split.
  - apply find_after_update.
  - apply find_other_after_update.
Qed.

(** X2. [handleStepUpdate] never drops or moves a record of another key:
    writing a key the array has leaves the list of keys, in order, as it
    was, and so the length; writing a new key appends the record at the
    end.  Of two writes of one key only the last one shows. *)
Theorem update_shape :
  forall (r1 r2 : StepRecord) (db : list StepRecord),
    (stepKey r1 ∈ (stepKey <$> db) ->
       (stepKey <$> handleStepUpdate r1 db) = (stepKey <$> db)
       /\ length (handleStepUpdate r1 db) = length db)
    /\ (stepKey r1 ∉ (stepKey <$> db) -> handleStepUpdate r1 db = db ++ [r1])
    /\ (stepKey r1 = stepKey r2 ->
        handleStepUpdate r2 (handleStepUpdate r1 db) = handleStepUpdate r2 db).
Proof.
  intros r1 r2 db. split_and!.
  - intros Hin. pose proof (handleStepUpdate_keys r1 db Hin) as Hk.
    split; [done|]. apply (f_equal length) in Hk. by rewrite !length_fmap in Hk.
  - apply handleStepUpdate_keys_new.
  - apply handleStepUpdate_twice.
Qed.

(** ** The log *)

Lemma addLog_length msg ty w :
  length (w_logs (addLog msg ty w)) = 50 `min` S (length (w_logs w)).
Proof. cbn. by rewrite length_take. Qed.

Lemma logs_bounded_log msg ty w : logs_bounded (addLog msg ty w).
Proof. unfold logs_bounded. rewrite addLog_length. lia. Qed.

Lemma logs_bounded_update r w :
  logs_bounded w -> logs_bounded (onStepUpdate r w).
Proof. intros H. exact H. Qed.

Lemma logs_bounded_begin id fn ctx w :
  logs_bounded w -> logs_bounded (step_begin id fn ctx w).1.2.
Proof.
  intros Hw. destruct (step_begin_spec id fn ctx w); cbn [fst snd].
  - apply logs_bounded_log.
  - exact Hw.
  - apply logs_bounded_update, logs_bounded_log.
Qed.

Lemma logs_bounded_advance p w :
  logs_bounded w -> logs_bounded (advance p w).1.
Proof.
  intros Hw. destruct p as [v|e|rr fn|rr fn]; cbn [advance]; try done.
  - destruct (w_isCrashed w) eqn:Hc.
    + rewrite step_wake_crashed by done. apply logs_bounded_log.
    + rewrite step_wake_invokes by done. exact Hw.
  - destruct fn as [v|e|u].
    + rewrite step_settle_resolved. apply logs_bounded_log.
    + rewrite step_settle_rejected. unfold step_catch.
      destruct (decide _); apply logs_bounded_log.
    + exact Hw.
Qed.

(** X3. [addLog] puts the new entry first and keeps at most fifty
    entries; whatever the log held before, after a pass of any workflow
    under any schedule it holds between one and fifty entries. *)
Theorem log_is_bounded :
  forall (msg : string) (ty : LogType) (wid : string) (wf : Workflow)
         (scheds : list Schedule) (w : World),
    head (w_logs (addLog msg ty w)) = Some (mkLog msg ty (w_now w))
    /\ length (w_logs (addLog msg ty w)) = 50 `min` S (length (w_logs w))
    /\ 1 <= length (w_logs (runWorkflow wid wf scheds w).1) <= 50.
Proof.
  intros msg ty wid wf scheds w.
  split; [done|]. split; [apply addLog_length|].
  unfold runWorkflow. set (w0 := addLog _ system w).
  pose proof (run_inv (fun _ => logs_bounded) (fun _ => True)) as H.
  specialize (H (fun msg ty _ w _ => logs_bounded_log msg ty w)).
  specialize (H (fun a _ w Hw => Hw)).
  specialize (H (fun id fn ctx w Hw => conj (logs_bounded_begin id fn ctx w Hw) I)).
  specialize (H (fun p _ w Hw _ => conj (logs_bounded_advance p w Hw) I)).
  specialize (H wf scheds (newContext wid (w_db w0)) w0 (logs_bounded_log _ _ _)).
  by destruct (run wf scheds _ w0) as [[ctx1 w1] r].
Qed.

(** ** The table view *)

Lemma insert_by_sequence_perm x l : insert_by_sequence x l ≡ₚ x :: l.
Proof.
  induction l as [|y l IH]; cbn; [done|].
  destruct (decide _); [done|]. rewrite IH. apply Permutation_swap.
Qed.

Lemma sort_by_sequence_perm db : sort_by_sequence db ≡ₚ db.
Proof.
  induction db as [|x db IH]; cbn; [done|].
  by rewrite insert_by_sequence_perm, IH.
Qed.

Lemma insert_by_sequence_sorted x l :
  StronglySorted (fun a b => sequence a <= sequence b) l ->
  StronglySorted (fun a b => sequence a <= sequence b) (insert_by_sequence x l).
Proof.
  induction 1 as [|y l Hl IH Hy]; cbn.
  - repeat constructor.
  - destruct (decide (sequence x <= sequence y)) as [Hle|Hgt].
    + constructor; [by constructor|]. constructor; [done|].
      eapply Forall_impl; [exact Hy|]. intros z Hz. cbn in *. lia.
    + constructor; [done|]. rewrite insert_by_sequence_perm.
      constructor; [lia|done].
Qed.

Lemma sort_by_sequence_sorted db :
  StronglySorted (fun a b => sequence a <= sequence b) (sort_by_sequence db).
Proof.
  induction db as [|x db IH]; cbn; [constructor|].
  by apply insert_by_sequence_sorted.
Qed.

(** In an array with one record per key the lookup of [step] does not
    depend on the order of the records. *)
Lemma find_existing_perm wid c db1 db2 key :
  db1 ≡ₚ db2 -> NoDup (stepKey <$> db1) ->
  find_existing (mkCtx wid c db1) key = find_existing (mkCtx wid c db2) key.
Proof.
  intros Hp Hnd.
  assert (NoDup (stepKey <$> db2)) as Hnd2 by (by rewrite <-Hp).
  destruct (find_existing (mkCtx wid c db1) key) as [r|] eqn:H1.
  - apply find_existing_Some in H1 as (Hin & Hw & <-). cbn in Hin, Hw.
    symmetry. apply find_existing_elem; [done| |done]. by rewrite <-Hp.
  - destruct (find_existing (mkCtx wid c db2) key) as [r|] eqn:H2; [|done].
    apply find_existing_Some in H2 as (Hin & Hw & <-). cbn in Hin, Hw.
    rewrite <-Hp in Hin.
    rewrite (find_existing_elem wid c db1 r) in H1 by done. done.
Qed.

(** X4. The table view sorts the [db] array by sequence number.  The
    sorted array has the same records, in ascending order of sequence
    number, and, when the array holds one record per step key, the lookup of
    [step] finds in it what it found before: rendering the table does not
    change what a pass replays. *)
Theorem table_sort_keeps_lookups :
  forall (db : list StepRecord) (wid : string) (c : nat) (key : string),
    NoDup (stepKey <$> db) ->
    sort_by_sequence db ≡ₚ db
    /\ StronglySorted (fun a b => sequence a <= sequence b) (sort_by_sequence db)
    /\ find_existing (mkCtx wid c (sort_by_sequence db)) key =
       find_existing (mkCtx wid c db) key.
Proof.
  intros db wid c key Hnd. split_and!.
  - apply sort_by_sequence_perm.
  - apply sort_by_sequence_sorted.
  - apply find_existing_perm; [apply sort_by_sequence_perm|].
    by rewrite sort_by_sequence_perm.
Qed.

Lemma table_sort_keeps_lookups_witness :
  sort_by_sequence
    [mkStepRecord "wf-1" "Ship_seq_2" "Ship" 2 RUNNING JNull None 0;
     mkStepRecord "wf-1" "Charge_seq_1" "Charge" 1 COMPLETED (JString "ok") None 0]
  ≡ₚ [mkStepRecord "wf-1" "Ship_seq_2" "Ship" 2 RUNNING JNull None 0;
      mkStepRecord "wf-1" "Charge_seq_1" "Charge" 1 COMPLETED (JString "ok") None 0].
Proof.
  apply (table_sort_keeps_lookups _ "wf-1" 0 "Charge_seq_1").
  apply NoDup_cons. split; [|apply NoDup_singleton].
  intros H. apply list_elem_of_singleton in H. discriminate H.
Defined.

(** ** The workflow canvas *)

Lemma getStep_Some db id r :
  getStep db id = Some r -> r ∈ db /\ stepId r = id.
Proof.
  unfold getStep. destruct (list_find _ db) as [[i x]|] eqn:Hf; [|done].
  intros [= ->]. apply list_find_Some in Hf as (Hl & Hid & _).
  split; [by eapply list_elem_of_lookup_2|done].
Qed.

Lemma getStep_None db id :
  getStep db id = None -> forall r, r ∈ db -> stepId r <> id.
Proof.
  unfold getStep. destruct (list_find _ db) as [[i x]|] eqn:Hf; [done|].
  intros _ r Hr. apply list_find_None in Hf.
  by eapply (proj1 (Forall_forall _ _) Hf).
Qed.

(** X5. A node of the workflow canvas looks its label up in the store and
    shows PENDING when there is no record.  As the engine writes no PENDING
    record, on a store without PENDING rows and after any pass on it the
    node shows PENDING exactly when the store holds no record with the
    label of the node. *)
Theorem node_is_pending_iff_no_record :
  forall (wid : string) (wf : Workflow) (scheds : list Schedule) (w : World)
         (id : string),
    (forall r, r ∈ w_db w -> status r <> PENDING) ->
    let db' := w_db (runWorkflow wid wf scheds w).1 in
    node_status db' id = PENDING <-> forall r, r ∈ db' -> stepId r <> id.
Proof.
  intros wid wf scheds w id Hw db'.
  assert (forall r, r ∈ db' -> status r <> PENDING) as Hdb'.
  { destruct (runWorkflow_inv (fun _ => no_pending (w_trace w) (w_db w))
                (fun _ => True)) with (wid := wid) (wf := wf)
                (scheds := scheds) (w := w) as [ctx [_ H]].
    - intros. by apply no_pending_log.
    - intros. by apply no_pending_env.
    - intros. split; [|done]. by apply no_pending_begin.
    - intros. split; [|done]. by apply no_pending_advance.
    - split; auto.
    - intros r Hr. destruct (H r Hr) as [?|[Hs|[Hs|Hs]]]; [by apply Hw|..];
        by rewrite Hs. }
  unfold node_status. destruct (getStep db' id) as [r|] eqn:Hg.
  - apply getStep_Some in Hg as [Hin Hid]. split.
    + intros Hs. by destruct (Hdb' r Hin).
    + intros Hno. by destruct (Hno r Hin).
  - split; [|done]. intros _. by apply getStep_None.
Qed.

Lemma node_is_pending_iff_no_record_witness :
  node_status (w_db (runWorkflow "wf-1" charge [[(0, crash)]] empty_world).1)
    "Ship" = PENDING
  <-> forall r,
        r ∈ w_db (runWorkflow "wf-1" charge [[(0, crash)]] empty_world).1 ->
        stepId r <> "Ship".
Proof.
  apply (node_is_pending_iff_no_record "wf-1" charge [[(0, crash)]] empty_world
           "Ship").
  intros r Hr. inversion Hr.
Defined.

(** ** An error of the work that is named like the interruption *)

(** X6. The [catch] blocks tell an interruption from a failure by the
    message of the error alone.  When the work of a step rejects with an
    error whose message is "WORKFLOW_INTERRUPTED", with the signal clear at
    both polls, no FAILED record is written: the record of the step stays
    RUNNING and the pass ends with the Interrupted outcome. *)
Theorem error_named_like_interruption :
  forall (id : string) (e : JsError) (k : JsValue -> Workflow)
         (ctx : DurableContext) (w : World)
         (i : nat) (a1 : EnvAct) (j : nat) (a2 : EnvAct) (rest : Schedule)
         (scheds : list Schedule),
    memo_miss ctx (makeStepKey id (S (sequenceCounter ctx))) ->
    w_isCrashed w = false ->
    w_isCrashed (env_apply a1 w) = false ->
    message e = WORKFLOW_INTERRUPTED ->
    let key := makeStepKey id (S (sequenceCounter ctx)) in
    let rr := fresh_record id ctx (w_now w) in
    exists w',
      run (AwaitStep id (Rejects e) k) (((i, a1) :: (j, a2) :: rest) :: scheds)
          ctx w = (bump ctx, w', PassInterrupted)
      /\ w_db w' = handleStepUpdate rr (w_db w)
      /\ status rr = RUNNING
      /\ w_trace w' =
         w_trace w ++ [call_event id ctx; EPoll false; EUpdate rr; EPoll false;
                       EInvoke key].
Proof.
  intros id e k ctx w i a1 j a2 rest scheds Hm Hc Hc1 He key rr.
  rewrite run_await_step.
  destruct (await_one_work_interrupted id (Rejects e) a1 a2 ctx w Hm e eq_refl
              He Hc Hc1) as (w' & Heq & Hdb & Ht).
  rewrite Heq. unfold pass_catch. rewrite decide_True by done.
  eexists. split; [reflexivity|]. by split_and!.
Qed.

Lemma error_named_like_interruption_witness :
  exists w',
    run (AwaitStep "Charge" (Rejects (mkError "WORKFLOW_INTERRUPTED"))
           (fun _ => Finish))
        [in_order 1] (newContext "wf-1" []) empty_world =
      (mkCtx "wf-1" 1 [], w', PassInterrupted)
    /\ (status <$> w_db w') = [RUNNING].
Proof.
  destruct (error_named_like_interruption "Charge"
              (mkError "WORKFLOW_INTERRUPTED") (fun _ => Finish)
              (newContext "wf-1" []) empty_world 0 idle 0 idle [] [])
    as (w' & Hrun & Hdb & _).
  - intros r Hr. discriminate Hr.
  - reflexivity.
  - reflexivity.
  - reflexivity.
  - exists w'. split; [exact Hrun|]. rewrite Hdb. reflexivity.
Defined.

(** ** The records a pass writes *)

Section WrittenRecords.
Variable wid : string.
Variable t0 : list Event.
Variable db0 : list StepRecord.

Lemma records_wf_log msg ty w :
  records_wf wid t0 db0 w -> records_wf wid t0 db0 (addLog msg ty w).
Proof. intros H. exact H. Qed.

Lemma records_wf_emit e w :
  match e with EUpdate _ => False | _ => True end ->
  records_wf wid t0 db0 w -> records_wf wid t0 db0 (emit e w).
Proof.
  intros He [Ht Hd]. split; [|done]. cbn.
  intros r [Hr|Hr]%elem_of_app; [auto|].
  apply list_elem_of_singleton in Hr. by subst.
Qed.

Lemma records_wf_update rec w :
  record_wf wid rec ->
  records_wf wid t0 db0 w -> records_wf wid t0 db0 (onStepUpdate rec w).
Proof.
  intros Hrec [Ht Hd]. split; cbn.
  - intros r [Hr|Hr]%elem_of_app; [auto|].
    apply list_elem_of_singleton in Hr. simplify_eq. by right.
  - intros r [->|Hr]%handleStepUpdate_inv; [by right|auto].
Qed.

Lemma recorded_message_nonempty e : recorded_message e <> "".
Proof.
  destruct e as [e|m]; [|done]. cbn. by destruct (decide (message e = "")).
Qed.

Lemma records_wf_begin id fn ctx w :
  ctx_workflowId ctx = wid ->
  records_wf wid t0 db0 w ->
  records_wf wid t0 db0 (step_begin id fn ctx w).1.2
  /\ running_promise wid (step_begin id fn ctx w).2.
Proof.
  intros Hwid Hw.
  destruct (step_begin_spec id fn ctx w) as [r Hr|Hm Hc|Hm Hc]; cbn [fst snd].
  - split; [|done]. by apply records_wf_log, records_wf_emit.
  - split; [|done]. by do 2 (apply records_wf_emit; [done|]).
  - split; [|by split_and!; [done|done|cbn; lia|done|done]].
    apply records_wf_update; [by split_and!; [done|done|cbn; lia|done]|].
    apply records_wf_log. by do 2 (apply records_wf_emit; [done|]).
Qed.

Lemma records_wf_advance p w :
  records_wf wid t0 db0 w -> running_promise wid p ->
  records_wf wid t0 db0 (advance p w).1 /\ running_promise wid (advance p w).2.
Proof.
  intros Hw Hp. destruct p as [v|e|rr fn|rr fn]; cbn [advance]; try done.
  - destruct (w_isCrashed w) eqn:Hc.
    + rewrite step_wake_crashed by done. split; [|done].
      by apply records_wf_log, records_wf_emit.
    + rewrite step_wake_invokes by done. split; [|done].
      by do 2 (apply records_wf_emit; [done|]).
  - destruct Hp as (Hwid & Hkey & Hseq & Hres & Herr).
    destruct fn as [v|e|u].
    + rewrite step_settle_resolved. split; [|done].
      apply records_wf_log, records_wf_update; [|done]. by split_and!.
    + rewrite step_settle_rejected.
      destruct (decide (is_interruption e)).
      * by rewrite step_catch_interrupted.
      * rewrite step_catch_failed by done. split; [|done].
        apply records_wf_log, records_wf_update; [|done].
        split_and!; [done..|]. split; [done|]. eexists. split; [done|].
        apply recorded_message_nonempty.
    + by rewrite step_settle_nullish.
Qed.
End WrittenRecords.

(** X7. Every record a pass hands to [onStepUpdate], and every record it
    leaves in the store that was not there before, carries the workflow id
    of the pass; its step key is [`${id}_seq_${sequence}`] for its own
    label and its own sequence number, which is at least 1; when RUNNING it
    has neither result nor error, when COMPLETED it has no error -- also
    when it replaces a FAILED record -- and when FAILED it has no result
    and an error text that is not empty. *)
Theorem written_records_are_well_formed :
  forall (wid : string) (wf : Workflow) (scheds : list Schedule) (w : World),
    let w' := (runWorkflow wid wf scheds w).1 in
    (forall rec, EUpdate rec ∈ w_trace w' ->
                 EUpdate rec ∈ w_trace w \/ record_wf wid rec)
    /\ (forall rec, rec ∈ w_db w' -> rec ∈ w_db w \/ record_wf wid rec).
Proof.
  intros wid wf scheds w.
  destruct (runWorkflow_inv
              (fun ctx w0 => ctx_workflowId ctx = wid
                             /\ records_wf wid (w_trace w) (w_db w) w0)
              (running_promise wid))
    with (wid := wid) (wf := wf) (scheds := scheds) (w := w) as [ctx [_ H]].
  - intros msg ty ctx w0 [? ?]. by split.
  - intros a ctx w0 [? ?]. by split.
  - intros id fn ctx w0 [Hwid Hw].
    destruct (records_wf_begin wid _ _ id fn ctx w0 Hwid Hw) as [? ?].
    split; [|done]. split; [|done]. by rewrite step_begin_ctx.
  - intros p ctx w0 [Hwid Hw] Hp.
    destruct (records_wf_advance wid _ _ p w0 Hw Hp) as [? ?]. by split.
  - split; [done|]. split; auto.
  - exact H.
Qed.

(** ** Replaying a pass *)

(** *** Records of earlier calls stay *)

Section EarlierRecord.
Variables (rec : StepRecord) (id0 : string) (n : nat).
Hypothesis rec_key : stepKey rec = makeStepKey id0 n.

Lemma earlier_kept_update r ctx w :
  stepKey r <> stepKey rec ->
  earlier_kept rec n ctx w -> earlier_kept rec n ctx (onStepUpdate r w).
Proof.
  intros Hne (Hn & Hnd & Hin). split_and!; [done|..]; cbn.
  - by apply handleStepUpdate_NoDup.
  - by apply handleStepUpdate_other.
Qed.

Lemma earlier_kept_begin id fn ctx w :
  earlier_kept rec n ctx w ->
  earlier_kept rec n (step_begin id fn ctx w).1.1 (step_begin id fn ctx w).1.2
  /\ other_step rec (step_begin id fn ctx w).2.
Proof.
  intros (Hn & Hnd & Hin).
  assert (makeStepKey id (S (sequenceCounter ctx)) <> stepKey rec) as Hne.
  { rewrite rec_key. intros [_ ?]%makeStepKey_inj. lia. }
  destruct (step_begin_spec id fn ctx w) as [r Hr|Hm Hc|Hm Hc]; cbn [fst snd].
  - split; [|done]. split_and!; [cbn; lia|done..].
  - split; [|done]. split_and!; [cbn; lia|done..].
  - split; [|done].
    apply (earlier_kept_update _ (bump ctx)); [done|].
    split_and!; [cbn; lia|done..].
Qed.

Lemma earlier_kept_advance p ctx w :
  earlier_kept rec n ctx w -> other_step rec p ->
  earlier_kept rec n ctx (advance p w).1 /\ other_step rec (advance p w).2.
Proof.
  intros Hw Hp. destruct p as [v|e|rr fn|rr fn]; cbn [advance]; try done;
    cbn in Hp.
  - destruct (w_isCrashed w) eqn:Hc.
    + by rewrite step_wake_crashed.
    + by rewrite step_wake_invokes.
  - destruct fn as [v|e|u].
    + rewrite step_settle_resolved. split; [|done].
      by apply (earlier_kept_update (completed_record rr v (w_now w))).
    + rewrite step_settle_rejected.
      destruct (decide (is_interruption e)).
      * by rewrite step_catch_interrupted.
      * rewrite step_catch_failed by done. split; [|done].
        by apply (earlier_kept_update (failed_record rr e (w_now w))).
    + by rewrite step_settle_nullish.
Qed.

Lemma run_keeps_earlier wf scheds ctx w :
  earlier_kept rec n ctx w ->
  NoDup (stepKey <$> w_db (run wf scheds ctx w).1.2)
  /\ rec ∈ w_db (run wf scheds ctx w).1.2.
Proof.
  intros Hw.
  pose proof (run_inv (earlier_kept rec n) (other_step rec)) as H.
  destruct (H (fun msg ty ctx w Hw => Hw) (fun a ctx w Hw => Hw)
              earlier_kept_begin earlier_kept_advance wf scheds ctx w Hw)
    as (_ & ? & ?).
  done.
Qed.
End EarlierRecord.

(** *** What a fulfilled call leaves in the store *)

Lemma await_step_sleeping_fulfilled rr fn sched w w' v :
  await_step (Sleeping rr fn) sched w = (w', Fulfilled v) ->
  fn = Resolves v
  /\ exists now, w_db w' = handleStepUpdate (completed_record rr v now) (w_db w).
Proof.
  destruct sched as [|[i a1] sched]; cbn [await_step advance]; [done|].
  destruct (w_isCrashed (env_apply a1 w)) eqn:Hc.
  { by rewrite step_wake_crashed. }
  rewrite step_wake_invokes by done.
  destruct sched as [|[j a2] sched]; cbn [await_step advance]; [done|].
  destruct fn as [v0|e|u].
  - rewrite step_settle_resolved. intros [= <- <-]. split; [done|].
    by eexists.
  - rewrite step_settle_rejected. unfold step_catch. by destruct (decide _).
  - by rewrite step_settle_nullish.
Qed.

Lemma snapshot_kept_update ctx rec w :
  NoDup (stepKey <$> ctx_db ctx) ->
  memo_miss ctx (stepKey rec) ->
  snapshot_kept ctx w -> snapshot_kept ctx (onStepUpdate rec w).
Proof.
  intros Hnd Hm Hs r Hin Hwid Hc. cbn. apply handleStepUpdate_other; [|by apply Hs].
  intros Hk. apply (Hm r); [|done]. rewrite <-Hk.
  destruct ctx as [wid c db]. cbn in Hnd, Hin, Hwid.
  by apply find_existing_elem.
Qed.

Lemma served_other wid db key v rec :
  key <> stepKey rec ->
  served wid db key v -> served wid (handleStepUpdate rec db) key v.
Proof.
  intros Hne (r & Hin & Hw & Hk & Hs & Hv). exists r.
  split_and!; [|done..]. apply handleStepUpdate_other; [congruence|done].
Qed.

Lemma memo_hit_served ctx w key r :
  snapshot_kept ctx w -> memo_hit ctx key r ->
  served (ctx_workflowId ctx) (w_db w) key (result r).
Proof.
  intros Hs [Hf Hc]. apply find_existing_Some in Hf as (Hin & Hw & Hk).
  exists r. split_and!; [by apply Hs|done..].
Qed.

(** An awaited step that fulfils leaves its value stored under its key. *)
Lemma step_fulfilled_served id fn ctx w sched w' v :
  NoDup (stepKey <$> ctx_db ctx) -> NoDup (stepKey <$> w_db w) ->
  snapshot_kept ctx w ->
  await_step (step_begin id fn ctx w).2 sched (step_begin id fn ctx w).1.2
    = (w', Fulfilled v) ->
  NoDup (stepKey <$> w_db w') /\ snapshot_kept ctx w'
  /\ served (ctx_workflowId ctx) (w_db w')
       (makeStepKey id (S (sequenceCounter ctx))) v.
Proof.
  intros Hndc Hnd Hs.
  destruct (step_begin_spec id fn ctx w) as [r Hr|Hm Hc|Hm Hc]; cbn [fst snd].
  - rewrite await_step_settled by done. intros [= <- <-].
    assert (forall x, w_db (yield sched x) = w_db x) as Hy
      by (intros x; by destruct sched as [|[]]).
    split_and!.
    + by rewrite Hy.
    + intros r' ???. rewrite Hy. by apply Hs.
    + rewrite Hy. by apply (memo_hit_served ctx w).
  - by rewrite await_step_settled.
  - intros [-> [now Hdb]]%await_step_sleeping_fulfilled.
    set (rr := fresh_record id ctx (w_now w)) in *.
    set (w1 := onStepUpdate rr _) in *.
    assert (snapshot_kept ctx w1) as Hs1 by by apply snapshot_kept_update.
    split_and!.
    + rewrite Hdb. by do 2 apply handleStepUpdate_NoDup.
    + intros r Hin Hwid Hc'. rewrite Hdb.
      apply (snapshot_kept_update ctx (completed_record rr v now) w1);
        [done|done|done|done..].
    + exists (completed_record rr v now). rewrite Hdb.
      split_and!; [apply handleStepUpdate_elem|done..].
Qed.

(** *** What a fulfilled group leaves in the store *)

Lemma branch_served_other ctx c i call db p rec :
  makeStepKey call.1 (S (c + i)) <> stepKey rec ->
  branch_served ctx c i call db p ->
  branch_served ctx c i call (handleStepUpdate rec db) p.
Proof.
  intros Hne. destruct p as [v|e|rr fn|rr fn]; cbn; try done.
  by apply served_other.
Qed.

(** Branch [j] moves to [p'], writing at most a record of its own key. *)
Lemma group_served_step ctx c calls ps w j call w' p' :
  NoDup (stepKey <$> ctx_db ctx) ->
  group_served ctx c calls ps w ->
  calls !! j = Some call ->
  (w_db w' = w_db w
   \/ exists rec, stepKey rec = makeStepKey call.1 (S (c + j))
                  /\ memo_miss ctx (stepKey rec)
                  /\ w_db w' = handleStepUpdate rec (w_db w)) ->
  branch_served ctx c j call (w_db w') p' ->
  group_served ctx c calls (<[j := p']> ps) w'.
Proof.
  intros Hndc (Hnd & Hs & Hlen & Hbr) Hcall Hdb Hp'.
  assert (j < length ps) as Hj.
  { rewrite Hlen. by eapply lookup_lt_Some. }
  destruct Hdb as [Hdb|(rec & Hk & Hm & Hdb)].
  - split_and!.
    + by rewrite Hdb.
    + intros r ???. rewrite Hdb. by apply Hs.
    + by rewrite length_insert.
    + intros i call' p Hc Hp. destruct (decide (i = j)) as [->|Hne].
      * rewrite list_lookup_insert_eq in Hp by done. congruence.
      * rewrite list_lookup_insert_ne in Hp by done. rewrite Hdb. by apply Hbr.
  - pose proof (snapshot_kept_update ctx rec w Hndc Hm Hs) as Hs'.
    split_and!.
    + rewrite Hdb. by apply handleStepUpdate_NoDup.
    + intros r ???. rewrite Hdb. by apply Hs'.
    + by rewrite length_insert.
    + intros i call' p Hc Hp. destruct (decide (i = j)) as [->|Hne].
      * rewrite list_lookup_insert_eq in Hp by done. congruence.
      * rewrite list_lookup_insert_ne in Hp by done. rewrite Hdb.
        apply branch_served_other; [|by apply Hbr].
        rewrite Hk. intros [_ ?]%makeStepKey_inj. lia.
Qed.

Lemma resume_group_served ctx c calls ps j w :
  NoDup (stepKey <$> ctx_db ctx) ->
  group_served ctx c calls ps w ->
  group_served ctx c calls (resume j ps w).2 (resume j ps w).1.
Proof.
  intros Hndc HG. unfold resume. destruct (ps !! j) as [pj|] eqn:Hj; [|done].
  pose proof HG as (Hnd & Hs & Hlen & Hbr).
  destruct (lookup_lt_is_Some_2 calls j) as [call Hcall].
  { rewrite <-Hlen. by eapply lookup_lt_Some. }
  specialize (Hbr j call pj Hcall Hj).
  destruct pj as [v|e|rr fn|rr fn]; cbn [advance].
  - cbn [fst snd]. by apply (group_served_step ctx c calls ps w j call); [..|left|].
  - cbn [fst snd]. by apply (group_served_step ctx c calls ps w j call); [..|left|].
  - destruct (w_isCrashed w) eqn:Hc.
    + rewrite step_wake_crashed by done. cbn [fst snd].
      by apply (group_served_step ctx c calls ps w j call); [..|left|].
    + rewrite step_wake_invokes by done. cbn [fst snd].
      by apply (group_served_step ctx c calls ps w j call); [..|left|].
  - cbn in Hbr. destruct Hbr as (Hk & Hw & Hm). destruct fn as [v|e|u].
    + rewrite step_settle_resolved. cbn [fst snd].
      apply (group_served_step ctx c calls ps w j call); [done..| |].
      * right. by exists (completed_record rr v (w_now w)).
      * exists (completed_record rr v (w_now w)).
        split_and!; [apply handleStepUpdate_elem|done..].
    + rewrite step_settle_rejected.
      destruct (decide (is_interruption e)).
      * rewrite step_catch_interrupted by done. cbn [fst snd].
        by apply (group_served_step ctx c calls ps w j call); [..|left|].
      * rewrite step_catch_failed by done. cbn [fst snd].
        apply (group_served_step ctx c calls ps w j call); [done..| |done].
        right. by exists (failed_record rr e (w_now w)).
    + rewrite step_settle_nullish. cbn [fst snd].
      by apply (group_served_step ctx c calls ps w j call); [..|left|].
Qed.

Lemma await_all_group_served ctx c calls sched : forall ps w,
  NoDup (stepKey <$> ctx_db ctx) ->
  group_served ctx c calls ps w ->
  group_served ctx c calls (await_all ps sched w).1.1.2
    (await_all ps sched w).1.1.1.
Proof.
  induction sched as [|[i a] sched IH]; intros ps w Hndc HG; cbn [await_all];
    [done|].
  destruct (promise_all ps) eqn:H; [|exact HG..].
  pose proof (resume_group_served ctx c calls ps i (env_apply a w) Hndc HG) as HG'.
  destruct (resume i ps (env_apply a w)) as [w' ps'].
  destruct (promise_all ps') eqn:H'; [by apply IH|exact HG'..].
Qed.

Lemma step_begin_branch_served id fn ctx w :
  NoDup (stepKey <$> ctx_db ctx) -> NoDup (stepKey <$> w_db w) ->
  snapshot_kept ctx w ->
  NoDup (stepKey <$> w_db (step_begin id fn ctx w).1.2)
  /\ snapshot_kept ctx (step_begin id fn ctx w).1.2
  /\ forall w2, snapshot_kept ctx w2 ->
       branch_served ctx (sequenceCounter ctx) 0 (id, fn) (w_db w2)
         (step_begin id fn ctx w).2.
Proof.
  intros Hndc Hnd Hs.
  destruct (step_begin_spec id fn ctx w) as [r Hr|Hm Hc|Hm Hc]; cbn [fst snd].
  - split_and!; [done..|]. intros w2 Hs2. cbn. rewrite Nat.add_0_r.
    by apply memo_hit_served.
  - done.
  - split_and!.
    + by apply handleStepUpdate_NoDup.
    + by apply snapshot_kept_update.
    + intros w2 _. cbn. by rewrite Nat.add_0_r.
Qed.

Lemma begin_all_context calls : forall ctx w,
  (begin_all calls ctx w).1.1 =
  mkCtx (ctx_workflowId ctx) (sequenceCounter ctx + length calls) (ctx_db ctx).
Proof.
  induction calls as [|[id fn] calls IH]; intros ctx w; cbn [begin_all].
  - destruct ctx. cbn. by rewrite Nat.add_0_r.
  - pose proof (step_begin_ctx id fn ctx w) as Hctx.
    destruct (step_begin id fn ctx w) as [[ctx1 w1] p]. cbn [fst snd] in Hctx.
    subst ctx1. specialize (IH (bump ctx) w1).
    destruct (begin_all calls (bump ctx) w1) as [[ctx2 w2] ps].
    cbn [fst snd] in *. rewrite IH. cbn. by rewrite Nat.add_succ_r.
Qed.

Lemma begin_all_group_served calls : forall ctx w,
  NoDup (stepKey <$> ctx_db ctx) -> NoDup (stepKey <$> w_db w) ->
  snapshot_kept ctx w ->
  group_served ctx (sequenceCounter ctx) calls (begin_all calls ctx w).2
    (begin_all calls ctx w).1.2.
Proof.
  induction calls as [|[id fn] calls IH]; intros ctx w Hndc Hnd Hs;
    cbn [begin_all].
  - split_and!; [done..|]. intros i call p Hc. by rewrite lookup_nil in Hc.
  - destruct (step_begin_branch_served id fn ctx w) as (Hnd1 & Hs1 & Hhead);
      [done..|].
    pose proof (step_begin_ctx id fn ctx w) as Hctx.
    destruct (step_begin id fn ctx w) as [[ctx1 w1] p]. cbn [fst snd] in *.
    subst ctx1. specialize (IH (bump ctx) w1 Hndc Hnd1 Hs1).
    destruct (begin_all calls (bump ctx) w1) as [[ctx2 w2] ps].
    cbn [fst snd] in *. destruct IH as (Hnd2 & Hs2 & Hlen & Hbr).
    split_and!; [done|done|cbn; by rewrite Hlen|].
    intros [|i] call q Hc Hq; cbn in Hc, Hq.
    + injection Hc as <-. injection Hq as <-. by apply Hhead.
    + specialize (Hbr i call q Hc Hq). revert Hbr. unfold branch_served.
      rewrite Nat.add_succ_r. cbn [bump sequenceCounter ctx_workflowId plus].
      by destruct q.
Qed.

Lemma group_served_fulfilled ctx c calls vs w :
  group_served ctx c calls (Fulfilled <$> vs) w ->
  length vs = length calls
  /\ forall i call v, calls !! i = Some call -> vs !! i = Some v ->
       served (ctx_workflowId ctx) (w_db w) (makeStepKey call.1 (S (c + i))) v.
Proof.
  intros (_ & _ & Hlen & Hbr). rewrite length_fmap in Hlen. split; [done|].
  intros i call v Hc Hv. apply (Hbr i call (Fulfilled v)); [done|].
  by rewrite list_lookup_fmap, Hv.
Qed.

(** *** A pass over a store that serves every call *)

Lemma silent_trans w1 w2 w3 : silent w1 w2 -> silent w2 w3 -> silent w1 w3.
Proof. intros [? ?] [? ?]. split; congruence. Qed.

Lemma silent_log msg ty w : silent w (addLog msg ty w).
Proof. done. Qed.

Lemma silent_yield sched w : silent w (yield sched w).
Proof. by destruct sched as [|[]]. Qed.

Lemma silent_call id n key w : silent w (emit (ECall id n key) w).
Proof.
  split; [done|]. unfold effects_of. cbn. rewrite omap_app. cbn.
  by rewrite app_nil_r.
Qed.

Lemma step_begin_served id fn wid c db w v :
  NoDup (stepKey <$> db) -> served wid db (makeStepKey id (S c)) v ->
  exists w', step_begin id fn (mkCtx wid c db) w
             = (mkCtx wid (S c) db, w', Fulfilled v)
             /\ silent w w'.
Proof.
  intros Hnd (r & Hin & Hw & Hk & Hst & Hv).
  assert (find_existing (mkCtx wid c db) (makeStepKey id (S c)) = Some r) as Hf.
  { rewrite <-Hk. by apply find_existing_elem. }
  destruct (step_begin_spec id fn (mkCtx wid c db) w) as [r' [Hf' Hc]|Hm _|Hm _].
  - cbn [sequenceCounter] in Hf'. rewrite Hf in Hf'. injection Hf' as <-.
    eexists. split; [by rewrite Hv|].
    eapply silent_trans; [apply silent_call|apply silent_log].
  - by destruct (Hm r Hf).
  - by destruct (Hm r Hf).
Qed.

Lemma begin_all_served calls : forall wid c db w vs,
  NoDup (stepKey <$> db) -> length vs = length calls ->
  (forall i call v, calls !! i = Some call -> vs !! i = Some v ->
     served wid db (makeStepKey call.1 (S (c + i))) v) ->
  exists w', begin_all calls (mkCtx wid c db) w
             = (mkCtx wid (c + length calls) db, w', Fulfilled <$> vs)
             /\ silent w w'.
Proof.
  induction calls as [|[id fn] calls IH]; intros wid c db w vs Hnd Hlen Hsv.
  - destruct vs; [|done]. exists w. cbn. by rewrite Nat.add_0_r.
  - destruct vs as [|v vs]; [done|]. cbn in Hlen.
    destruct (step_begin_served id fn wid c db w v Hnd) as (w1 & Hb & Hs1).
    { specialize (Hsv 0 (id, fn) v eq_refl eq_refl).
      by rewrite Nat.add_0_r in Hsv. }
    destruct (IH wid (S c) db w1 vs Hnd) as (w2 & Hb2 & Hs2); [lia| |].
    { intros i call v' Hc Hv. specialize (Hsv (S i) call v' Hc Hv).
      by rewrite Nat.add_succ_r in Hsv. }
    exists w2. cbn [begin_all]. rewrite Hb, Hb2. cbn [length].
    rewrite Nat.add_succ_r. split; [done|]. by eapply silent_trans.
Qed.

Lemma promise_all_fmap_fulfilled vs :
  promise_all (Fulfilled <$> vs) = AllFulfilled vs.
Proof. induction vs as [|v vs IH]; [done|]. cbn. by rewrite IH. Qed.

Lemma await_all_fulfilled vs sched w :
  await_all (Fulfilled <$> vs) sched w
  = (yield sched w, Fulfilled <$> vs, tl sched, AllFulfilled vs).
Proof.
  destruct sched as [|[i a] sched]; cbn [await_all];
    by rewrite promise_all_fmap_fulfilled.
Qed.

(** A pass that completed can be replayed from the store it left: every
    call is served, whatever the schedules and the world around. *)
Lemma run_replay wf : forall scheds ctx w ctx' w',
  run wf scheds ctx w = (ctx', w', PassCompleted) ->
  NoDup (stepKey <$> ctx_db ctx) -> NoDup (stepKey <$> w_db w) ->
  snapshot_kept ctx w ->
  NoDup (stepKey <$> w_db w')
  /\ forall scheds2 w2, exists w2',
       run wf scheds2
         (mkCtx (ctx_workflowId ctx) (sequenceCounter ctx) (w_db w')) w2
       = (mkCtx (ctx_workflowId ctx) (sequenceCounter ctx') (w_db w'), w2',
          PassCompleted)
       /\ silent w2 w2'.
Proof.
  induction wf as [|msg ty k IH|id fn k IH|calls k IH];
    intros scheds ctx w ctx' w' Hrun Hndc Hnd Hs.
  - cbn in Hrun. injection Hrun as <- <-. split; [done|].
    intros scheds2 w2. eexists. split; [reflexivity|apply silent_log].
  - cbn [run] in Hrun.
    destruct (IH scheds ctx (addLog msg ty w) ctx' w' Hrun Hndc Hnd Hs)
      as [Hnd' Hrep].
    split; [done|]. intros scheds2 w2.
    destruct (Hrep scheds2 (addLog msg ty w2)) as (w2' & Hr & Hsil).
    exists w2'. split; [exact Hr|].
    eapply silent_trans; [apply silent_log|done].
  - cbn [run] in Hrun.
    pose proof (step_begin_ctx id fn ctx w) as Hctx.
    pose proof (step_fulfilled_served id fn ctx w (hd [] scheds)) as Hfs.
    destruct (step_begin id fn ctx w) as [[ctx1 w1] p]. cbn [fst snd] in *.
    subst ctx1.
    destruct (await_step p (hd [] scheds) w1) as [w1' p'] eqn:Haw.
    destruct p' as [v|e|rr fn'|rr fn'].
    + destruct (Hfs w1' v Hndc Hnd Hs eq_refl) as (Hnd1 & Hs1 & Hsv).
      destruct (IH v (tl scheds) (bump ctx) w1' ctx' w' Hrun Hndc Hnd1 Hs1)
        as [Hnd' Hrep].
      split; [done|]. intros scheds2 w2.
      destruct Hsv as (rec & Hin & Hw & Hk & Hst & Hv).
      destruct (run_keeps_earlier rec id (S (sequenceCounter ctx)) Hk (k v)
                  (tl scheds) (bump ctx) w1') as [_ Hin'].
      { split_and!; [cbn; lia|done..]. }
      rewrite Hrun in Hin'. cbn [fst snd] in Hin'.
      destruct (step_begin_served id fn (ctx_workflowId ctx)
                  (sequenceCounter ctx) (w_db w') w2 v Hnd')
        as (w2a & Hb & Hsa).
      { by exists rec. }
      destruct (Hrep (tl scheds2) (yield (hd [] scheds2) w2a))
        as (w2' & Hr & Hsil).
      exists w2'. split.
      * cbn [run]. rewrite Hb. rewrite await_step_settled by done. exact Hr.
      * eapply silent_trans; [exact Hsa|].
        eapply silent_trans; [apply silent_yield|done].
    + unfold pass_catch in Hrun. by destruct (decide _).
    + done.
    + done.
  - cbn [run] in Hrun.
    pose proof (begin_all_group_served calls ctx w Hndc Hnd Hs) as HG.
    pose proof (begin_all_context calls ctx w) as Hctx.
    destruct (begin_all calls ctx w) as [[ctx1 w1] ps]. cbn [fst snd] in *.
    subst ctx1.
    pose proof (await_all_group_served ctx (sequenceCounter ctx) calls
                  (hd [] scheds) ps w1 Hndc HG) as HG'.
    pose proof (await_all_state (hd [] scheds) ps w1) as Hst.
    destruct (await_all ps (hd [] scheds) w1) as [[[w1' ps'] rest] st].
    cbn [fst snd] in *. destruct st as [|vs|e].
    + done.
    + symmetry in Hst. apply promise_all_fulfilled in Hst as ->.
      destruct (group_served_fulfilled _ _ _ _ _ HG') as [Hlen Hsv].
      destruct HG' as (Hnd1 & Hs1 & _ & _).
      destruct (IH vs (tl scheds) _ w1' ctx' w' Hrun Hndc Hnd1 Hs1)
        as [Hnd' Hrep].
      split; [done|]. intros scheds2 w2.
      destruct (begin_all_served calls (ctx_workflowId ctx)
                  (sequenceCounter ctx) (w_db w') w2 vs Hnd' Hlen)
        as (w2a & Hb & Hsa).
      { intros i call v Hcl Hv.
        destruct (Hsv i call v Hcl Hv) as (rec & Hin & Hw & Hk & Hst' & Hres).
        exists rec. split_and!; [|done..].
        destruct (run_keeps_earlier rec call.1 (S (sequenceCounter ctx + i))
                    Hk (k vs) (tl scheds)
                    (mkCtx (ctx_workflowId ctx)
                       (sequenceCounter ctx + length calls) (ctx_db ctx)) w1')
          as [_ Hin'].
        { apply lookup_lt_Some in Hcl. split_and!; [cbn; lia|done..]. }
        by rewrite Hrun in Hin'. }
      destruct (Hrep (tl scheds2) (yield (hd [] scheds2) w2a))
        as (w2' & Hr & Hsil).
      exists w2'. split.
      * cbn [run]. rewrite Hb, await_all_fulfilled. exact Hr.
      * eapply silent_trans; [exact Hsa|].
        eapply silent_trans; [apply silent_yield|done].
    + destruct (pass_catch e w1') as [wx r] eqn:Hp.
      destruct (drain ps' rest wx). injection Hrun as _ _ ->.
      unfold pass_catch in Hp. by destruct (decide _).
Qed.

(** X9. A pass that completed over a store without duplicate keys can be
    run again over the store it left, under any schedules and in any state
    of the clock, the log and the crash signal: the second pass completes,
    leaves the store as it is, and neither polls the signal, nor writes a
    record, nor invokes any work. *)
Theorem replay_of_a_completed_pass wid wf scheds w w' :
  NoDup (stepKey <$> w_db w) ->
  runWorkflow wid wf scheds w = (w', PassCompleted) ->
  forall scheds2 w2, w_db w2 = w_db w' ->
    (runWorkflow wid wf scheds2 w2).2 = PassCompleted
    /\ silent w2 (runWorkflow wid wf scheds2 w2).1.
Proof.
  intros Hnd Hrun scheds2 w2 Hdb. unfold runWorkflow in *.
  destruct (run wf scheds _ _) as [[ctx' wr] r] eqn:Hr in Hrun.
  injection Hrun as -> ->.
  apply run_replay in Hr as [_ Hrep]; [|done|done|by intros r ? _ _].
  cbn [newContext ctx_workflowId sequenceCounter] in Hrep.
  set (w20 := addLog _ system w2).
  destruct (Hrep scheds2 w20) as (w2' & Hr2 & Hsil).
  change (newContext wid (w_db w20)) with (mkCtx wid 0 (w_db w2)).
  rewrite Hdb, Hr2. cbn [fst snd]. split; [done|].
  eapply silent_trans; [apply silent_log|exact Hsil].
Qed.

Lemma replay_of_a_completed_pass_witness :
  let w' := (runWorkflow WORKFLOW_ID onboarding onboarding_run empty_world).1 in
  let w2 := mkWorld (w_db w') [] true 0 [] in
  (runWorkflow WORKFLOW_ID onboarding [] w2).2 = PassCompleted
  /\ silent w2 (runWorkflow WORKFLOW_ID onboarding [] w2).1.
Proof.
  intros w' w2.
  apply (replay_of_a_completed_pass WORKFLOW_ID onboarding onboarding_run
           empty_world w').
  - apply NoDup_nil_2.
  - vm_compute. reflexivity.
  - reflexivity.
Defined.

(** X10. What a step commits is what the next context reads: once an
    awaited step has resolved with [v], a call with the same label at the
    same position of a context of the same workflow over the resulting
    store is fulfilled with [v] at once, whatever work it is given. *)
Theorem committed_step_is_served id v a1 a2 ctx w :
  memo_miss ctx (makeStepKey id (S (sequenceCounter ctx))) ->
  w_isCrashed w = false -> w_isCrashed (env_apply a1 w) = false ->
  forall fn' w2,
    (step_begin id fn'
       (mkCtx (ctx_workflowId ctx) (sequenceCounter ctx)
          (w_db (await_one id (Resolves v) a1 a2 ctx w).1.2)) w2).2
    = Fulfilled v.
Proof.
  intros Hm Hc Hc1 fn' w2.
  destruct (await_one_resolved id (Resolves v) a1 a2 ctx w Hm v eq_refl Hc Hc1)
    as (w' & -> & Hdb & _).
  cbn [fst snd]. rewrite Hdb.
  set (rec := completed_record _ v _).
  pose proof (find_after_update rec (sequenceCounter ctx) (w_db w)) as Hf.
  destruct (step_begin_spec id fn' (mkCtx (ctx_workflowId ctx)
              (sequenceCounter ctx) (handleStepUpdate rec (w_db w))) w2)
    as [r [Hf' _]|Hm' _|Hm' _]; cbn [snd].
  - cbn in Hf, Hf'. rewrite Hf in Hf'. by injection Hf' as <-.
  - by destruct (Hm' rec Hf).
  - by destruct (Hm' rec Hf).
Qed.

Lemma committed_step_is_served_witness :
  (step_begin "Create Employee Record" (Rejects (mkError "boom"))
     (mkCtx WORKFLOW_ID 0
        (w_db (await_one "Create Employee Record" (Resolves (JString "E101"))
                 idle idle (newContext WORKFLOW_ID []) empty_world).1.2))
     empty_world).2
  = Fulfilled (JString "E101").
Proof.
  apply (committed_step_is_served "Create Employee Record" (JString "E101")
           idle idle (newContext WORKFLOW_ID []) empty_world);
    [by intros r|reflexivity|reflexivity].
Defined.

(** ** A group entered while the signal is asserted *)

Lemma updates_of_emit e w :
  updates_of (w_trace (emit e w)) =
  updates_of (w_trace w) ++
  match e with EUpdate rec => [rec] | _ => [] end.
Proof. unfold updates_of. cbn. rewrite omap_app. by destruct e. Qed.

Lemma nothing_done_trans w1 w2 w3 :
  nothing_done w1 w2 -> nothing_done w2 w3 -> nothing_done w1 w3.
Proof. intros (? & ? & ?) (? & ? & ?). split_and!; congruence. Qed.

Lemma nothing_done_yield sched w : nothing_done w (yield sched w).
Proof. by destruct sched as [|[]]. Qed.

Lemma step_begin_crashed id fn ctx w :
  w_isCrashed w = true ->
  w_isCrashed (step_begin id fn ctx w).1.2 = true
  /\ nothing_done w (step_begin id fn ctx w).1.2
  /\ served_or_interrupted (step_begin id fn ctx w).2
  /\ (memo_miss ctx (makeStepKey id (S (sequenceCounter ctx))) ->
      (step_begin id fn ctx w).2 = Rejected interrupted_error).
Proof.
  intros Hc.
  destruct (step_begin_spec id fn ctx w) as [r [Hf Hr]|Hm _|Hm Hc'];
    cbn [fst snd]; [| |congruence].
  - split_and!; [done| |right; by eexists|by intros Hm; destruct (Hm r)].
    split_and!; [done|..];
      change (w_trace (addLog ?m ?t ?x)) with (w_trace x).
    + rewrite invocations_of_emit. by rewrite app_nil_r.
    + rewrite updates_of_emit. by rewrite app_nil_r.
  - split_and!; [done| |by left|done].
    split_and!; [done|..].
    + rewrite !invocations_of_emit. by rewrite !app_nil_r.
    + rewrite !updates_of_emit. by rewrite !app_nil_r.
Qed.

Lemma begin_all_crashed calls : forall ctx w,
  w_isCrashed w = true ->
  w_isCrashed (begin_all calls ctx w).1.2 = true
  /\ nothing_done w (begin_all calls ctx w).1.2
  /\ Forall served_or_interrupted (begin_all calls ctx w).2
  /\ forall j call, calls !! j = Some call ->
       memo_miss ctx (makeStepKey call.1 (S (sequenceCounter ctx + j))) ->
       (begin_all calls ctx w).2 !! j = Some (Rejected interrupted_error).
Proof.
  induction calls as [|[id fn] calls IH]; intros ctx w Hc; cbn [begin_all].
  - split_and!; [done..|]. intros j call Hj. by rewrite lookup_nil in Hj.
  - destruct (step_begin_crashed id fn ctx w Hc) as (Hc1 & Hn1 & Hp & Hrej).
    pose proof (step_begin_ctx id fn ctx w) as Hctx.
    destruct (step_begin id fn ctx w) as [[ctx1 w1] p]. cbn [fst snd] in *.
    subst ctx1. destruct (IH (bump ctx) w1 Hc1) as (Hc2 & Hn2 & Hps & Hrejs).
    destruct (begin_all calls (bump ctx) w1) as [[ctx2 w2] ps].
    cbn [fst snd] in *. split_and!.
    + done.
    + by eapply nothing_done_trans.
    + by constructor.
    + intros [|j] call Hj Hm; cbn in Hj.
      * injection Hj as <-. cbn. f_equal. apply Hrej.
        by rewrite Nat.add_0_r in Hm.
      * cbn. apply (Hrejs j call Hj). rewrite Nat.add_succ_r in Hm. exact Hm.
Qed.

Lemma promise_all_interrupted ps : forall j,
  Forall served_or_interrupted ps ->
  ps !! j = Some (Rejected interrupted_error) ->
  promise_all ps = AllRejected interrupted_error.
Proof.
  induction ps as [|p ps IH]; intros j Hps Hj; [by rewrite lookup_nil in Hj|].
  apply Forall_cons in Hps as [[->|[v ->]] Hps]; [done|].
  destruct j as [|j]; [done|]. cbn in Hj. cbn. by rewrite (IH j).
Qed.

Lemma await_all_rejected ps sched w e :
  promise_all ps = AllRejected e ->
  await_all ps sched w = (yield sched w, ps, tl sched, AllRejected e).
Proof. intros H. destruct sched as [|[i a] sched]; cbn [await_all]; by rewrite H. Qed.

Lemma drain_settled sched : forall ps w,
  Forall served_or_interrupted ps -> nothing_done w (drain ps sched w).1.
Proof.
  induction sched as [|[i a] sched IH]; intros ps w Hps; cbn [drain]; [done|].
  assert (resume i ps (env_apply a w) = (env_apply a w, ps)) as ->.
  { unfold resume. destruct (ps !! i) as [p|] eqn:Hi; [|done].
    assert (served_or_interrupted p) as [->|[v ->]]
      by (eapply Forall_lookup_1; eauto);
      cbn [advance]; by rewrite list_insert_id. }
  eapply nothing_done_trans; [|by apply IH]. done.
Qed.

(** X11. A pass that reaches a parallel group while the crash signal is
    asserted, with at least one branch that the store does not serve, ends
    interrupted: no branch writes a record or invokes its work, and the
    store is left as it was, whatever happens afterwards. *)
Theorem group_entered_while_interrupted calls k scheds ctx w j call :
  w_isCrashed w = true ->
  calls !! j = Some call ->
  memo_miss ctx (makeStepKey call.1 (S (sequenceCounter ctx + j))) ->
  (run (AwaitParallel calls k) scheds ctx w).2 = PassInterrupted
  /\ nothing_done w (run (AwaitParallel calls k) scheds ctx w).1.2.
Proof.
  intros Hc Hj Hm. cbn [run].
  destruct (begin_all_crashed calls ctx w Hc) as (_ & Hn & Hps & Hrej).
  specialize (Hrej j call Hj Hm).
  destruct (begin_all calls ctx w) as [[ctx1 w1] ps]. cbn [fst snd] in *.
  rewrite (await_all_rejected ps _ _ interrupted_error)
    by by eapply promise_all_interrupted.
  rewrite pass_catch_interrupted.
  pose proof (drain_settled (tl (hd [] scheds)) ps (yield (hd [] scheds) w1) Hps)
    as Hd.
  destruct (drain ps _ _) as [wd psd]. cbn [fst snd] in *. split; [done|].
  eapply nothing_done_trans; [exact Hn|].
  eapply nothing_done_trans; [apply nothing_done_yield|exact Hd].
Qed.

Lemma group_entered_while_interrupted_witness :
  let w := mkWorld [employee_record] [] true 0 [] in
  let r := run (AwaitParallel provisioning (fun _ => Finish))
             [[(0, recover); (1, idle)]] (mkCtx WORKFLOW_ID 1 [employee_record]) w in
  r.2 = PassInterrupted /\ nothing_done w r.1.2.
Proof.
  apply (group_entered_while_interrupted provisioning (fun _ => Finish)
           [[(0, recover); (1, idle)]] (mkCtx WORKFLOW_ID 1 [employee_record])
           (mkWorld [employee_record] [] true 0 []) 0
           ("Provision Laptop", Resolves (JString "MacBook Pro M3 Pro")));
    [reflexivity|reflexivity|].
  intros r. vm_compute. discriminate.
Defined.

(** ** A pass that is resumed ends *)

Lemma await_step_settles p sched w :
  2 <= length sched -> settled (await_step p sched w).2.
Proof.
  destruct sched as [|[i a1] [|[j a2] rest]]; cbn [length]; [lia..|]. intros _.
  rewrite await_step_two.
  destruct p as [v|e|rr fn|rr fn]; cbn [await_step advance]; try done.
  - destruct (step_wake_progress rr fn (env_apply a1 w)) as [Hs|Hw];
      destruct (step_wake rr fn (env_apply a1 w)) as [w1 p1]; cbn [snd] in *;
      subst p1; [done|].
    cbn [await_step advance].
    pose proof (step_settle_settled rr fn (env_apply a2 w1)) as Hs.
    destruct (step_settle rr fn (env_apply a2 w1)) as [w2 p2]. cbn [snd] in Hs.
    by destruct p2.
  - pose proof (step_settle_settled rr fn (env_apply a1 w)) as Hs.
    destruct (step_settle rr fn (env_apply a1 w)) as [w1 p1]. cbn [snd] in Hs.
    by destruct p1.
Qed.

Lemma begin_all_length calls : forall ctx w,
  length (begin_all calls ctx w).2 = length calls.
Proof.
  induction calls as [|[id fn] calls IH]; intros ctx w; cbn [begin_all]; [done|].
  destruct (step_begin id fn ctx w) as [[ctx1 w1] p].
  specialize (IH ctx1 w1). destruct (begin_all calls ctx1 w1) as [[ctx2 w2] ps].
  cbn in *. by rewrite IH.
Qed.

Lemma run_ends wf : forall scheds ctx w,
  fairly_scheduled wf scheds -> (run wf scheds ctx w).2 <> PassSuspended.
Proof.
  induction wf as [|msg ty k IH|id fn k IH|calls k IH];
    intros scheds ctx w Hfair; cbn [run].
  - done.
  - by apply IH.
  - destruct Hfair as [Hlen Hk].
    destruct (step_begin id fn ctx w) as [[ctx1 w1] p].
    pose proof (await_step_settles p (hd [] scheds) w1 Hlen) as Hs.
    destruct (await_step p (hd [] scheds) w1) as [w1' p']. cbn [snd] in Hs.
    destruct p' as [v|e|rr fn'|rr fn']; [by apply IH| |done..].
    unfold pass_catch. by destruct (decide _).
  - destruct Hfair as [Hvis Hk].
    pose proof (begin_all_length calls ctx w) as Hlen.
    destruct (begin_all calls ctx w) as [[ctx1 w1] ps]. cbn [snd] in Hlen.
    rewrite <-Hlen in Hvis.
    pose proof (await_all_settles ps (hd [] scheds) w1 Hvis) as Hs.
    destruct (await_all ps (hd [] scheds) w1) as [[[w1' ps'] rest] st].
    cbn [snd] in Hs. destruct st as [|vs|e]; [done|by apply IH|].
    destruct (pass_catch e w1') as [wx r] eqn:Hp.
    destruct (drain ps' rest wx). cbn [snd].
    unfold pass_catch in Hp. destruct (decide _); by injection Hp as _ <-.
Qed.

(** X12. A step suspends twice, at the delay and at its work, and
    [Promise.all] waits for its branches only: when every [await] of a
    pass finds what it awaits resumed twice, the pass returns, completed,
    interrupted or failed. *)
Theorem resumed_pass_ends wid wf scheds w :
  fairly_scheduled wf scheds ->
  (runWorkflow wid wf scheds w).2 <> PassSuspended.
Proof.
  intros Hfair. unfold runWorkflow.
  set (w0 := addLog _ system w).
  pose proof (run_ends wf scheds (newContext wid (w_db w0)) w0 Hfair) as H.
  by destruct (run wf scheds _ w0) as [[ctx' w'] r].
Qed.

Lemma resumed_pass_ends_witness :
  (runWorkflow WORKFLOW_ID onboarding onboarding_run empty_world).2
  <> PassSuspended.
Proof.
  apply (resumed_pass_ends WORKFLOW_ID onboarding onboarding_run empty_world).
  cbn. split; [lia|]. intros _. split.
  - intros [|[|i]] Hi; [vm_compute; lia..|cbn in Hi; lia].
  - intros _. split; [lia|done].
Defined.

(** ** Work is invoked at most once in a pass *)

Lemma invocations_of_update rec w :
  invocations_of (w_trace (onStepUpdate rec w)) = invocations_of (w_trace w).
Proof. unfold onStepUpdate. rewrite invocations_of_emit. cbn. by rewrite app_nil_r. Qed.

Lemma invoked_in_mono c0 ctx ctx' w w' :
  sequenceCounter ctx <= sequenceCounter ctx' ->
  invocations_of (w_trace w') = invocations_of (w_trace w) ->
  invoked_in c0 ctx w -> invoked_in c0 ctx' w'.
Proof.
  intros Hle Heq (Hc & Hnd & Hk). unfold invoked_in. rewrite Heq.
  split_and!; [lia|done|]. intros key Hin.
  destruct (Hk key Hin) as (id & n & -> & ?). exists id, n. split; [done|lia].
Qed.

Lemma fresh_key_not_invoked c0 ctx w id m :
  invoked_in c0 ctx w -> sequenceCounter ctx < m ->
  makeStepKey id m ∉ invocations_of (w_trace w).
Proof.
  intros (_ & _ & Hk) Hm Hin. destruct (Hk _ Hin) as (id' & n & Heq & ?).
  apply makeStepKey_inj in Heq as [_ ->]. lia.
Qed.

Lemma invoked_in_invoke c0 ctx w id n :
  c0 < n <= sequenceCounter ctx ->
  makeStepKey id n ∉ invocations_of (w_trace w) ->
  invoked_in c0 ctx w ->
  invoked_in c0 ctx (emit (EInvoke (makeStepKey id n)) (emit (EPoll false) w)).
Proof.
  intros Hn Hnin (Hc & Hnd & Hk). unfold invoked_in.
  rewrite !invocations_of_emit, app_nil_r. split_and!; [done|..].
  - apply NoDup_app. split_and!; [done| |apply NoDup_singleton].
    intros x Hx Heq%list_elem_of_singleton. by subst x.
  - intros key [Hin|Heq%list_elem_of_singleton]%elem_of_app; [by apply Hk|].
    subst key. by exists id, n.
Qed.

(** Resuming a call either invokes nothing and leaves it past its delay,
    or takes it from its delay to its work and invokes that work. *)
Lemma advance_invocations p w :
  (invocations_of (w_trace (advance p w).1) = invocations_of (w_trace w)
   /\ forall rr fn, (advance p w).2 <> Sleeping rr fn)
  \/ (exists rr fn, p = Sleeping rr fn
      /\ advance p w
         = (emit (EInvoke (stepKey rr)) (emit (EPoll false) w), Working rr fn)).
Proof.
  destruct p as [v|e|rr fn|rr fn]; cbn [advance].
  - by left.
  - by left.
  - destruct (w_isCrashed w) eqn:Hc.
    + rewrite step_wake_crashed by done. left. split; [|done]. cbn [fst].
      change (w_trace (addLog ?m ?t ?x)) with (w_trace x).
      rewrite invocations_of_emit. by rewrite app_nil_r.
    + rewrite step_wake_invokes by done. right. by exists rr, fn.
  - left. destruct fn as [v|e|u].
    + rewrite step_settle_resolved. split; [|done]. cbn [fst].
      change (w_trace (addLog ?m ?t ?x)) with (w_trace x).
      apply invocations_of_update.
    + rewrite step_settle_rejected.
      destruct (decide (is_interruption e)).
      * by rewrite step_catch_interrupted.
      * rewrite step_catch_failed by done. split; [|done]. cbn [fst].
        change (w_trace (addLog ?m ?t ?x)) with (w_trace x).
        apply invocations_of_update.
    + by rewrite step_settle_nullish.
Qed.

Lemma resume_fresh c0 ctx c calls ps j w :
  c0 <= c -> c + length calls <= sequenceCounter ctx ->
  invoked_in c0 ctx w -> group_fresh c calls ps w ->
  invoked_in c0 ctx (resume j ps w).1
  /\ group_fresh c calls (resume j ps w).2 (resume j ps w).1.
Proof.
  intros Hc0 Hc Hinv [Hlen Hbr]. unfold resume.
  destruct (ps !! j) as [pj|] eqn:Hj; [|done].
  assert (j < length ps) as Hjlt by by eapply lookup_lt_Some.
  destruct (lookup_lt_is_Some_2 calls j) as [call Hcall]; [by rewrite <-Hlen|].
  pose proof (Hbr j call pj Hcall Hj) as Hpj.
  destruct (advance_invocations pj w) as [[Hsame Hns]|(rr & fn & -> & Ha)].
  - destruct (advance pj w) as [w' p']. cbn [fst snd] in *. split.
    { by apply (invoked_in_mono c0 ctx ctx w w'). }
    split; [by rewrite length_insert|].
    intros i call' p Hc' Hp. destruct (decide (i = j)) as [->|Hne].
    + rewrite list_lookup_insert_eq in Hp by done. injection Hp as <-.
      destruct p' as [| |rr fn|]; try done. by destruct (Hns rr fn).
    + rewrite list_lookup_insert_ne in Hp by done.
      specialize (Hbr i call' p Hc' Hp). destruct p; try done.
      cbn in *. by rewrite Hsame.
  - rewrite Ha. cbn [fst snd]. cbn in Hpj. destruct Hpj as [Hk Hnin]. split.
    { rewrite Hk. apply invoked_in_invoke; [|by rewrite <-Hk|done].
      rewrite <-Hlen in Hc. lia. }
    split; [by rewrite length_insert|].
    intros i call' p Hc' Hp. destruct (decide (i = j)) as [->|Hne].
    + rewrite list_lookup_insert_eq in Hp by done. by injection Hp as <-.
    + rewrite list_lookup_insert_ne in Hp by done.
      specialize (Hbr i call' p Hc' Hp). destruct p as [| |rr' fn'|]; try done.
      cbn [branch_fresh] in Hbr |- *. destruct Hbr as [Hk' Hnin'].
      split; [done|]. rewrite !invocations_of_emit, app_nil_r.
      intros [Hin|Heq%list_elem_of_singleton]%elem_of_app; [done|].
      rewrite Hk, Hk' in Heq. apply makeStepKey_inj in Heq as [_ ?]. lia.
Qed.

Lemma await_all_fresh c0 ctx c calls sched : forall ps w,
  c0 <= c -> c + length calls <= sequenceCounter ctx ->
  invoked_in c0 ctx w -> group_fresh c calls ps w ->
  invoked_in c0 ctx (await_all ps sched w).1.1.1
  /\ group_fresh c calls (await_all ps sched w).1.1.2 (await_all ps sched w).1.1.1.
Proof.
  induction sched as [|[i a] sched IH]; intros ps w Hc0 Hc Hinv HG;
    cbn [await_all]; [done|].
  destruct (promise_all ps) eqn:H; [|by split..].
  destruct (resume_fresh c0 ctx c calls ps i (env_apply a w) Hc0 Hc Hinv HG)
    as [Hinv' HG'].
  destruct (resume i ps (env_apply a w)) as [w' ps'].
  destruct (promise_all ps') eqn:H'; [by apply IH|by split..].
Qed.

Lemma drain_fresh c0 ctx c calls sched : forall ps w,
  c0 <= c -> c + length calls <= sequenceCounter ctx ->
  invoked_in c0 ctx w -> group_fresh c calls ps w ->
  invoked_in c0 ctx (drain ps sched w).1.
Proof.
  induction sched as [|[i a] sched IH]; intros ps w Hc0 Hc Hinv HG;
    cbn [drain]; [done|].
  destruct (resume_fresh c0 ctx c calls ps i (env_apply a w) Hc0 Hc Hinv HG)
    as [Hinv' HG'].
  destruct (resume i ps (env_apply a w)) as [w' ps']. by apply IH.
Qed.

Lemma step_begin_sleeping id fn ctx w rr fn' :
  (step_begin id fn ctx w).2 = Sleeping rr fn' ->
  stepKey rr = makeStepKey id (S (sequenceCounter ctx)).
Proof.
  destruct (step_begin_spec id fn ctx w); cbn [snd]; [done..|].
  by intros [= <- _].
Qed.

Lemma begin_all_fresh c0 calls : forall ctx w,
  invoked_in c0 ctx w ->
  group_fresh (sequenceCounter ctx) calls (begin_all calls ctx w).2
    (begin_all calls ctx w).1.2.
Proof.
  induction calls as [|[id fn] calls IH]; intros ctx w Hinv; cbn [begin_all].
  - split; [done|]. intros i call p Hi. by rewrite lookup_nil in Hi.
  - pose proof (step_begin_ctx id fn ctx w) as Hctx.
    pose proof (step_begin_invocations id fn ctx w) as Hi1.
    pose proof (step_begin_sleeping id fn ctx w) as Hsl.
    destruct (step_begin id fn ctx w) as [[ctx1 w1] p]. cbn [fst snd] in *.
    subst ctx1.
    assert (invoked_in c0 (bump ctx) w1) as Hinv1.
    { apply (invoked_in_mono c0 ctx (bump ctx) w w1); [cbn; lia|done..]. }
    specialize (IH (bump ctx) w1 Hinv1).
    pose proof (begin_all_invocations calls (bump ctx) w1) as Hi2.
    destruct (begin_all calls (bump ctx) w1) as [[ctx2 w2] ps].
    cbn [fst snd] in *. destruct IH as [Hlen Hbr].
    split; [cbn; by rewrite Hlen|].
    intros [|i] call q Hc Hq; cbn in Hc, Hq.
    + injection Hc as <-. injection Hq as <-.
      destruct p as [| |rr fn'|]; try done. cbn.
      rewrite Nat.add_0_r, (Hsl rr fn' eq_refl). split; [done|].
      rewrite Hi2, Hi1. apply (fresh_key_not_invoked c0 ctx); [done|lia].
    + specialize (Hbr i call q Hc Hq). revert Hbr. unfold branch_fresh.
      rewrite Nat.add_succ_r. cbn [bump sequenceCounter plus]. by destruct q.
Qed.

Lemma await_step_invoked c0 ctx id n sched : forall p w,
  c0 < n <= sequenceCounter ctx ->
  invoked_in c0 ctx w ->
  (forall rr fn, p = Sleeping rr fn ->
     stepKey rr = makeStepKey id n
     /\ stepKey rr ∉ invocations_of (w_trace w)) ->
  invoked_in c0 ctx (await_step p sched w).1.
Proof.
  induction sched as [|[i a] sched IH]; intros p w Hn Hinv Hp;
    cbn [await_step]; [done|].
  assert (invoked_in c0 ctx
            (let '(w', p') := advance p (env_apply a w) in
             match p' with
             | Fulfilled _ | Rejected _ => (w', p')
             | _ => await_step p' sched w'
             end).1) as Hgoal.
  { destruct (advance_invocations p (env_apply a w))
      as [[Hsame Hns]|(rr & fn & -> & Ha)].
    - destruct (advance p (env_apply a w)) as [w' p']. cbn [fst snd] in *.
      assert (invoked_in c0 ctx w') as Hinv'
        by by apply (invoked_in_mono c0 ctx ctx w w').
      destruct p' as [v|e|rr fn|rr fn]; [done|done| |].
      + by destruct (Hns rr fn).
      + by apply IH.
    - rewrite Ha. destruct (Hp rr fn eq_refl) as [Hk Hnin].
      apply IH; [done| |done]. rewrite Hk.
      apply invoked_in_invoke; [done|by rewrite <-Hk|done]. }
  by destruct p.
Qed.

Lemma run_invoked c0 wf : forall scheds ctx w,
  invoked_in c0 ctx w ->
  invoked_in c0 (run wf scheds ctx w).1.1 (run wf scheds ctx w).1.2.
Proof.
  induction wf as [|msg ty k IH|id fn k IH|calls k IH];
    intros scheds ctx w Hinv; cbn [run].
  - done.
  - by apply IH.
  - pose proof (step_begin_ctx id fn ctx w) as Hctx.
    pose proof (step_begin_invocations id fn ctx w) as Hi1.
    pose proof (step_begin_sleeping id fn ctx w) as Hsl.
    destruct (step_begin id fn ctx w) as [[ctx1 w1] p]. cbn [fst snd] in *.
    subst ctx1.
    assert (invoked_in c0 (bump ctx) w1) as Hinv1.
    { apply (invoked_in_mono c0 ctx (bump ctx) w w1); [cbn; lia|done..]. }
    pose proof (await_step_invoked c0 (bump ctx) id (S (sequenceCounter ctx))
                  (hd [] scheds) p w1) as Haw.
    destruct Haw as (Hc' & Hnd' & Hk').
    { destruct Hinv as [? _]. cbn. lia. }
    { done. }
    { intros rr fn' ->. rewrite (Hsl rr fn' eq_refl). split; [done|].
      rewrite Hi1. apply (fresh_key_not_invoked c0 ctx); [done|lia]. }
    destruct (await_step p (hd [] scheds) w1) as [w1' p']. cbn [fst snd] in *.
    destruct p' as [v|e|rr fn'|rr fn'].
    + by apply IH.
    + unfold pass_catch. by destruct (decide _).
    + done.
    + done.
  - pose proof (begin_all_context calls ctx w) as Hctx.
    pose proof (begin_all_invocations calls ctx w) as Hi1.
    pose proof (begin_all_fresh c0 calls ctx w Hinv) as HG.
    destruct (begin_all calls ctx w) as [[ctx1 w1] ps]. cbn [fst snd] in *.
    assert (sequenceCounter ctx1 = sequenceCounter ctx + length calls) as Hcnt
      by by rewrite Hctx.
    assert (invoked_in c0 ctx1 w1) as Hinv1.
    { apply (invoked_in_mono c0 ctx ctx1 w w1); [lia|done..]. }
    destruct (await_all_fresh c0 ctx1 (sequenceCounter ctx) calls
                (hd [] scheds) ps w1) as [Hinv' HG']; [by destruct Hinv|lia|done..|].
    destruct (await_all ps (hd [] scheds) w1) as [[[w1' ps'] rest] st].
    cbn [fst snd] in *. destruct st as [|vs|e].
    + done.
    + by apply IH.
    + assert (forall wx, invocations_of (w_trace wx) = invocations_of (w_trace w1') ->
                invoked_in c0 ctx1 (drain ps' rest wx).1) as Hd.
      { intros wx Hx. apply (drain_fresh c0 ctx1 (sequenceCounter ctx) calls);
          [by destruct Hinv|lia| |].
        - by apply (invoked_in_mono c0 ctx1 ctx1 w1' wx).
        - destruct HG' as [Hlen Hbr]. split; [done|].
          intros i call p Hc Hp. specialize (Hbr i call p Hc Hp).
          destruct p; try done. cbn in *. by rewrite Hx. }
      unfold pass_catch. destruct (decide _).
      * specialize (Hd w1' eq_refl). by destruct (drain ps' rest w1').
      * specialize (Hd (addLog ("Workflow failed: " +:+ message_text e)
                          error_t w1') eq_refl).
        by destruct (drain ps' rest _).
Qed.

(** X13. In a pass, no work is invoked twice: the step keys of the
    invocations are pairwise different, and each carries a sequence number
    that the pass allocated, whatever the schedules, the store and the
    crash signal. *)
Theorem work_is_invoked_at_most_once wf scheds ctx w :
  invocations_of (w_trace w) = [] ->
  let r := run wf scheds ctx w in
  NoDup (invocations_of (w_trace r.1.2))
  /\ forall key, key ∈ invocations_of (w_trace r.1.2) ->
       exists id n, key = makeStepKey id n
                    /\ sequenceCounter ctx < n <= sequenceCounter r.1.1.
Proof.
  intros Hnil r.
  destruct (run_invoked (sequenceCounter ctx) wf scheds ctx w) as (_ & Hnd & Hk).
  { split_and!; [done|rewrite Hnil; apply NoDup_nil_2|].
    intros key. rewrite Hnil. by intros ?%elem_of_nil. }
  done.
Qed.

Lemma work_is_invoked_at_most_once_witness :
  let r := run onboarding onboarding_run (newContext WORKFLOW_ID []) empty_world in
  NoDup (invocations_of (w_trace r.1.2))
  /\ forall key, key ∈ invocations_of (w_trace r.1.2) ->
       exists id n, key = makeStepKey id n /\ 0 < n <= sequenceCounter r.1.1.
Proof.
  apply (work_is_invoked_at_most_once onboarding onboarding_run
           (newContext WORKFLOW_ID []) empty_world).
  reflexivity.
Defined.

(** ** The store between updates *)

Lemma filter_other_keys (r : StepRecord) (db : list StepRecord) :
  stepKey r ∉ (stepKey <$> db) ->
  filter (fun x => stepKey x <> stepKey r) db = db.
Proof.
  induction db as [|x db IH]; [done|]. cbn [fmap list_fmap].
  intros [Hx Hdb]%not_elem_of_cons.
  rewrite filter_cons_True by done. f_equal. by apply IH.
Qed.

(** In an array with one record per key, an update leaves the new record
    and the records of the other keys. *)
Lemma handleStepUpdate_filter r db :
  NoDup (stepKey <$> db) ->
  handleStepUpdate r db ≡ₚ r :: filter (fun x => stepKey x <> stepKey r) db.
Proof.
  induction db as [|x db IH]; [done|]. cbn [fmap list_fmap].
  intros [Hx Hnd]%NoDup_cons. rewrite handleStepUpdate_cons.
  destruct (decide (stepKey x = stepKey r)) as [He|Hne].
  - rewrite filter_cons_False by (intros H; by apply H).
    rewrite filter_other_keys; [done|]. by rewrite <-He.
  - rewrite filter_cons_True by done. rewrite IH by done.
    apply Permutation_swap.
Qed.

Lemma handleStepUpdate_perm r db1 db2 :
  db1 ≡ₚ db2 -> NoDup (stepKey <$> db1) ->
  handleStepUpdate r db1 ≡ₚ handleStepUpdate r db2.
Proof.
  intros Hp Hnd. rewrite !handleStepUpdate_filter; [|by rewrite <-Hp|done].
  by rewrite Hp.
Qed.

Lemma store_ops_perm ops : forall db1 db2,
  db1 ≡ₚ db2 -> NoDup (stepKey <$> db1) ->
  store_ops ops db1 ≡ₚ update_all (upserts ops) db2.
Proof.
  induction ops as [|[r|] ops IH]; intros db1 db2 Hp Hnd; [done|..].
  - apply IH; [by apply handleStepUpdate_perm|by apply handleStepUpdate_NoDup].
  - apply IH; cbn [store_op]; by rewrite sort_by_sequence_perm.
Qed.

Lemma update_all_NoDup l : forall db,
  NoDup (stepKey <$> db) -> NoDup (stepKey <$> update_all l db).
Proof.
  induction l as [|r l IH]; intros db Hnd; [done|].
  by apply IH, handleStepUpdate_NoDup.
Qed.

Lemma handleStepUpdate_keeps_keys r db key :
  key ∈ (stepKey <$> db) -> key ∈ (stepKey <$> handleStepUpdate r db).
Proof.
  intros Hin. destruct (decide (stepKey r ∈ (stepKey <$> db))) as [Hr|Hr].
  - by rewrite handleStepUpdate_keys.
  - rewrite handleStepUpdate_keys_new by done. rewrite fmap_app.
    apply elem_of_app. by left.
Qed.

Lemma update_all_keeps_keys l key : forall db,
  key ∈ (stepKey <$> db) -> key ∈ (stepKey <$> update_all l db).
Proof.
  induction l as [|r l IH]; intros db Hin; [done|].
  by apply IH, handleStepUpdate_keeps_keys.
Qed.

Section Folded.
Variable t0 : list Event.
Variable db0 : list StepRecord.

Lemma folded_emit e w :
  match e with EUpdate _ => False | _ => True end ->
  folded t0 db0 w -> folded t0 db0 (emit e w).
Proof.
  intros He (l & Hl & Hdb). exists l. split; [|done].
  rewrite updates_of_emit, Hl. destruct e; try done; by rewrite app_nil_r.
Qed.

Lemma folded_update rec w :
  folded t0 db0 w -> folded t0 db0 (onStepUpdate rec w).
Proof.
  intros (l & Hl & Hdb). exists (l ++ [rec]). split.
  - unfold onStepUpdate. rewrite updates_of_emit. cbn [w_trace].
    by rewrite Hl, <-(assoc_L (++)).
  - cbn. unfold update_all. rewrite foldl_app. cbn. by rewrite Hdb.
Qed.

Lemma folded_begin id fn ctx w :
  folded t0 db0 w -> folded t0 db0 (step_begin id fn ctx w).1.2.
Proof.
  intros Hw.
  destruct (step_begin_spec id fn ctx w) as [r Hr|Hm Hc|Hm Hc]; cbn [fst snd].
  - by apply (folded_emit (ECall _ _ _)).
  - by do 2 (apply folded_emit; [done|]).
  - apply folded_update.
    change (folded t0 db0 (emit (EPoll false)
              (emit (ECall id (S (sequenceCounter ctx))
                       (makeStepKey id (S (sequenceCounter ctx)))) w))).
    by do 2 (apply folded_emit; [done|]).
Qed.

Lemma folded_advance p w :
  folded t0 db0 w -> folded t0 db0 (advance p w).1.
Proof.
  intros Hw. destruct p as [v|e|rr fn|rr fn]; cbn [advance]; try done.
  - destruct (w_isCrashed w) eqn:Hc.
    + rewrite step_wake_crashed by done. by apply (folded_emit (EPoll true)).
    + rewrite step_wake_invokes by done.
      by do 2 (apply folded_emit; [done|]).
  - destruct fn as [v|e|u].
    + rewrite step_settle_resolved.
      by apply (folded_update (completed_record rr v (w_now w))).
    + rewrite step_settle_rejected. destruct (decide (is_interruption e)).
      * by rewrite step_catch_interrupted.
      * rewrite step_catch_failed by done.
        by apply (folded_update (failed_record rr e (w_now w))).
    + by rewrite step_settle_nullish.
Qed.
End Folded.

(** X8. The table view sorts the [db] state in place at every render, so
    an update may find the array in another order than the previous update
    left it.  For a store with one record per key this changes the order of
    the records and nothing else: take any pass and put renders between its
    updates as you like; the array the app then holds has the records of
    the store as it is modelled here, by the updates alone; the store still
    has one record per key; no key it held before the pass is missing; and
    every lookup of [step] finds the same in both. *)
Theorem renders_between_updates :
  forall (wid : string) (wf : Workflow) (scheds : list Schedule) (w : World)
         (ops : list StoreOp) (db0 : list StepRecord),
    NoDup (stepKey <$> w_db w) ->
    db0 ≡ₚ w_db w ->
    let w' := (runWorkflow wid wf scheds w).1 in
    upserts ops = new_updates w w' ->
    store_ops ops db0 ≡ₚ w_db w'
    /\ NoDup (stepKey <$> w_db w')
    /\ (forall key, key ∈ (stepKey <$> w_db w) ->
                    key ∈ (stepKey <$> store_ops ops db0))
    /\ (forall wid' c key,
          find_existing (mkCtx wid' c (store_ops ops db0)) key =
          find_existing (mkCtx wid' c (w_db w')) key).
Proof.
  intros wid wf scheds w ops db0 Hnd Hp w' Hops.
  destruct (runWorkflow_inv (fun _ => folded (w_trace w) (w_db w))
              (fun _ => True)) with (wid := wid) (wf := wf) (scheds := scheds)
              (w := w) as [ctx (l & Hl & Hdb)].
  - intros msg ty ctx w0 H. exact H.
  - intros a ctx w0 H. exact H.
  - intros. split; [|done]. by apply folded_begin.
  - intros. split; [|done]. by apply folded_advance.
  - exists []. split; [by rewrite app_nil_r|done].
  - fold w' in Hl, Hdb. unfold new_updates in Hops.
    rewrite Hl, drop_app_length in Hops. subst l.
    assert (store_ops ops db0 ≡ₚ w_db w') as Hperm.
    { rewrite Hdb. apply store_ops_perm; [done|by rewrite Hp]. }
    assert (NoDup (stepKey <$> w_db w')) as Hnd'.
    { rewrite Hdb. by apply update_all_NoDup. }
    split_and!; [done|done| |].
    + intros key Hkey. rewrite Hperm, Hdb. by apply update_all_keeps_keys.
    + intros wid' c key. apply find_existing_perm; [done|by rewrite Hperm].
Qed.

Lemma renders_between_updates_witness :
  let w' := (runWorkflow "wf-1" charge [in_order 1] shipping_world).1 in
  store_ops (render_after_each (new_updates shipping_world w'))
    (w_db shipping_world) ≡ₚ w_db w'.
Proof.
  intros w'.
  apply (renders_between_updates "wf-1" charge [in_order 1] shipping_world
           (render_after_each (new_updates shipping_world w'))
           (w_db shipping_world)).
  - apply NoDup_singleton.
  - reflexivity.
  - vm_compute. reflexivity.
Defined.

(** With a render after each update the array of the app is in the order
    of the sequence numbers, while the updates alone leave the new record
    at the end. *)
Example renders_reorder_the_store :
  let w' := (runWorkflow "wf-1" charge [in_order 1] shipping_world).1 in
  (stepKey <$> w_db w') = ["Ship_seq_2"; "Charge_seq_1"]
  /\ (stepKey <$> store_ops (render_after_each (new_updates shipping_world w'))
                    (w_db shipping_world))
     = ["Charge_seq_1"; "Ship_seq_2"].
Proof. vm_compute. done. Qed.
